(** * astro-coda-loader: lookup expansion, value normalisation, string cleaning

    A shallow embedding of [coda-loader.ts] (the version with the table-level
    cache) and of [normalize-utils.ts], with the properties of the
    specification stated and proved over it.

    Conventions of the embedding
    - a JavaScript value of type [RawValue] is a term of the inductive type
      [RawValue]; [undefined] is a value of its own because the code tests
      for it;
    - a JavaScript object is the list of its own enumerable entries in
      enumeration order; its keys are pairwise distinct ([NoDup]), which is
      the well-formedness condition that some statements carry;
    - a string is a sequence of 8-bit code units;
    - JavaScript numbers are an abstract carrier with the operations the code
      applies to them ([JSNumber]); depths and counters are integers, so a
      depth that is not a number or is infinite is no depth of the model;
    - an object that the code uses as a map ([tableCache], [cache], the
      column types) is the finite map of its own properties; a read of such
      an object also finds the members of [Object.prototype], and an
      assignment to the key [__proto__] of an object made with [{}] runs the
      setter of that member and adds no own property: both are written out
      where the code does them ([read_table], [assign_fresh],
      [cache_column]); in [columnTypes[key]] a member of [Object.prototype]
      is no string and selects no branch, as an absent type does;
    - [VObj] lists the own properties of an object and does not record its
      prototype, which is [Object.prototype] for every object of the input;
    - the API answers a table fetch with finitely many pages ([Pages]);
    - [async] functions run one after the other, so they are state-passing
      functions over [State], which holds the processing context of the
      current [expandLookups] call, the requests sent so far and the lines
      logged so far; an exception is the [Throw] result. *)

From Stdlib Require Import ZArith Lia Ascii.
From stdpp Require Import gmap strings list fin_maps pretty.

Open Scope string_scope.
Open Scope list_scope.
Set Warnings "-register-all".

(** ** JavaScript numbers *)

Class JSNumber := {
  number : Type;
  (** the literal [0] *)
  num_zero : number;
  (** [Number(s)] for a string [s] *)
  Number : string → number;
  (** [isNaN(n)] *)
  isNaN : number → bool;
  (** [String(n)], as used by template literals *)
  num_toString : number → string
}.

(** ** Strings *)

(** [String.prototype.toLowerCase] on one 8-bit code unit: it changes the
    letters A to Z and nothing else. *)
Definition lower_ascii (c : ascii) : ascii :=
  let n := nat_of_ascii c in
  if (65 <=? n)%nat && (n <=? 90)%nat then ascii_of_nat (n + 32) else c.

Fixpoint toLowerCase (s : string) : string :=
  match s with
  | EmptyString => EmptyString
  | String c s' => String (lower_ascii c) (toLowerCase s')
  end.

Definition str_eqb (a b : string) : bool := bool_decide (a = b).

(** The names of the members of [Object.prototype].  A read [o[k]] of an
    object made with [{}] that has no own property [k] finds the member of
    that name, a function or, for [__proto__], the prototype object. *)
Definition object_prototype_members : list string :=
  ["constructor"; "__defineGetter__"; "__defineSetter__"; "hasOwnProperty";
   "__lookupGetter__"; "__lookupSetter__"; "isPrototypeOf"; "propertyIsEnumerable";
   "toString"; "valueOf"; "__proto__"; "toLocaleString"].

Definition inherited (k : string) : bool := bool_decide (k ∈ object_prototype_members).

(** ** Errors, requests and results *)

Record Error : Type := { err_name : string; err_message : string }.

Definition mkError (message : string) : Error :=
  {| err_name := "Error"; err_message := message |}.

Definition TypeError (message : string) : Error :=
  {| err_name := "TypeError"; err_message := message |}.

(** One HTTP request for a page of rows of a table. *)
Record Request : Type := {
  req_docId : string;
  req_table : string;
  req_token : string;
  req_pageToken : option string
}.

Inductive FetchFailure : Type :=
| NetworkFailure (e : Error)                  (* [fetch] rejects *)
| Aborted                                     (* the 30 s timer aborts the request *)
| HttpFailure (status : nat) (statusText : string)  (* [response.ok] is false *)
| JsonFailure (e : Error).                    (* [response.json()] rejects *)

Inductive LogLevel : Type := LDebug | LInfo | LWarn.

(** The outcome of a call: a value, an exception, or not enough fuel to
    finish (see [expandRowLookups]). *)
Inductive Result (A : Type) : Type :=
| Ok (a : A)
| Throw (e : Error)
| OutOfFuel.
Arguments Ok {A} a.
Arguments Throw {A} e.
Arguments OutOfFuel {A}.

Section Values.
Context `{JSNumber}.

(** ** RawValue (types.ts) *)

Inductive RawValue : Type :=
| VUndefined
| VNull
| VBool (b : bool)
| VNum (n : number)
| VStr (s : string)
| VArr (items : list RawValue)
| VObj (fields : list (string * RawValue)).

(** [Record<string, RawValue>] *)
Definition Values : Type := list (string * RawValue).

Definition keys (o : Values) : list string := map fst o.

(** [o[k]]: the value of an own property, [None] when the key is absent. *)
Fixpoint obj_get (o : Values) (k : string) : option RawValue :=
  match o with
  | [] => None
  | (k', v) :: o' => if str_eqb k' k then Some v else obj_get o' k
  end.

(** [o[k] = v]: an existing key keeps its place, a new key goes last.  The
    code adds new keys in enumeration order, or the key [values], so the
    place JavaScript gives to keys that look like array indices is kept. *)
Fixpoint obj_set (o : Values) (k : string) (v : RawValue) : Values :=
  match o with
  | [] => [(k, v)]
  | (k', v') :: o' =>
      if str_eqb k' k then (k', v) :: o' else (k', v') :: obj_set o' k v
  end.

(** [k in o] *)
Definition obj_has (o : Values) (k : string) : bool :=
  match obj_get o k with Some _ => true | None => false end.

(** [o.k] as an expression: a missing property reads as [undefined]. *)
Definition obj_read (o : Values) (k : string) : RawValue :=
  match obj_get o k with Some v => v | None => VUndefined end.

(** [v === "..."] for a string literal *)
Definition is_str (v : RawValue) (lit : string) : bool :=
  match v with VStr s => str_eqb s lit | _ => false end.

(** The tag test shared by the type guards:
    [value != null && typeof value === 'object' && '@type' in value &&
     value["@type"] === tag].  An array has no ['@type'] property. *)
Definition has_type_tag (value : RawValue) (tag : string) : bool :=
  match value with
  | VObj fields => obj_has fields "@type" && is_str (obj_read fields "@type") tag
  | _ => false
  end.

Definition isRawImage (value : RawValue) : bool := has_type_tag value "ImageObject".
Definition isRawWebPage (value : RawValue) : bool := has_type_tag value "WebPage".
Definition isRawPerson (value : RawValue) : bool := has_type_tag value "Person".

Definition isRawRowReference (value : RawValue) : bool :=
  match value with
  | VObj fields =>
      obj_has fields "@type" && is_str (obj_read fields "@type") "StructuredValue"
      && obj_has fields "additionalType" && is_str (obj_read fields "additionalType") "row"
  | _ => false
  end.

(** [isExpandedRowReference] of types.ts *)
Definition isExpandedRowReference (value : RawValue) : bool :=
  isRawRowReference value &&
  match value with
  | VObj fields =>
      obj_has fields "values" &&
      match obj_read fields "values" with
      | VObj _ | VArr _ => true
      | _ => false
      end
  | _ => false
  end.

(** ** normalize-utils.ts *)

Definition triple_backtick : string := "```".

(** The wrapper pattern of [cleanString] is: start of input, three backticks,
    a greedy group of any characters (flag [s]: line breaks included), three
    backticks, end of input.  [match_wrapped_tail] is the pattern once the
    leading marker is consumed: the greedy group first takes the next
    character, and only when the rest cannot match does it stop here, which
    needs the remainder to be exactly the closing marker.  The result is the
    captured group. *)
Fixpoint match_wrapped_tail (s : string) : option string :=
  match s with
  | EmptyString => None
  | String c s' =>
      match match_wrapped_tail s' with
      | Some g => Some (String c g)
      | None => if str_eqb s triple_backtick then Some EmptyString else None
      end
  end.

(** [value.match(pattern)], giving the captured group [match[1]] *)
Definition match_wrapped (value : string) : option string :=
  match value with
  | String c1 (String c2 (String c3 rest)) =>
      if str_eqb (String c1 (String c2 (String c3 EmptyString))) triple_backtick
      then match_wrapped_tail rest
      else None
  | _ => None
  end.

Definition cleanString (value : string) : string :=
  match match_wrapped value with
  | Some inner => inner
  | None => value
  end.

(** [result[k] = v] for a [result] made with [{}].  The key [__proto__] is
    the accessor of [Object.prototype]: its setter adds no own property to
    [result]; when [v] is an object or null it makes [v] the prototype of
    [result], which the list of the own properties does not show. *)
Definition assign_fresh (result : list (string * RawValue)) (k : string) (v : RawValue)
    : list (string * RawValue) :=
  if str_eqb k "__proto__" then result else obj_set result k v.

Fixpoint cleanValue (value : RawValue) : RawValue :=
  match value with
  | VNull | VUndefined => VNull
  | VStr s => VStr (cleanString s)
  | VNum _ | VBool _ => value
  | VArr items => VArr (map cleanValue items)
  | VObj fields =>
      VObj (fold_left (fun (result : list (string * RawValue)) '(k, v) =>
                         assign_fresh result k (cleanValue v))
                      fields [])
  end.

Definition cleanValues (values : Values) : Values :=
  fold_left (fun (result : Values) '(k, v) => assign_fresh result k (cleanValue v))
            values [].

(** [getImageUrl] returns [value.url] or [null]; the result is a JavaScript
    value because nothing forces the [url] property to be a string. *)
Fixpoint getImageUrl (value : RawValue) : RawValue :=
  match value with
  | VNull | VUndefined => VNull
  | VStr "" => VNull
  | VArr (first :: _) => getImageUrl first
  | VObj fields => if isRawImage value then obj_read fields "url" else VNull
  | _ => VNull
  end.

Definition getLinkUrl (value : RawValue) : RawValue :=
  match value with
  | VObj fields => if isRawWebPage value then obj_read fields "url" else VNull
  | _ => VNull
  end.

(** ** The value normaliser (coda-loader.ts, [normalizeEmptyToObject]) *)

(** [value === null || value === undefined || value === ""] *)
Definition is_empty_cell (value : RawValue) : bool :=
  match value with
  | VNull | VUndefined => true
  | VStr s => str_eqb s ""
  | _ => false
  end.

Definition emptyable_object (type field content : string) : RawValue :=
  VObj [("@context", VStr "http://schema.org/"); ("@type", VStr type); (field, VStr content)].

(** The branch of the loop body taken for one entry: [Some v] when the branch
    assigns [result[key] = v], [None] when it assigns nothing.  [columnType] is
    [columnTypes[key]], [None] when the column is unknown. *)
Definition normalize_cell (columnType : option string) (value : RawValue) : option RawValue :=
  match columnType with
  | None => None
  | Some ty =>
      if str_eqb ty "link" then
        if is_empty_cell value then Some (emptyable_object "WebPage" "url" "")
        else match value with
             | VStr s => Some (emptyable_object "WebPage" "url" s)
             | _ => None
             end
      else if str_eqb ty "number" || str_eqb ty "slider" || str_eqb ty "currency" then
        match value with
        | VNum _ => None
        | VStr s => let num := Number s in
                    Some (VNum (if isNaN num then num_zero else num))
        | VNull | VUndefined => Some (VNum num_zero)
        | _ => Some (VNum num_zero)
        end
      else if str_eqb ty "boolean" || str_eqb ty "checkbox" then
        match value with
        | VBool _ => None
        | VStr s =>
            if str_eqb (toLowerCase s) "true" then Some (VBool true)
            else if str_eqb (toLowerCase s) "false" then Some (VBool false)
            else Some VNull
        | VNull | VUndefined => Some VNull
        | _ => Some VNull
        end
      else if str_eqb ty "person" then
        if is_empty_cell value then Some (emptyable_object "Person" "name" "")
        else match value with
             | VStr s => Some (emptyable_object "Person" "name" s)
             | _ => None
             end
      else if str_eqb ty "image" then
        match value with
        | VArr _ => None
        | _ =>
            if is_empty_cell value then Some (VArr [])
            else if has_type_tag value "ImageObject" then Some (VArr [value])
            else Some (VArr [])
        end
      else if str_eqb ty "lookup" then
        match value with
        | VArr _ => None
        | _ =>
            if is_empty_cell value then Some (VArr [])
            else if isRawRowReference value then Some (VArr [value])
            else Some (VArr [])
        end
      else None
  end.

Definition normalize_step (columnTypes : gmap string string)
    (result : Values) (entry : string * RawValue) : Values :=
  let (key, value) := entry in
  match normalize_cell (columnTypes !! key) value with
  | Some v => obj_set result key v
  | None => result
  end.

(** [result = { ...values }], then one assignment per entry of [values]. *)
Definition normalizeEmptyToObject (values : Values) (columnTypes : gmap string string) : Values :=
  fold_left (normalize_step columnTypes) values values.

(** ** Rows, the remote tables and the session state *)

Record CodaRow : Type := {
  row_id : string;
  row_type : string;
  row_href : string;
  row_name : option string;
  row_index : number;
  row_createdAt : string;
  row_updatedAt : string;
  row_browserLink : string;
  row_values : Values
}.

(** [{ ...row, values }] *)
Definition with_values (row : CodaRow) (values : Values) : CodaRow :=
  {| row_id := row_id row; row_type := row_type row; row_href := row_href row;
     row_name := row_name row; row_index := row_index row;
     row_createdAt := row_createdAt row; row_updatedAt := row_updatedAt row;
     row_browserLink := row_browserLink row; row_values := values |}.

(** [String(v)] as a template literal or a property key computes it. *)
Fixpoint toStr (v : RawValue) : string :=
  match v with
  | VUndefined => "undefined"
  | VNull => "null"
  | VBool b => if b then "true" else "false"
  | VNum n => num_toString n
  | VStr s => s
  | VArr items =>
      String.concat ","
        (map (fun x => match x with VNull | VUndefined => "" | _ => toStr x end) items)
  | VObj _ => "[object Object]"
  end.

(** The own properties of an object value; other values have none. *)
Definition fields_of (v : RawValue) : Values :=
  match v with VObj fields => fields | _ => [] end.

(** [v.k] *)
Definition prop (v : RawValue) (k : string) : RawValue := obj_read (fields_of v) k.

(** [`${reference.tableId}:${reference.rowId}`] *)
Definition refKey (reference : RawValue) : string :=
  toStr (prop reference "tableId") +:+ ":" +:+ toStr (prop reference "rowId").

(** [Map.prototype.get]: the keys of a table are strings, so only a string
    can be found. *)
Definition table_get (table : gmap string CodaRow) (key : RawValue) : option CodaRow :=
  match key with VStr k => table !! k | _ => None end.

(** What the API answers to the successive page requests of one table fetch:
    a failure, a page without [nextPageToken], or a page with one, followed
    by the answers to the requests that come after it. *)
Inductive Pages : Type :=
| PagesFail (f : FetchFailure)
| PagesLast (items : list CodaRow)
| PagesMore (items : list CodaRow) (nextPageToken : string) (rest : Pages).

Record ProcessingContext : Type := {
  processedRefs : gset string;
  cache : gmap string (option CodaRow);
  tableCache : gmap string (gmap string CodaRow);
  requestCount : nat
}.

Record State : Type := {
  context : ProcessingContext;
  requests : list Request;
  logs : list (LogLevel * string)
}.

(** ** Sequential code with exceptions *)

Definition M (A : Type) : Type := State → Result A * State.

Definition ret {A} (a : A) : M A := fun s => (Ok a, s).

Definition bind {A B} (m : M A) (k : A → M B) : M B :=
  fun s =>
    match m s with
    | (Ok a, s') => k a s'
    | (Throw e, s') => (Throw e, s')
    | (OutOfFuel, s') => (OutOfFuel, s')
    end.

Definition throw {A} (e : Error) : M A := fun s => (Throw e, s).

Definition out_of_fuel {A} : M A := fun s => (OutOfFuel, s).

(** [try { m } catch (error) { handler }] *)
Definition try_catch {A} (m : M A) (handler : Error → M A) : M A :=
  fun s =>
    match m s with
    | (Throw e, s') => handler e s'
    | other => other
    end.

Definition get_context : M ProcessingContext := fun s => (Ok (context s), s).

Definition set_context (c : ProcessingContext) : M unit :=
  fun s => (Ok tt, {| context := c; requests := requests s; logs := logs s |}).

Definition log (level : LogLevel) (message : string) : M unit :=
  fun s => (Ok tt, {| context := context s; requests := requests s;
                      logs := logs s ++ [(level, message)] |}).

Definition send (r : Request) : M unit :=
  fun s => (Ok tt, {| context := context s; requests := requests s ++ [r];
                      logs := logs s |}).

End Values.

Notation "x <- m ;; k" := (bind m (fun x => k))
  (at level 100, m at next level, right associativity, only parsing).
Notation "m ;;; k" := (bind m (fun _ => k))
  (at level 100, right associativity, only parsing).

(** ** Lookup expansion (coda-loader.ts) *)

Section Expansion.
Context `{JSNumber}.

(** The document, the API token and the remote API.  [server history first]
    is the answer of the API to a table fetch that starts with the request
    [first] after the requests [history]. *)
Variables (docId token : string).
Variable server : list Request → Request → Pages.

Definition truthy_string (s : string) : bool := negb (str_eqb s "").

Definition page_request (tableId : string) (pageToken : option string) : Request :=
  {| req_docId := docId; req_table := tableId; req_token := token;
     req_pageToken := pageToken |}.

(** [for (const row of data.items) rowsMap.set(row.id, row)] *)
Definition store_items (rowsMap : gmap string CodaRow) (items : list CodaRow)
    : gmap string CodaRow :=
  fold_left (fun m row => <[row_id row := row]> m) items rowsMap.

(** The error that leaves the [catch] block of [fetchTableData]. *)
Definition fetch_error (tableId : string) (f : FetchFailure) : Error :=
  match f with
  | NetworkFailure e => e
  | Aborted => mkError ("Request timed out while fetching table " +:+ tableId)
  | HttpFailure status statusText =>
      mkError ("Failed to fetch table data: " +:+ pretty status +:+ " " +:+ statusText)
  | JsonFailure e => e
  end.

Definition log_fetched (tableId : string) (items : list CodaRow)
    (rowsMap : gmap string CodaRow) : M unit :=
  log LDebug ("Fetched " +:+ pretty (length items) +:+ " rows from table " +:+ tableId
              +:+ " (total: " +:+ pretty (size rowsMap) +:+ ")").

Definition fetch_done (tableId : string) (rowsMap : gmap string CodaRow)
    : M (gmap string CodaRow) :=
  log LInfo ("Loaded table " +:+ tableId +:+ ": " +:+ pretty (size rowsMap) +:+ " rows") ;;;
  ret rowsMap.

(** The [do ... while (pageToken)] loop of [fetchTableData], one call per
    iteration; [pages] is what the API answers from this request on. *)
Fixpoint fetch_pages (tableId : string) (pages : Pages) (pageToken : option string)
    (pageCount : nat) (rowsMap : gmap string CodaRow) : M (gmap string CodaRow) :=
  let pageCount := S pageCount in
  log LDebug ("Fetching table " +:+ tableId +:+ " page " +:+ pretty pageCount +:+ "...") ;;;
  send (page_request tableId pageToken) ;;;
  match pages with
  | PagesFail f => throw (fetch_error tableId f)
  | PagesLast items =>
      let rowsMap := store_items rowsMap items in
      log_fetched tableId items rowsMap ;;;
      fetch_done tableId rowsMap
  | PagesMore items nextPageToken rest =>
      let rowsMap := store_items rowsMap items in
      log_fetched tableId items rowsMap ;;;
      if truthy_string nextPageToken
      then fetch_pages tableId rest (Some nextPageToken) pageCount rowsMap
      else fetch_done tableId rowsMap
  end.

Definition fetchTableData (tableId : string) : M (gmap string CodaRow) :=
  fun s =>
    fetch_pages tableId (server (requests s) (page_request tableId None)) None 0 ∅ s.

Definition update_context (f : ProcessingContext → ProcessingContext) : M unit :=
  c <- get_context ;; set_context (f c).

Definition mark_processed (key : string) (c : ProcessingContext) : ProcessingContext :=
  {| processedRefs := {[key]} ∪ processedRefs c; cache := cache c;
     tableCache := tableCache c; requestCount := requestCount c |}.

Definition cache_row (key : string) (row : option CodaRow) (c : ProcessingContext)
    : ProcessingContext :=
  {| processedRefs := processedRefs c; cache := <[key := row]> (cache c);
     tableCache := tableCache c; requestCount := requestCount c |}.

Definition cache_table (tableId : string) (table : gmap string CodaRow)
    (c : ProcessingContext) : ProcessingContext :=
  {| processedRefs := processedRefs c; cache := cache c;
     tableCache := <[tableId := table]> (tableCache c); requestCount := requestCount c |}.

Definition count_request (c : ProcessingContext) : ProcessingContext :=
  {| processedRefs := processedRefs c; cache := cache c;
     tableCache := tableCache c; requestCount := S (requestCount c) |}.

Definition clear_processed (c : ProcessingContext) : ProcessingContext :=
  {| processedRefs := ∅; cache := cache c;
     tableCache := tableCache c; requestCount := requestCount c |}.

(** [context.tableCache[tableId]]: the table cached under the id, or the
    member of [Object.prototype] that the id names, or [undefined]. *)
Inductive TableSlot : Type :=
| CachedTable (table : gmap string CodaRow)
| PrototypeMember
| NoTable.

Definition read_table (c : ProcessingContext) (tableId : string) : TableSlot :=
  match tableCache c !! tableId with
  | Some table => CachedTable table
  | None => if inherited tableId then PrototypeMember else NoTable
  end.

(** What the call [context.tableCache[reference.tableId].get(...)] throws
    when the slot holds a member of [Object.prototype], and when it holds
    nothing. *)
Definition get_is_not_a_function : Error :=
  TypeError "context.tableCache[reference.tableId].get is not a function".
Definition get_of_undefined : Error :=
  TypeError "Cannot read properties of undefined (reading 'get')".

(** Step 1 of [expandSingleReference]: the table-level cache.  A member of
    [Object.prototype] passes the test of the [if], and the call of its
    [get] throws, outside any [try]. *)
Definition lookup_table_cache (reference : RawValue) : M (option CodaRow) :=
  c <- get_context ;;
  match read_table c (toStr (prop reference "tableId")) with
  | CachedTable table =>
      match table_get table (prop reference "rowId") with
      | Some row =>
          log LDebug ("Found row " +:+ refKey reference +:+ " in table cache") ;;;
          ret (Some row)
      | None => ret None
      end
  | PrototypeMember => throw get_is_not_a_function
  | NoTable => ret None
  end.

(** Step 2: the row-level cache, consulted when step 1 found nothing. *)
Definition lookup_row_cache (reference : RawValue) (referencedRow : option CodaRow)
    : M (option CodaRow) :=
  c <- get_context ;;
  match referencedRow, cache c !! refKey reference with
  | None, Some cached => ret cached
  | _, _ => ret referencedRow
  end.

(** [context.requestCount++; context.tableCache[tableId] = await fetchTableData(...)]
    The code runs this when the slot of [tableId] is [undefined], so that
    [tableId] is not [__proto__] and the assignment adds an own property. *)
Definition fetch_table_into_cache (tableId : string) : M unit :=
  update_context count_request ;;;
  table <- fetchTableData tableId ;;
  update_context (cache_table tableId table).

(** The [try] block of step 3.  The table is fetched when the slot is
    [undefined]; the assignment then adds an own property, the id being no
    name of a member of [Object.prototype]. *)
Definition fetch_and_cache (reference : RawValue) : M (option CodaRow) :=
  let tableId := toStr (prop reference "tableId") in
  c <- get_context ;;
  match read_table c tableId with
  | NoTable => fetch_table_into_cache tableId
  | _ => ret tt
  end ;;;
  c <- get_context ;;
  referencedRow <-
    match read_table c tableId with
    | CachedTable table => ret (table_get table (prop reference "rowId"))
    | PrototypeMember => throw get_is_not_a_function
    | NoTable => throw get_of_undefined
    end ;;
  update_context (cache_row (refKey reference) referencedRow) ;;;
  ret referencedRow.

(** Step 3.  The result is [None] when the [catch] block returns [null] from
    [expandSingleReference], and [Some referencedRow] when control goes on. *)
Definition resolve_uncached (reference : RawValue) (referencedRow : option CodaRow)
    : M (option (option CodaRow)) :=
  c <- get_context ;;
  match referencedRow, cache c !! refKey reference with
  | None, None =>
      try_catch
        (row <- fetch_and_cache reference ;; ret (Some row))
        (fun error =>
           log LWarn ("Failed to fetch table " +:+ toStr (prop reference "tableId")
                      +:+ ": " +:+ err_message error) ;;;
           update_context (cache_row (refKey reference) None) ;;;
           ret None)
  | _, _ => ret (Some referencedRow)
  end.

(** [{ ...reference, values: { id, values } }] *)
Definition expanded_reference (reference : RawValue) (deeper : CodaRow) : RawValue :=
  VObj (obj_set (fields_of reference) "values"
          (VObj [("id", VStr (row_id deeper)); ("values", VObj (row_values deeper))])).

Section Bodies.
(** The recursive call to [expandRowLookups]. *)
Variable expandRow : CodaRow → Z → Z → M CodaRow.

Definition expandSingleReference_body (reference : RawValue)
    (currentDepth maxDepth : Z) : M (option RawValue) :=
  c <- get_context ;;
  if bool_decide (refKey reference ∈ processedRefs c) then ret None
  else
    referencedRow <- lookup_table_cache reference ;;
    referencedRow <- lookup_row_cache reference referencedRow ;;
    resolved <- resolve_uncached reference referencedRow ;;
    match resolved with
    | None => ret None
    | Some None =>
        log LDebug ("Row " +:+ refKey reference +:+ " not found") ;;;
        ret None
    | Some (Some referencedRow) =>
        update_context (mark_processed (refKey reference)) ;;;
        deeperExpandedRow <- expandRow referencedRow (currentDepth + 1)%Z maxDepth ;;
        log LDebug ("Expanded ref: " +:+ toStr (prop reference "rowId")
                    +:+ " at depth " +:+ pretty currentDepth) ;;;
        ret (Some (expanded_reference reference deeperExpandedRow))
    end.

(** The inner loop over the items of an array value. *)
Fixpoint expand_items (currentDepth maxDepth : Z) (items expandedItems : list RawValue)
    (hasExpanded : bool) : M (list RawValue * bool) :=
  match items with
  | [] => ret (expandedItems, hasExpanded)
  | item :: rest =>
      if negb (isRawRowReference item)
      then expand_items currentDepth maxDepth rest (expandedItems ++ [item]) hasExpanded
      else
        expandedRef <- expandSingleReference_body item currentDepth maxDepth ;;
        match expandedRef with
        | None =>
            expand_items currentDepth maxDepth rest (expandedItems ++ [item]) hasExpanded
        | Some expanded =>
            expand_items currentDepth maxDepth rest (expandedItems ++ [expanded]) true
        end
  end.

(** The loop over [Object.entries(row.values)]. *)
Fixpoint expand_entries (currentDepth maxDepth : Z) (entries : Values)
    (expandedValues : Values) : M Values :=
  match entries with
  | [] => ret expandedValues
  | (key, value) :: rest =>
      if isRawRowReference value then
        expandedRef <- expandSingleReference_body value currentDepth maxDepth ;;
        match expandedRef with
        | Some expanded =>
            expand_entries currentDepth maxDepth rest (obj_set expandedValues key expanded)
        | None => expand_entries currentDepth maxDepth rest expandedValues
        end
      else
        match value with
        | VArr items =>
            r <- expand_items currentDepth maxDepth items [] false ;;
            let (expandedItems, hasExpanded) := r : list RawValue * bool in
            if hasExpanded
            then expand_entries currentDepth maxDepth rest
                   (obj_set expandedValues key (VArr expandedItems))
            else expand_entries currentDepth maxDepth rest expandedValues
        | _ => expand_entries currentDepth maxDepth rest expandedValues
        end
  end.

Definition expandRowLookups_body (row : CodaRow) (currentDepth maxDepth : Z) : M CodaRow :=
  if (maxDepth <=? 0)%Z || (maxDepth <=? currentDepth)%Z then ret row
  else
    expandedValues <- expand_entries currentDepth maxDepth (row_values row) (row_values row) ;;
    ret (with_values row expandedValues).

End Bodies.

(** [expandRowLookups] and [expandSingleReference] call each other; [fuel]
    bounds the nesting of the calls to [expandRowLookups]. *)
Fixpoint expandRowLookups (fuel : nat) (row : CodaRow) (currentDepth maxDepth : Z)
    : M CodaRow :=
  match fuel with
  | O => out_of_fuel
  | S fuel' => expandRowLookups_body (expandRowLookups fuel') row currentDepth maxDepth
  end.

Definition expandSingleReference (fuel : nat) (reference : RawValue)
    (currentDepth maxDepth : Z) : M (option RawValue) :=
  expandSingleReference_body (expandRowLookups fuel) reference currentDepth maxDepth.

(** The nesting that a call at [currentDepth] can reach. *)
Definition depth_budget (currentDepth maxDepth : Z) : nat :=
  S (Z.to_nat (maxDepth - currentDepth)).

Definition fresh_context : ProcessingContext :=
  {| processedRefs := ∅; cache := ∅; tableCache := ∅; requestCount := 0 |}.

(** One iteration of the loop of [expandLookups] over the rows. *)
Definition expand_top_level_row (maxDepth : Z) (row : CodaRow) : M CodaRow :=
  update_context clear_processed ;;;
  try_catch
    (expandRowLookups (depth_budget 0 maxDepth) row 0 maxDepth)
    (fun error =>
       log LWarn ("Error expanding row " +:+ row_id row +:+ ": " +:+ err_message error) ;;;
       ret row).

Fixpoint expand_rows (maxDepth : Z) (rows expandedRows : list CodaRow) : M (list CodaRow) :=
  match rows with
  | [] => ret expandedRows
  | row :: rest =>
      expandedRow <- expand_top_level_row maxDepth row ;;
      expand_rows maxDepth rest (expandedRows ++ [expandedRow])
  end.

(** [expandLookups].  The progress and summary lines, which print elapsed
    wall-clock time, are not part of the model; they change neither the
    context nor the rows. *)
Definition expandLookups (rows : list CodaRow) (maxDepth : Z) : M (list CodaRow) :=
  if (maxDepth <=? 0)%Z then ret rows
  else
    log LInfo ("Expanding lookups to depth " +:+ pretty maxDepth +:+ " for "
               +:+ pretty (length rows) +:+ " rows...") ;;;
    set_context fresh_context ;;;
    expand_rows maxDepth rows [].

End Expansion.

(** ** Loader construction (coda-loader.ts, [codaLoader]) *)

Record ImportMetaEnv : Type := {
  CODA_API_TOKEN : option string;
  PUBLIC_CODA_API_TOKEN : option string;
  CODA_DOC_ID : option string;
  PUBLIC_CODA_DOC_ID : option string;
  CODA_TABLE_ID : option string;
  PUBLIC_CODA_TABLE_ID : option string
}.

Inductive Query : Type :=
| QueryString (q : string)
| QueryFilter (column : string) (values : list string).

Record CodaLoaderOptions : Type := {
  opt_token : option string;
  opt_docId : option string;
  opt_tableIdOrName : option string;
  opt_query : option Query;
  opt_sortBy : option string;
  opt_limit : option nat;
  opt_cleanStrings : option bool;
  opt_maxLookupDepth : option Z
}.

(** What the returned loader closes over; [load] and [schema] are the only
    members that reach the network. *)
Record Loader : Type := {
  loader_name : string;
  loader_token : string;
  loader_docId : string;
  loader_tableIdOrName : string;
  loader_query : option Query;
  loader_sortBy : option string;
  loader_limit : option nat;
  loader_cleanStrings : bool;
  loader_maxLookupDepth : Z
}.

(** [!x] for an optional string *)
Definition falsy (x : option string) : bool :=
  match x with
  | None => true
  | Some s => str_eqb s ""
  end.

(** [a || b] *)
Definition js_or (a b : option string) : option string :=
  if falsy a then b else a.

(** A destructured parameter with a default: the default is used when the
    property is [undefined]. *)
Definition with_default {A} (x : option A) (default : A) : A :=
  match x with Some v => v | None => default end.

Definition with_default_opt (x : option string) (default : option string) : option string :=
  match x with Some v => Some v | None => default end.

Definition AstroError (message : string) : Error :=
  {| err_name := "AstroError"; err_message := message |}.

Definition missing_token : string :=
  "Missing Coda API token. Set it in the CODA_API_TOKEN or PUBLIC_CODA_API_TOKEN environment variable or pass it as an option.".
Definition missing_docId : string :=
  "Missing Coda doc ID. Set it in the CODA_DOC_ID or PUBLIC_CODA_DOC_ID environment variable or pass it as an option.".
Definition missing_table : string :=
  "Missing Coda table ID or name. Set it in the CODA_TABLE_ID or PUBLIC_CODA_TABLE_ID environment variable or pass it as an option.".

Section Loader.
Context `{JSNumber}.

Definition codaLoader (options : CodaLoaderOptions) (env : ImportMetaEnv) : M Loader :=
  let token := with_default_opt (opt_token options)
                 (js_or (CODA_API_TOKEN env) (PUBLIC_CODA_API_TOKEN env)) in
  let docId := with_default_opt (opt_docId options)
                 (js_or (CODA_DOC_ID env) (PUBLIC_CODA_DOC_ID env)) in
  let tableIdOrName := with_default_opt (opt_tableIdOrName options)
                 (js_or (CODA_TABLE_ID env) (PUBLIC_CODA_TABLE_ID env)) in
  let cleanStrings := with_default (opt_cleanStrings options) true in
  let maxLookupDepth := with_default (opt_maxLookupDepth options) 0%Z in
  if falsy token then throw (AstroError missing_token)
  else if falsy docId then throw (AstroError missing_docId)
  else if falsy tableIdOrName then throw (AstroError missing_table)
  else ret {| loader_name := "coda-loader";
              loader_token := with_default token "";
              loader_docId := with_default docId "";
              loader_tableIdOrName := with_default tableIdOrName "";
              loader_query := opt_query options; loader_sortBy := opt_sortBy options;
              loader_limit := opt_limit options; loader_cleanStrings := cleanStrings;
              loader_maxLookupDepth := maxLookupDepth |}.

End Loader.

(** ** Definitions used to state the properties *)

Section Statements.
Context `{JSNumber}.

(** A computation that returns a value, whatever the state. *)
Definition returns {A} (m : M A) (Q : A → Prop) : Prop :=
  ∀ s, ∃ a s', m s = (Ok a, s') ∧ Q a.

(** A computation that returns or throws, but does not run out of fuel. *)
Definition finishes {A} (m : M A) : Prop :=
  ∀ s, (m s).1 ≠ OutOfFuel.

(** What a computation started in a state of [P] ends with: a value and a
    state of [Q], or an error and a state of [E].  Nothing is said of a run
    that is out of fuel. *)
Definition ensures {A} (P : State → Prop) (m : M A)
    (Q : A → State → Prop) (E : Error → State → Prop) : Prop :=
  ∀ s, P s →
       match m s with
       | (Ok a, s') => Q a s'
       | (Throw e, s') => E e s'
       | (OutOfFuel, _) => True
       end.

(** The table a fetch assembles from the answers of the API, or the failure
    that ends it. *)
Fixpoint pages_outcome (pages : Pages) (rowsMap : gmap string CodaRow)
    : FetchFailure + gmap string CodaRow :=
  match pages with
  | PagesFail f => inl f
  | PagesLast items => inr (store_items rowsMap items)
  | PagesMore items nextPageToken rest =>
      if truthy_string nextPageToken
      then pages_outcome rest (store_items rowsMap items)
      else inr (store_items rowsMap items)
  end.

(** The first request of a table fetch carries no page token. *)
Definition starts_fetch (r : Request) : bool :=
  match req_pageToken r with None => true | Some _ => false end.

(** The tables fetched by a sequence of requests, one entry per fetch. *)
Definition fetched_tables (rs : list Request) : list string :=
  map req_table (filter (fun r => starts_fetch r = true) rs).




(** The value one entry of the normaliser's input ends up with. *)
Definition normalized_value (columnTypes : gmap string string)
    (key : string) (value : RawValue) : RawValue :=
  default value (normalize_cell (columnTypes !! key) value).

Definition normalized_entry (columnTypes : gmap string string)
    (entry : string * RawValue) : string * RawValue :=
  (entry.1, normalized_value columnTypes entry.1 entry.2).

Definition cleaned_entry (entry : string * RawValue) : string * RawValue :=
  (entry.1, cleanValue entry.2).

(** The properties that an object rebuilt by assignments on a fresh object
    keeps: all but one named [__proto__]. *)
Fixpoint assignable (fields : Values) : Values :=
  match fields with
  | [] => []
  | (k, v) :: rest =>
      if str_eqb k "__proto__" then assignable rest else (k, v) :: assignable rest
  end.

End Statements.

Section ExpansionStatements.
Context `{JSNumber}.
Variables (docId token : string).
Variable server : list Request → Request → Pages.

(** The effects of expanding one top-level row: a log line, a mark in the
    processed set, an entry of the row-level cache, a table fetch. *)
Inductive expansion_step : State → State → Prop :=
| step_log s level message :
    expansion_step s (log level message s).2
| step_mark s key :
    expansion_step s (update_context (mark_processed key) s).2
| step_cache_row s key row :
    expansion_step s (update_context (cache_row key row) s).2
| step_fetch s tableId :
    tableCache (context s) !! tableId = None →
    expansion_step s (fetch_table_into_cache docId token server tableId s).2.

(** A computation whose effects are expansion steps. *)
Definition traces {A} (m : M A) : Prop :=
  ∀ s, rtc expansion_step s (m s).2.




End ExpansionStatements.

(** ** Example data *)

Module Examples.

(** A number carrier for the examples: the integers and NaN.  [Number] reads
    the empty string as 0 and an unsigned decimal numeral as its value. *)
Inductive IntOrNaN : Type := NaN | Int (z : Z).

Definition digit_of (c : ascii) : option Z :=
  let n := nat_of_ascii c in
  if (48 <=? n)%nat && (n <=? 57)%nat then Some (Z.of_nat (n - 48)) else None.

Fixpoint parse_digits (s : string) (acc : Z) : option Z :=
  match s with
  | EmptyString => Some acc
  | String c s' =>
      match digit_of c with
      | Some d => parse_digits s' (10 * acc + d)%Z
      | None => None
      end
  end.

Definition parse_number (s : string) : IntOrNaN :=
  match parse_digits s 0 with
  | Some z => Int z
  | None => NaN
  end.

#[global] Instance int_numbers : JSNumber := {|
  number := IntOrNaN;
  num_zero := Int 0;
  Number := parse_number;
  isNaN := fun n => match n with NaN => true | Int _ => false end;
  num_toString := fun n => match n with NaN => "NaN" | Int z => pretty z end
|}.

(** A row reference as the API returns it. *)
Definition reference (tableId rowId : string) : RawValue :=
  VObj [("@context", VStr "http://schema.org/"); ("@type", VStr "StructuredValue");
        ("additionalType", VStr "row"); ("name", VStr rowId); ("url", VStr "");
        ("tableId", VStr tableId); ("rowId", VStr rowId); ("tableUrl", VStr "")].

Definition image (url : string) : RawValue :=
  VObj [("@context", VStr "http://schema.org/"); ("@type", VStr "ImageObject");
        ("name", VStr "image.png"); ("url", VStr url)].

Definition row (id : string) (values : Values) : CodaRow :=
  {| row_id := id; row_type := "row"; row_href := ""; row_name := None;
     row_index := Int 0; row_createdAt := ""; row_updatedAt := "";
     row_browserLink := ""; row_values := values |}.

Definition start : State :=
  {| context := fresh_context; requests := []; logs := [] |}.

(** Cells of a boolean, a number and a link column. *)
Definition raw_cells : Values :=
  [("c-done", VStr "TRUE"); ("c-count", VStr "abc"); ("c-site", VNull)].

Definition cell_types : gmap string string :=
  list_to_map [("c-done", "boolean"); ("c-count", "number"); ("c-site", "link")].

(** A lookup table [T] with the rows [A], [B] that refer to each other, and
    a row [X] without references. *)
Definition row_A : CodaRow := row "A" [("c-ref", reference "T" "B")].
Definition row_B : CodaRow := row "B" [("c-ref", reference "T" "A")].
Definition row_X : CodaRow := row "X" [("c-name", VStr "x")].

(** An API that answers every table fetch with these three rows in one page. *)
Definition one_page_server (history : list Request) (first : Request) : Pages :=
  PagesLast [row_A; row_B; row_X].


(** Two top-level rows that refer to two rows of the lookup table. *)
Definition top_1 : CodaRow := row "r1" [("c-ref", reference "T" "A")].

(** Two top-level rows that both refer to [X], and a row that refers to [X]
    from two of its columns. *)
Definition to_X_1 : CodaRow := row "r3" [("c-ref", reference "T" "X")].
Definition to_X_2 : CodaRow := row "r4" [("c-ref", reference "T" "X")].

(** A state in which [X] of table [T] is in the processed set. *)
Definition X_processed : State :=
  {| context := mark_processed "T:X" fresh_context; requests := []; logs := [] |}.

(** A loader configuration without a document id, and an empty environment. *)
Definition no_docId : CodaLoaderOptions :=
  {| opt_token := Some "secret"; opt_docId := None; opt_tableIdOrName := Some "grid-1";
     opt_query := None; opt_sortBy := None; opt_limit := None;
     opt_cleanStrings := None; opt_maxLookupDepth := None |}.

Definition empty_env : ImportMetaEnv :=
  {| CODA_API_TOKEN := None; PUBLIC_CODA_API_TOKEN := None; CODA_DOC_ID := None;
     PUBLIC_CODA_DOC_ID := None; CODA_TABLE_ID := None; PUBLIC_CODA_TABLE_ID := None |}.

(** The rows a run returned, and the cell [key] of the [i]-th of them. *)
Definition returned_rows (run : Result (list CodaRow) * State) : list CodaRow :=
  match run.1 with Ok rows => rows | _ => [] end.

Definition cell (rows : list CodaRow) (i : nat) (key : string) : option RawValue :=
  match rows !! i with
  | Some r => obj_get (row_values r) key
  | None => None
  end.

End Examples.

(** ** The other accessors of normalize-utils.ts and the guard of types.ts *)

Section Accessors.
Context `{JSNumber}.

Definition getPersonName (value : RawValue) : RawValue :=
  match value with
  | VObj fields => if isRawPerson value then obj_read fields "name" else VNull
  | _ => VNull
  end.

Definition getReferenceName (value : RawValue) : RawValue :=
  match value with
  | VObj fields => if isRawRowReference value then obj_read fields "name" else VNull
  | _ => VNull
  end.

(** [isRowReference] of types.ts *)
Definition isRowReference (value : RawValue) : bool :=
  match value with
  | VObj fields =>
      obj_has fields "@type" && is_str (obj_read fields "@type") "StructuredValue"
      && obj_has fields "additionalType" && is_str (obj_read fields "additionalType") "row"
  | _ => false
  end.

(** The column types that [normalizeEmptyToObject] has a branch for. *)
Definition recognised (columnType : option string) : bool :=
  match columnType with
  | None => false
  | Some ty =>
      str_eqb ty "link" || str_eqb ty "number" || str_eqb ty "slider"
      || str_eqb ty "currency" || str_eqb ty "boolean" || str_eqb ty "checkbox"
      || str_eqb ty "person" || str_eqb ty "image" || str_eqb ty "lookup"
  end.

(** [undefined] occurs in a value, at any depth. *)
Fixpoint contains_undefined (v : RawValue) : bool :=
  match v with
  | VUndefined => true
  | VArr items => existsb contains_undefined items
  | VObj fields => existsb (fun entry : string * RawValue => contains_undefined entry.2) fields
  | _ => false
  end.

(** What [typeof] and [Array.isArray] tell apart. *)
Inductive Kind : Type :=
| KUndefined | KNull | KBoolean | KNumber | KString | KArray (length : nat) | KObject.

Definition kind_of (v : RawValue) : Kind :=
  match v with
  | VUndefined => KUndefined
  | VNull => KNull
  | VBool _ => KBoolean
  | VNum _ => KNumber
  | VStr _ => KString
  | VArr items => KArray (length items)
  | VObj _ => KObject
  end.

(** [typeof v === 'string'] *)
Definition is_string (v : RawValue) : bool :=
  match v with VStr _ => true | _ => false end.

End Accessors.

(** [s.includes(c)] for a one-character string [c] *)
Fixpoint includes (c : ascii) (s : string) : bool :=
  match s with
  | EmptyString => false
  | String c' s' => Ascii.eqb c' c || includes c s'
  end.

(** ** Definitions used to state the properties of a session *)

Section SessionStatements.
Context `{JSNumber}.
Variables (docId token : string).
Variable server : list Request → Request → Pages.

(** The row that [reference] names in the table-level cache. *)
Definition referenced_row (c : ProcessingContext) (reference : RawValue) (row : CodaRow)
    : Prop :=
  ∃ table, tableCache c !! toStr (prop reference "tableId") = Some table ∧
           table_get table (prop reference "rowId") = Some row.

(** The effects of one [expandLookups] call after its context is created,
    each with the condition under which the code performs it: an entry of
    the row-level cache is written only under a key that has none, with null
    or with the row that the reference names in the table-level cache; a
    table is fetched only when it is not cached. *)
Inductive session_step : State → State → Prop :=
| session_log s level message :
    session_step s (log level message s).2
| session_mark s key :
    session_step s (update_context (mark_processed key) s).2
| session_clear s :
    session_step s (update_context clear_processed s).2
| session_cache_row s reference row :
    cache (context s) !! refKey reference = None →
    (∀ r, row = Some r → referenced_row (context s) reference r) →
    session_step s (update_context (cache_row (refKey reference) row) s).2
| session_fetch s tableId :
    tableCache (context s) !! tableId = None →
    session_step s (fetch_table_into_cache docId token server tableId s).2.

Definition session_traces {A} (m : M A) : Prop :=
  ∀ s, rtc session_step s (m s).2.

(** Nothing that [s] holds is lost or replaced in [s']. *)
Definition session_extends (s s' : State) : Prop :=
  (∀ tableId table, tableCache (context s) !! tableId = Some table →
                    tableCache (context s') !! tableId = Some table) ∧
  (∀ key entry, cache (context s) !! key = Some entry →
                cache (context s') !! key = Some entry) ∧
  (requestCount (context s) ≤ requestCount (context s'))%nat ∧
  requests s `prefix_of` requests s' ∧
  logs s `prefix_of` logs s'.

(** Every cached table files each row under the id of the row. *)
Definition tables_keyed_by_id (c : ProcessingContext) : Prop :=
  ∀ tableId table k row,
    tableCache c !! tableId = Some table → table !! k = Some row → row_id row = k.

(** Every row of the row-level cache is the row that a reference with the
    key of the entry names in the table-level cache. *)
Definition cached_rows_in_tables (c : ProcessingContext) : Prop :=
  ∀ key row,
    cache c !! key = Some (Some row) →
    ∃ reference, refKey reference = key ∧ referenced_row c reference row.

(** Every cached table is what a fetch of the table, made after the request
    log had [base] entries and answered in full, assembled. *)
Definition cached_tables_fetched (base : nat) (s : State) : Prop :=
  ∀ tableId table,
    tableCache (context s) !! tableId = Some table →
    ∃ history more,
      requests s = history ++ page_request docId token tableId None :: more ∧
      (base ≤ length history)%nat ∧
      pages_outcome (server history (page_request docId token tableId None)) ∅
      = inr table.

(** The caches agree with each other and with the requests made since the
    request log had [base] entries. *)
Definition session_coherent (base : nat) (s : State) : Prop :=
  (base ≤ length (requests s))%nat ∧
  cached_rows_in_tables (context s) ∧
  cached_tables_fetched base s.

(** [result] is [original], or [original] expanded. *)
Definition expansion_of (original result : RawValue) : Prop :=
  result = original ∨
  (isRawRowReference original = true ∧
   ∃ deeper, result = expanded_reference original deeper).

(** The same for a cell, which may hold a list of references. *)
Definition cell_expansion_of (original result : RawValue) : Prop :=
  expansion_of original result ∨
  ∃ items items', original = VArr items ∧ result = VArr items' ∧
                  Forall2 expansion_of items items'.

Definition entry_expansion_of (original result : string * RawValue) : Prop :=
  result.1 = original.1 ∧ cell_expansion_of original.2 result.2.

(** [result] is [original] with some of its references expanded. *)
Definition row_expansion_of (original result : CodaRow) : Prop :=
  result = with_values original (row_values result) ∧
  Forall2 entry_expansion_of (row_values original) (row_values result).

(** The state in which the row that a reference names is expanded, when
    step 1 finds the row: the line of step 1 is logged and the key is in the
    processed set. *)
Definition found_and_marked (reference : RawValue) (s : State) : State :=
  (update_context (mark_processed (refKey reference))
     (log LDebug ("Found row " +:+ refKey reference +:+ " in table cache") s).2).2.

(** What a computation returns, when it returns. *)
Definition yields {A} (m : M A) (Q : A → Prop) : Prop :=
  ∀ s a s', m s = (Ok a, s') → Q a.

(** The rows of the pages that a fetch reads, in the order read. *)
Fixpoint pages_read (pages : Pages) : list CodaRow :=
  match pages with
  | PagesFail _ => []
  | PagesLast items => items
  | PagesMore items nextPageToken rest =>
      items ++ (if truthy_string nextPageToken then pages_read rest else [])
  end.


(** The failure that ends a fetch, if one of the pages it asks for fails. *)
Fixpoint pages_failure (pages : Pages) : option FetchFailure :=
  match pages with
  | PagesFail f => Some f
  | PagesLast _ => None
  | PagesMore _ nextPageToken rest =>
      if truthy_string nextPageToken then pages_failure rest else None
  end.

(** A reference is plain when its table id names no member of
    [Object.prototype]; a value that is no reference is plain. *)
Definition plain_reference (value : RawValue) : bool :=
  negb (isRawRowReference value && inherited (toStr (prop value "tableId"))).

(** A cell whose references, alone or as items of a list, are plain. *)
Definition plain_cell (value : RawValue) : bool :=
  match value with
  | VArr items => forallb plain_reference items
  | _ => plain_reference value
  end.

Definition plain_row (row : CodaRow) : bool :=
  forallb (fun entry : string * RawValue => plain_cell entry.2) (row_values row).

(** Every row that the caches hold is plain. *)
Definition plain_session (s : State) : Prop :=
  (∀ tableId table k row,
     tableCache (context s) !! tableId = Some table → table !! k = Some row →
     plain_row row = true) ∧
  (∀ key row, cache (context s) !! key = Some (Some row) → plain_row row = true).

(** Every row that the API answers with is plain. *)
Definition plain_server : Prop :=
  ∀ history request, forallb plain_row (pages_read (server history request)) = true.

(** Two cells related by [R], or two lists related by [R] item for item. *)
Definition cell_related (R : RawValue → RawValue → Prop) (original result : RawValue)
    : Prop :=
  R original result ∨
  ∃ items items', original = VArr items ∧ result = VArr items' ∧ Forall2 R items items'.

(** The same keys in the same order, with cells so related. *)
Definition entries_related (R : RawValue → RawValue → Prop) (original result : Values)
    : Prop :=
  Forall2 (fun o r : string * RawValue => r.1 = o.1 ∧ cell_related R o.2 r.2)
          original result.

(** [result] is [original], or [original] expanded along chains of
    references none of which has a key of [processed] or the key of a
    reference expanded above it: [above] holds [processed], the key of the
    reference is not in it, and the cells of the row embedded are so
    expanded from [above] with that key added. *)
Inductive chain_expansion : gset string → RawValue → RawValue → Prop :=
| chain_kept processed value :
    chain_expansion processed value value
| chain_expanded processed above reference (target deeper : CodaRow) :
    isRawRowReference reference = true →
    processed ⊆ above →
    refKey reference ∉ above →
    deeper = with_values target (row_values deeper) →
    (NoDup (keys (row_values target)) →
     entries_related (chain_expansion ({[refKey reference]} ∪ above))
       (row_values target) (row_values deeper)) →
    chain_expansion processed reference (expanded_reference reference deeper).

(** [result] is the row [original] with its cells so expanded. *)
Definition row_chain_expansion (processed : gset string) (original result : CodaRow)
    : Prop :=
  result = with_values original (row_values result) ∧
  (NoDup (keys (row_values original)) →
   entries_related (chain_expansion processed) (row_values original) (row_values result)).

(** A cell that is a reference or a list with a reference among its items. *)
Definition holds_reference (value : RawValue) : bool :=
  isRawRowReference value ||
  match value with
  | VArr items => existsb isRawRowReference items
  | _ => false
  end.

(** The row that [reference] names can be had in [s]: it is in the
    table-level cache; or the table is not cached, the row-level cache has
    no entry under the key of the reference, and the API answers the fetch of
    the table in full, with the row in it. *)
Definition resolvable (s : State) (reference : RawValue) (target : CodaRow) : Prop :=
  referenced_row (context s) reference target ∨
  (read_table (context s) (toStr (prop reference "tableId")) = NoTable ∧
   cache (context s) !! refKey reference = None ∧
   ∃ table,
     pages_outcome
       (server (requests s) (page_request docId token (toStr (prop reference "tableId")) None))
       ∅ = inr table ∧
     table_get table (prop reference "rowId") = Some target).

End SessionStatements.

(** ** The [load] function of the loader (coda-loader.ts) *)

(** The one-character string that holds a double quote. *)
Definition double_quote : string := String (ascii_of_nat 34) EmptyString.

(** The members of a column that the loader reads. *)
Record CodaColumn : Type := {
  column_id : string;
  column_name : string;
  column_format_type : string
}.

(** What the API answers to the request of [fetchColumnData]: [fetch] or
    [response.json()] rejects, the response is not ok, or the columns. *)
Inductive ColumnsAnswer : Type :=
| ColumnsRejected (e : Error)
| ColumnsNotOk (status : nat) (statusText : string)
| ColumnsItems (items : list CodaColumn).

(** The parameters of a rows request besides [valueFormat=rich], which is
    always sent. *)
Record RowsRequest : Type := {
  rows_query : option string;
  rows_sortBy : option string;
  rows_limit : option string
}.

(** What the API answers to a rows request.  When the response is not ok the
    body is read as JSON, which fails or gives [errorData], here as
    [JSON.stringify] prints it. *)
Inductive RowsAnswer `{JSNumber} : Type :=
| RowsRejected (e : Error)
| RowsNotOk (status : nat) (statusText : string) (errorData : Error + string)
| RowsItems (items : list CodaRow).

(** The requests of [load] itself; those of the lookup expansion are the
    [requests] of the session. *)
Inductive LoaderCall : Type :=
| ColumnsCall
| RowsCall (request : RowsRequest).

Section Load.
Context `{JSNumber}.

(** What [parseData] returns. *)
Variable Parsed : Type.

(** The state that [load] works on: the session of the lookup expansion with
    the log, the requests of [load], the data store, the two variables that
    the loader closes over and the module-level [columnsCache]. *)
Record LoaderState : Type := {
  session : State;
  calls : list LoaderCall;
  store : gmap string Parsed;
  columnTypesCache : gmap string string;
  columnsDataCache : option (list CodaColumn);
  columnsCache : gmap string CodaColumn
}.

Definition L (A : Type) : Type := LoaderState → Result A * LoaderState.

Definition lret {A} (a : A) : L A := fun st => (Ok a, st).

Definition lbind {A B} (m : L A) (k : A → L B) : L B :=
  fun st =>
    match m st with
    | (Ok a, st') => k a st'
    | (Throw e, st') => (Throw e, st')
    | (OutOfFuel, st') => (OutOfFuel, st')
    end.

Definition lthrow {A} (e : Error) : L A := fun st => (Throw e, st).

(** [try { m } catch (error) { handler }] *)
Definition ltry_catch {A} (m : L A) (handler : Error → L A) : L A :=
  fun st =>
    match m st with
    | (Throw e, st') => handler e st'
    | other => other
    end.

Definition get_state : L LoaderState := fun st => (Ok st, st).

(** A computation of the lookup expansion, run on the session. *)
Definition lift {A} (m : M A) : L A :=
  fun st =>
    let (r, s') := m (session st) in
    (r, {| session := s'; calls := calls st; store := store st;
           columnTypesCache := columnTypesCache st;
           columnsDataCache := columnsDataCache st; columnsCache := columnsCache st |}).

Definition call (c : LoaderCall) : L unit :=
  fun st =>
    (Ok tt, {| session := session st; calls := calls st ++ [c]; store := store st;
               columnTypesCache := columnTypesCache st;
               columnsDataCache := columnsDataCache st;
               columnsCache := columnsCache st |}).

(** [store.set({ id, data })] *)
Definition store_set (id : string) (data : Parsed) : L unit :=
  fun st =>
    (Ok tt, {| session := session st; calls := calls st;
               store := <[id := data]> (store st);
               columnTypesCache := columnTypesCache st;
               columnsDataCache := columnsDataCache st;
               columnsCache := columnsCache st |}).

(** [columnsDataCache = columnsData] *)
Definition set_columnsDataCache (columnsData : list CodaColumn) : L unit :=
  fun st =>
    (Ok tt, {| session := session st; calls := calls st; store := store st;
               columnTypesCache := columnTypesCache st;
               columnsDataCache := Some columnsData;
               columnsCache := columnsCache st |}).

(** [columnTypesCache[column.id] = column.format.type;
     columnsCache[column.id] = column;]
    Both caches are plain objects.  For the id [__proto__] the two
    assignments add no property: the first is given a string, which the
    setter of [Object.prototype] ignores, and the second makes the column
    the prototype of [columnsCache], which nothing reads. *)
Definition cache_column (column : CodaColumn) : L unit :=
  fun st =>
    if str_eqb (column_id column) "__proto__" then (Ok tt, st)
    else
      (Ok tt, {| session := session st; calls := calls st; store := store st;
                 columnTypesCache :=
                   <[column_id column := column_format_type column]> (columnTypesCache st);
                 columnsDataCache := columnsDataCache st;
                 columnsCache := <[column_id column := column]> (columnsCache st) |}).

End Load.

Arguments session {_ _} _.
Arguments calls {_ _} _.
Arguments store {_ _} _.
Arguments columnTypesCache {_ _} _.
Arguments columnsDataCache {_ _} _.
Arguments columnsCache {_ _} _.
Arguments lret {_ _ _} _ _.
Arguments lbind {_ _ _ _} _ _ _.
Arguments lthrow {_ _ _} _ _.
Arguments ltry_catch {_ _ _} _ _ _.
Arguments get_state {_ _} _.
Arguments lift {_ _ _} _ _.
Arguments call {_ _} _ _.
Arguments store_set {_ _} _ _ _.
Arguments set_columnsDataCache {_ _} _ _.
Arguments cache_column {_ _} _ _.

Notation "x <~ m ;; k" := (lbind m (fun x => k))
  (at level 100, m at next level, right associativity, only parsing).
Notation "m ;;~ k" := (lbind m (fun _ => k))
  (at level 100, right associativity, only parsing).

Section Loading.
Context `{JSNumber}.
Variable Parsed : Type.

(** The remote API: the tables of the lookup expansion, the columns and the
    rows of the loaded table, each answer depending on the requests made
    before. *)
Variable server : list Request → Request → Pages.
Variable columns_api : list LoaderCall → ColumnsAnswer.
Variable rows_api : list LoaderCall → RowsRequest → RowsAnswer.

(** [parseData({ id, data })] of the loader context: the parsed data, or the
    error it throws. *)
Variable parseData : string → CodaRow → Error + Parsed.

(** [JSON.stringify] of a filter value. *)
Variable stringify : string → string.

(** The loader whose [load] runs. *)
Variable loader : Loader.

Local Abbreviation L := (L Parsed).

Definition llog (level : LogLevel) (message : string) : L unit :=
  lift (log level message).

(** [error instanceof AstroError] *)
Definition is_AstroError (e : Error) : bool := str_eqb (err_name e) "AstroError".

Definition fetchColumnData : L (list CodaColumn) :=
  st <~ get_state ;;
  call ColumnsCall ;;~
  match columns_api (calls st) with
  | ColumnsRejected e => lthrow e
  | ColumnsNotOk status statusText =>
      lthrow (AstroError ("Failed to fetch table columns from Coda: "
                          +:+ pretty status +:+ " " +:+ statusText))
  | ColumnsItems items => lret items
  end.

(** [for (const column of columnsData.items) ...] *)
Fixpoint cache_columns (items : list CodaColumn) : L unit :=
  match items with
  | [] => lret tt
  | column :: rest => cache_column column ;;~ cache_columns rest
  end.

(** The first part of [load]: the column types, unless some are cached. *)
Definition load_columns : L unit :=
  st <~ get_state ;;
  if bool_decide (columnTypesCache st = ∅) then
    ltry_catch
      (columnsData <~ fetchColumnData ;;
       set_columnsDataCache columnsData ;;~
       cache_columns columnsData)
      (fun error => llog LWarn ("Could not fetch column data: " +:+ err_message error))
  else lret tt.

(** The parameters that [fetchAndProcessRows] appends to the URL. *)
Definition rows_request (queryString : option string) : RowsRequest :=
  {| rows_query := if falsy queryString then None else queryString;
     rows_sortBy := if falsy (loader_sortBy loader) then None else loader_sortBy loader;
     rows_limit := match loader_limit loader with
                   | Some (S n) => Some (pretty (S n))
                   | _ => None
                   end |}.

Definition fetchAndProcessRows (queryString : option string) : L (list CodaRow) :=
  st <~ get_state ;;
  call (RowsCall (rows_request queryString)) ;;~
  match rows_api (calls st) (rows_request queryString) with
  | RowsRejected e => lthrow e
  | RowsNotOk status statusText (inl e) => lthrow e
  | RowsNotOk status statusText (inr errorData) =>
      lthrow (AstroError ("Failed to fetch data from Coda: " +:+ pretty status +:+ " "
                          +:+ statusText +:+ ". " +:+ errorData))
  | RowsItems items =>
      if (0 <? loader_maxLookupDepth loader)%Z then
        ltry_catch
          (lift (expandLookups (loader_docId loader) (loader_token loader) server
                   items (loader_maxLookupDepth loader)))
          (fun _ =>
             llog LWarn "Error during lookup expansion, continuing with unexpanded data" ;;~
             lret items)
      else lret items
  end.

(** The list of query strings that [load] works through. *)
Definition queries_of (query : option Query) : list (option string) :=
  match query with
  | None => [None]
  | Some (QueryString q) => if str_eqb q "" then [None] else [Some q]
  | Some (QueryFilter column values) =>
      let columnPart :=
        if includes " " column then double_quote +:+ column +:+ double_quote
        else column in
      map (fun value => Some (columnPart +:+ ":" +:+ stringify value)) values
  end.

(** The values that are handed to [parseData] for a row. *)
Definition prepared_values (columnTypes : gmap string string) (values : Values) : Values :=
  let normalizedValues := normalizeEmptyToObject values columnTypes in
  if loader_cleanStrings loader then cleanValues normalizedValues else normalizedValues.

(** The body of the loop over the rows of one query. *)
Definition process_row (row : CodaRow) : L unit :=
  st <~ get_state ;;
  let rowData := with_values row (prepared_values (columnTypesCache st) (row_values row)) in
  match parseData (row_id row) rowData with
  | inl e => lthrow e
  | inr parsedData => store_set (row_id row) parsedData
  end.

Fixpoint process_rows (rows : list CodaRow) (totalRowsProcessed : nat) : L nat :=
  match rows with
  | [] => lret totalRowsProcessed
  | row :: rest => process_row row ;;~ process_rows rest (S totalRowsProcessed)
  end.

(** The loop over the queries. *)
Fixpoint process_queries (queries : list (option string)) (totalRowsProcessed : nat)
    : L nat :=
  match queries with
  | [] => lret totalRowsProcessed
  | q :: rest =>
      processedRows <~ fetchAndProcessRows q ;;
      totalRowsProcessed <~ process_rows processedRows totalRowsProcessed ;;
      process_queries rest totalRowsProcessed
  end.

Definition load : L unit :=
  llog LInfo ("Loading data from Coda table " +:+ double_quote
              +:+ loader_tableIdOrName loader +:+ double_quote) ;;~
  load_columns ;;~
  ltry_catch
    (let queries := queries_of (loader_query loader) in
     totalRowsProcessed <~ process_queries queries 0 ;;
     llog LInfo ("Loaded " +:+ pretty totalRowsProcessed +:+ " records from "
                 +:+ double_quote +:+ loader_tableIdOrName loader +:+ double_quote
                 +:+ " (" +:+ pretty (length queries) +:+ " "
                 +:+ (if bool_decide (length queries = 1) then "query" else "queries")
                 +:+ ")"))
    (fun error =>
       if is_AstroError error then lthrow error
       else lthrow (AstroError ("Error loading data from Coda: " +:+ err_message error))).

End Loading.

(** ** Definitions used to state the properties of [load] *)

Section LoadStatements.
Context `{JSNumber}.
Variable Parsed : Type.
Variable parseData : string → CodaRow → Error + Parsed.
Variable stringify : string → string.
Variable loader : Loader.

(** The variables that hold the column metadata are the same in both states. *)
Definition same_columns (st st' : LoaderState Parsed) : Prop :=
  columnTypesCache st' = columnTypesCache st ∧
  columnsDataCache st' = columnsDataCache st ∧
  columnsCache st' = columnsCache st.

(** Every entry of the store that is not an entry of [before] is what
    [parseData] made, under the id of a row, of that row with its values
    normalised against [columnTypes] and then, if the loader cleans strings,
    cleaned. *)
Definition stored_prepared (columnTypes : gmap string string)
    (before after : gmap string Parsed) : Prop :=
  ∀ id data,
    after !! id = Some data →
    before !! id = Some data ∨
    ∃ row, row_id row = id ∧
           parseData id (with_values row
                           (prepared_values loader columnTypes (row_values row)))
           = inr data.

(** The rows requests of the queries of the loader, one per query. *)
Definition query_calls : list LoaderCall :=
  map (fun q => RowsCall (rows_request loader q))
      (queries_of stringify (loader_query loader)).

End LoadStatements.

(** ** Column helpers (column-helpers.ts, [makeSafePropertyName])

    The regular expressions of [makeSafePropertyName] have no [u] flag and
    name surrogates, so a string is here the list of its UTF-16 code units. *)

Module ColumnHelpers.

Definition in_range (lo hi c : N) : bool := ((lo <=? c) && (c <=? hi))%N.

Definition is_digit (c : N) : bool := in_range 48 57 c.
Definition is_upper (c : N) : bool := in_range 65 90 c.
Definition is_lower (c : N) : bool := in_range 97 122 c.

(** The class [\w]: a letter of A to Z in either case, a digit, or [_]. *)
Definition is_word (c : N) : bool :=
  is_upper c || is_lower c || is_digit c || (c =? 95)%N.

(** The class [\s], which is also what [trim] removes: the white space and
    the line terminators of ECMAScript. *)
Definition is_space (c : N) : bool :=
  in_range 9 13 c || (c =? 32)%N || (c =? 160)%N || (c =? 5760)%N
  || in_range 8192 8202 c || (c =? 8232)%N || (c =? 8233)%N || (c =? 8239)%N
  || (c =? 8287)%N || (c =? 12288)%N || (c =? 65279)%N.

Definition is_dot (c : N) : bool := (c =? 46)%N.

Definition is_high_surrogate (c : N) : bool := in_range 55296 56319 c.
Definition is_low_surrogate (c : N) : bool := in_range 56320 57343 c.

(** [toLowerCase] and [toUpperCase] of a one-unit string matched by [\w]. *)
Definition lower_unit (c : N) : N := if is_upper c then (c + 32)%N else c.
Definition upper_unit (c : N) : N := if is_lower c then (c - 32)%N else c.

(** What the class [[^\w\s.]] leaves in place. *)
Definition kept (c : N) : bool := is_word c || is_space c || is_dot c.

(** [.replace(/[\uD800-\uDBFF][\uDC00-\uDFFF]|[^\w\s.]/g, '')]: at each
    position the first alternative is tried before the second. *)
Fixpoint remove_special (s : list N) : list N :=
  match s with
  | [] => []
  | c :: rest =>
      let one_unit := if kept c then c :: remove_special rest else remove_special rest in
      match rest with
      | d :: rest' =>
          if is_high_surrogate c && is_low_surrogate d then remove_special rest'
          else one_unit
      | [] => one_unit
      end
  end.

Fixpoint trimStart (s : list N) : list N :=
  match s with
  | [] => []
  | c :: rest => if is_space c then trimStart rest else s
  end.

Definition trim (s : list N) : list N := rev (trimStart (rev (trimStart s))).

(** The replacement of the unit [c] that follows [prev] ([None] at index 0)
    by [.replace(/(?:^\w|[A-Z]|\b\w)/g, (word, index) =>
         index === 0 ? word.toLowerCase() : word.toUpperCase())]. *)
Definition camel_unit (prev : option N) (c : N) : N :=
  match prev with
  | None => if is_word c then lower_unit c else c
  | Some p => if is_upper c || (is_word c && negb (is_word p)) then upper_unit c else c
  end.

Fixpoint camelCase (prev : option N) (s : list N) : list N :=
  match s with
  | [] => []
  | c :: rest => camel_unit prev c :: camelCase (Some c) rest
  end.

(** [.replace(/^(?:[0-9]|$)/, '_$&')] *)
Definition prefix_unsafe (s : list N) : list N :=
  match s with
  | [] => [95%N]
  | c :: _ => if is_digit c then 95%N :: s else s
  end.

Definition makeSafePropertyName (str : list N) : list N :=
  let cleanStr := trim (remove_special str) in
  prefix_unsafe
    (filter (fun c => is_dot c = false)
       (filter (fun c => is_space c = false) (camelCase None cleanStr))).

End ColumnHelpers.

(** ** The command line of the generator (cli.ts, [getArgValue] in [main]) *)

Module Cli.

(** [a.startsWith(p)] *)
Fixpoint startsWith (a p : string) {struct p} : bool :=
  match p, a with
  | EmptyString, _ => true
  | String c p', String d a' => Ascii.eqb d c && startsWith a' p'
  | String _ _, EmptyString => false
  end.

(** [a.substring(n)] *)
Fixpoint substring (n : nat) (a : string) : string :=
  match n, a with
  | O, _ => a
  | S n', String _ a' => substring n' a'
  | S _, EmptyString => EmptyString
  end.

(** [args.find(a => a.startsWith(`--${prefix}=`))], then
    [arg ? arg.substring(prefix.length + 3) : undefined] *)
Definition getArgValue (args : list string) (prefix : string) : option string :=
  match List.find (fun a => startsWith a ("--" +:+ prefix +:+ "=")) args with
  | Some arg => Some (substring (String.length prefix + 3) arg)
  | None => None
  end.

End Cli.

(** ** Sample data for the examples of the further properties *)

Module Samples.

(** The reference to the row [X] of [Examples], expanded. *)
Definition expanded_X : RawValue :=
  expanded_reference (Examples.reference "T" "X") Examples.row_X.

(** The session after the lookup table [T] of [Examples] was fetched. *)
Definition table_T : gmap string CodaRow :=
  store_items ∅ [Examples.row_A; Examples.row_B; Examples.row_X].

Definition fetched_T : State :=
  {| context := {| processedRefs := ∅; cache := ∅;
                   tableCache := {["T" := table_T]}; requestCount := 1 |};
     requests := [page_request "doc" "tok" "T" None];
     logs := [] |}.

(** Two tables whose ids and row ids make the same key: the row [b:c] of
    the table [a], and the row [c] of the table [a:b]. *)
Definition colon_server (history : list Request) (first : Request) : Pages :=
  if str_eqb (req_table first) "a"
  then PagesLast [Examples.row "b:c" [("c-name", VStr "of a")]]
  else PagesLast [Examples.row "c" [("c-name", VStr "of a:b")]].

Definition colon_row_1 : CodaRow :=
  Examples.row "r1" [("c-ref", Examples.reference "a" "b:c")].
Definition colon_row_2 : CodaRow :=
  Examples.row "r2" [("c-ref", Examples.reference "a:b" "c")].

(** A reference to a table whose id names a member of [Object.prototype],
    and a row that holds it. *)
Definition to_constructor : CodaRow :=
  Examples.row "r6" [("c-ref", Examples.reference "constructor" "A")].

(** An API that fails every fetch of the table [F] and answers the others
    as [one_page_server] does; a row that refers to [F] and then to [T]. *)
Definition partly_failing_server (history : list Request) (first : Request) : Pages :=
  if str_eqb (req_table first) "F"
  then PagesFail (HttpFailure 500 "Internal Server Error")
  else Examples.one_page_server history first.

Definition to_F_then_X : CodaRow :=
  Examples.row "r7" [("c-bad", Examples.reference "F" "Z");
                     ("c-good", Examples.reference "T" "X")].

(** A row whose reference comes after a cell without references. *)
Definition name_then_X : CodaRow :=
  Examples.row "r8" [("c-name", VStr "n"); ("c-ref", Examples.reference "T" "X")].

(** A loader with the default options, an API that answers the rows request
    with one row and fails the columns request, and a [parseData] that
    accepts every row as it is. *)
Definition loader : Loader :=
  {| loader_name := "coda-loader"; loader_token := "tok"; loader_docId := "doc";
     loader_tableIdOrName := "grid-1"; loader_query := None; loader_sortBy := None;
     loader_limit := None; loader_cleanStrings := true; loader_maxLookupDepth := 0 |}.

Definition columns_api (history : list LoaderCall) : ColumnsAnswer :=
  ColumnsNotOk 500 "Internal Server Error".

Definition rows_api (history : list LoaderCall) (request : RowsRequest) : RowsAnswer :=
  RowsItems [Examples.row_X].

Definition parseData (id : string) (row : CodaRow) : Error + CodaRow := inr row.

Definition stringify (value : string) : string :=
  double_quote +:+ value +:+ double_quote.

Definition initial : LoaderState CodaRow :=
  {| session := Examples.start; calls := []; store := ∅; columnTypesCache := ∅;
     columnsDataCache := None; columnsCache := ∅ |}.

End Samples.

(** * Properties *)

(** ** Objects as entry lists *)

Section ObjectFacts.
Context `{JSNumber}.

Lemma str_eqb_refl (a : string) : str_eqb a a = true.
Proof. unfold str_eqb. by apply bool_decide_eq_true. Qed.

Lemma str_eqb_neq (a b : string) : a ≠ b → str_eqb a b = false.
Proof. unfold str_eqb. by apply bool_decide_eq_false. Qed.

Lemma str_eqb_eq (a b : string) : str_eqb a b = true → a = b.
Proof. unfold str_eqb. by intros ?%bool_decide_eq_true. Qed.

Lemma obj_set_at (pre rest : Values) (k : string) (old new : RawValue) :
  k ∉ keys pre →
  obj_set (pre ++ (k, old) :: rest) k new = pre ++ (k, new) :: rest.
Proof.
  induction pre as [|[k' v'] pre IH]; simpl; intros Hk.
  - by rewrite str_eqb_refl.
  - apply not_elem_of_cons in Hk as [Hne Hk].
    rewrite str_eqb_neq by congruence. by rewrite IH.
Qed.

Lemma obj_get_set_ne (o : Values) (k k' : string) (v : RawValue) :
  k ≠ k' → obj_get (obj_set o k v) k' = obj_get o k'.
Proof.
  intros Hne. induction o as [|[k0 v0] o IH]; simpl.
  - by rewrite str_eqb_neq.
  - destruct (str_eqb k0 k) eqn:E; simpl.
    + apply str_eqb_eq in E as ->. by rewrite !str_eqb_neq.
    + by rewrite IH.
Qed.

Lemma obj_get_set_eq (o : Values) (k : string) (v : RawValue) :
  obj_get (obj_set o k v) k = Some v.
Proof.
  induction o as [|[k0 v0] o IH]; simpl.
  - by rewrite str_eqb_refl.
  - destruct (str_eqb k0 k) eqn:E; simpl; by rewrite ?E.
Qed.

End ObjectFacts.

(** ** The value normaliser *)

Section Normaliser.
Context `{JSNumber}.

Lemma normalized_entries_keys columnTypes (values : Values) :
  keys (map (normalized_entry columnTypes) values) = keys values.
Proof. unfold keys. rewrite map_map. by apply map_ext. Qed.

(** On an object the loop rewrites every entry in place. *)
Lemma normalize_loop columnTypes (rest done_ : Values) :
  NoDup (keys (done_ ++ rest)) →
  fold_left (normalize_step columnTypes) rest (done_ ++ rest)
  = done_ ++ map (normalized_entry columnTypes) rest.
Proof.
  revert done_. induction rest as [|[k v] rest IH]; intros done_ Hnd; simpl.
  - done.
  - assert (k ∉ keys done_) as Hk.
    { unfold keys in *. rewrite map_app in Hnd. simpl in Hnd.
      apply NoDup_app in Hnd as (_ & Hd & _).
      intros Hin. apply (Hd _ Hin). apply elem_of_cons. by left. }
    assert (∀ v', NoDup (keys ((done_ ++ [(k, v')]) ++ rest))) as Hnd'.
    { intros v'. unfold keys in *. rewrite <- app_assoc. simpl.
      rewrite map_app in *. exact Hnd. }
    unfold normalized_entry at 1, normalized_value; simpl.
    destruct (normalize_cell (columnTypes !! k) v) as [v'|]; simpl.
    + rewrite obj_set_at by done.
      rewrite (cons_middle (k, v') done_ rest), app_assoc.
      rewrite IH by apply Hnd'. by rewrite <- app_assoc.
    + rewrite (cons_middle (k, v) done_ rest), app_assoc.
      rewrite IH by apply Hnd'. by rewrite <- app_assoc.
Qed.

Lemma normalizeEmptyToObject_map (values : Values) columnTypes :
  NoDup (keys values) →
  normalizeEmptyToObject values columnTypes = map (normalized_entry columnTypes) values.
Proof. intros Hnd. exact (normalize_loop columnTypes values [] Hnd). Qed.

(** A normalised cell is left alone by a second pass. *)
Lemma normalize_cell_stable (columnType : option string) (value v' : RawValue) :
  normalize_cell columnType value = Some v' →
  normalize_cell columnType v' = None ∨ normalize_cell columnType v' = Some v'.
Proof.
  unfold normalize_cell. destruct columnType as [ty|]; [|done].
  repeat (match goal with
          | |- context [if ?b then _ else _] => destruct b eqn:?
          end; simpl);
    destruct value; simpl;
    repeat (match goal with
            | |- context [if ?b then _ else _] => destruct b eqn:?
            end; simpl);
    intros [= <-]; simpl; auto; try done.
Qed.

Lemma normalized_value_idem columnTypes (key : string) (value : RawValue) :
  normalized_value columnTypes key (normalized_value columnTypes key value)
  = normalized_value columnTypes key value.
Proof.
  unfold normalized_value.
  destruct (normalize_cell (columnTypes !! key) value) as [v'|] eqn:E; simpl.
  - by destruct (normalize_cell_stable _ _ _ E) as [-> | ->].
  - by rewrite E.
Qed.

End Normaliser.

(** ** The string sanitiser *)

Section Sanitiser.
Context `{JSNumber}.

Lemma match_wrapped_tail_complete (inner : string) :
  match_wrapped_tail (inner +:+ triple_backtick) = Some inner.
Proof.
  induction inner as [|c inner IH]; [reflexivity|].
  simpl. by rewrite IH.
Qed.

Lemma match_wrapped_tail_sound (s g : string) :
  match_wrapped_tail s = Some g → s = g +:+ triple_backtick.
Proof.
  revert g. induction s as [|c s IH]; intros g; simpl; [done|].
  destruct (match_wrapped_tail s) as [g'|].
  - intros [= <-]. rewrite (IH g' eq_refl) at 1. reflexivity.
  - destruct (str_eqb (String c s) triple_backtick) eqn:E; [|done].
    intros [= <-]. by apply str_eqb_eq in E.
Qed.

Lemma match_wrapped_complete (inner : string) :
  match_wrapped (triple_backtick +:+ inner +:+ triple_backtick) = Some inner.
Proof. simpl. apply match_wrapped_tail_complete. Qed.

Lemma match_wrapped_sound (s g : string) :
  match_wrapped s = Some g → s = triple_backtick +:+ g +:+ triple_backtick.
Proof.
  destruct s as [|c1 [|c2 [|c3 rest]]]; simpl; try done.
  destruct (str_eqb _ _) eqn:E; [|done].
  apply str_eqb_eq in E. injection E as -> -> ->.
  intros ->%match_wrapped_tail_sound. reflexivity.
Qed.

Lemma obj_set_fresh (o : Values) (k : string) (v : RawValue) :
  k ∉ keys o → obj_set o k v = o ++ [(k, v)].
Proof.
  induction o as [|[k' v'] o IH]; simpl; intros Hk; [done|].
  apply not_elem_of_cons in Hk as [Hne Hk].
  rewrite str_eqb_neq by congruence. by rewrite IH.
Qed.

(** Building an object entry by entry on a fresh object keeps the entries
    in place, but for the one named [__proto__], which is not added. *)
Lemma rebuild_loop (g : RawValue → RawValue) (rest result : Values) :
  NoDup (keys result ++ keys rest) →
  fold_left (fun (result : Values) '(k, v) => assign_fresh result k (g v)) rest result
  = result ++ map (fun entry => (entry.1, g entry.2)) (assignable rest).
Proof.
  revert result. induction rest as [|[k v] rest IH]; intros result Hnd; simpl.
  - by rewrite app_nil_r.
  - assert (k ∉ keys result) as Hk.
    { apply NoDup_app in Hnd as (_ & Hd & _).
      intros Hin. apply (Hd _ Hin). unfold keys; simpl. apply elem_of_cons. by left. }
    unfold assign_fresh at 2. destruct (str_eqb k "__proto__") eqn:Hproto.
    + apply IH. unfold keys in *. simpl in Hnd.
      apply NoDup_app in Hnd as (Hres & Hsep & Hrest).
      apply NoDup_app. split; [done|]. split.
      * intros x Hx Hin. apply (Hsep x Hx). by right.
      * by apply NoDup_cons in Hrest as [_ ?].
    + rewrite obj_set_fresh by done. rewrite IH.
      * simpl. by rewrite <- app_assoc.
      * unfold keys in *. rewrite map_app. simpl in *.
        rewrite <- app_assoc. exact Hnd.
Qed.

Lemma assignable_all (values : Values) :
  "__proto__" ∉ keys values → assignable values = values.
Proof.
  induction values as [|[k v] values IH]; [done|].
  unfold keys. simpl. intros [Hne Hrest]%not_elem_of_cons.
  rewrite str_eqb_neq by congruence. by rewrite IH.
Qed.

Lemma cleanValues_assignable (values : Values) :
  NoDup (keys values) → cleanValues values = map cleaned_entry (assignable values).
Proof.
  intros Hnd. unfold cleanValues.
  rewrite (rebuild_loop cleanValue) by done. reflexivity.
Qed.

Lemma cleanValue_object_assignable (fields : Values) :
  NoDup (keys fields) →
  cleanValue (VObj fields) = VObj (map cleaned_entry (assignable fields)).
Proof.
  intros Hnd. simpl. f_equal.
  rewrite (rebuild_loop cleanValue) by done. reflexivity.
Qed.

Lemma cleanValues_map (values : Values) :
  NoDup (keys values) → "__proto__" ∉ keys values →
  cleanValues values = map cleaned_entry values.
Proof. intros Hnd Hproto. by rewrite cleanValues_assignable, assignable_all. Qed.

Lemma cleanValue_object (fields : Values) :
  NoDup (keys fields) → "__proto__" ∉ keys fields →
  cleanValue (VObj fields) = VObj (map cleaned_entry fields).
Proof. intros Hnd Hproto. by rewrite cleanValue_object_assignable, assignable_all. Qed.

End Sanitiser.

(** ** Claims on the normaliser, the sanitiser and [getImageUrl] *)

Section PureClaims.
Context `{JSNumber}.

Lemma obj_get_normalized columnTypes (values : Values) (key : string) :
  obj_get (map (normalized_entry columnTypes) values) key
  = normalized_value columnTypes key <$> obj_get values key.
Proof.
  induction values as [|[k v] values IH]; simpl; [done|].
  destruct (str_eqb k key) eqn:E; [|done].
  apply str_eqb_eq in E as ->. reflexivity.
Qed.

(** C6. The value normaliser is idempotent: normalising the normalised values
    of an object again, with the same column types, changes nothing. *)
Theorem normalizeEmptyToObject_idempotent (values : Values) (columnTypes : gmap string string) :
  NoDup (keys values) →
  normalizeEmptyToObject (normalizeEmptyToObject values columnTypes) columnTypes
  = normalizeEmptyToObject values columnTypes.
Proof.
  intros Hnd.
  rewrite (normalizeEmptyToObject_map values) by done.
  rewrite normalizeEmptyToObject_map by (by rewrite normalized_entries_keys).
  rewrite map_map. apply map_ext. intros [k v].
  unfold normalized_entry; simpl. by rewrite normalized_value_idem.
Qed.

(** C7. A cell of a boolean or checkbox column: a string that reads true or
    false once lower-cased becomes that boolean, any other string becomes
    null, a boolean stays, null and undefined become null, and so does every
    other value. *)
Theorem normalize_boolean_cell (values : Values) (columnTypes : gmap string string)
    (key : string) (value : RawValue) :
  NoDup (keys values) →
  columnTypes !! key = Some "boolean" ∨ columnTypes !! key = Some "checkbox" →
  obj_get values key = Some value →
  let result := obj_get (normalizeEmptyToObject values columnTypes) key in
  (∀ s, value = VStr s → toLowerCase s = "true" → result = Some (VBool true)) ∧
  (∀ s, value = VStr s → toLowerCase s = "false" → result = Some (VBool false)) ∧
  (∀ s, value = VStr s → toLowerCase s ≠ "true" → toLowerCase s ≠ "false" →
        result = Some VNull) ∧
  (∀ b, value = VBool b → result = Some (VBool b)) ∧
  (value = VNull ∨ value = VUndefined → result = Some VNull) ∧
  ((∀ s, value ≠ VStr s) → (∀ b, value ≠ VBool b) → result = Some VNull) ∧
  toLowerCase "TRUE" = "true" ∧ toLowerCase "false" = "false" ∧
  toLowerCase "yes" ≠ "true" ∧ toLowerCase "yes" ≠ "false".
Proof.
  intros Hnd Hty Hget result.
  assert (result = Some (normalized_value columnTypes key value)) as ->.
  { unfold result. rewrite normalizeEmptyToObject_map by done.
    by rewrite obj_get_normalized, Hget. }
  assert (∀ v, normalized_value columnTypes key v
               = default v (normalize_cell (Some "boolean") v)) as Hcell.
  { intros v. unfold normalized_value. by destruct Hty as [-> | ->]. }
  rewrite Hcell. clear Hcell.
  repeat split.
  - intros s -> Hs. simpl. by rewrite Hs.
  - intros s -> Hs. simpl. by rewrite Hs.
  - intros s -> Ht Hf. simpl. by rewrite !str_eqb_neq.
  - by intros b ->.
  - by intros [-> | ->].
  - intros Hs Hb. destruct value; try done.
    + by destruct (Hb b).
    + by destruct (Hs s).
  - done.
  - done.
Qed.

(** C8. The sanitiser returns the inner content of a string that is wholly
    enclosed in a leading and a trailing triple backtick and returns any other
    string as it is; it goes through lists and objects and leaves numbers,
    booleans and null untouched.  An object is rebuilt property by property
    on a fresh object, which keeps every property in its place but one named
    [__proto__]: the assignment to that key adds no own property, so the
    sanitised object has the sanitised properties of the original when none
    is named so, and lacks that one otherwise. *)
Theorem cleanString_unwraps :
  (∀ inner, cleanString ("```" +:+ inner +:+ "```") = inner) ∧
  (∀ s, (∀ inner, s ≠ "```" +:+ inner +:+ "```") → cleanString s = s) ∧
  (∀ s, cleanValue (VStr s) = VStr (cleanString s)) ∧
  (∀ n, cleanValue (VNum n) = VNum n) ∧
  (∀ b, cleanValue (VBool b) = VBool b) ∧
  cleanValue VNull = VNull ∧
  (∀ items, cleanValue (VArr items) = VArr (map cleanValue items)) ∧
  (∀ fields, NoDup (keys fields) → "__proto__" ∉ keys fields →
             cleanValue (VObj fields) = VObj (map cleaned_entry fields)) ∧
  (∀ values, NoDup (keys values) → "__proto__" ∉ keys values →
             cleanValues values = map cleaned_entry values) ∧
  (∀ fields, NoDup (keys fields) →
             cleanValue (VObj fields) = VObj (map cleaned_entry (assignable fields))) ∧
  (∀ values, NoDup (keys values) →
             cleanValues values = map cleaned_entry (assignable values)) ∧
  cleanString "```hello```" = "hello" ∧
  cleanString "`hello`" = "`hello`".
Proof.
  repeat split; try done.
  - intros inner. unfold cleanString.
    pose proof (match_wrapped_complete inner) as E.
    unfold triple_backtick in E. by rewrite E.
  - intros s Hs. unfold cleanString.
    destruct (match_wrapped s) as [g|] eqn:E; [|done].
    apply match_wrapped_sound in E. by destruct (Hs g).
  - apply cleanValue_object.
  - apply cleanValues_map.
  - apply cleanValue_object_assignable.
  - apply cleanValues_assignable.
Qed.

(** C10. [getImageUrl] gives null for null, undefined, the empty string and
    the empty list, the result for the first element for a non-empty list, the
    [url] property for an object tagged ImageObject, and null for any other
    value. *)
Theorem getImageUrl_cases :
  getImageUrl VNull = VNull ∧
  getImageUrl VUndefined = VNull ∧
  getImageUrl (VStr "") = VNull ∧
  getImageUrl (VArr []) = VNull ∧
  (∀ first rest, getImageUrl (VArr (first :: rest)) = getImageUrl first) ∧
  (∀ fields, isRawImage (VObj fields) = true →
             getImageUrl (VObj fields) = obj_read fields "url") ∧
  (∀ value, isRawImage value = false → (∀ first rest, value ≠ VArr (first :: rest)) →
            getImageUrl value = VNull).
Proof.
  repeat split; try done.
  - intros fields Himg.
    change (getImageUrl (VObj fields))
      with (if isRawImage (VObj fields) then obj_read fields "url" else VNull).
    by rewrite Himg.
  - intros value Himg Hlist. destruct value as [| | | |s|items|fields]; try done.
    + by destruct s.
    + destruct items as [|first rest]; [done|]. by destruct (Hlist first rest).
    + change (getImageUrl (VObj fields))
        with (if isRawImage (VObj fields) then obj_read fields "url" else VNull).
      by rewrite Himg.
Qed.

(** C9. [codaLoader] throws a configuration error, and leaves the network
    untouched, as soon as the token, the document id or the table id is
    absent after the fall-back to the environment; with a token and a table
    but no document id the error is the one about the document id.  With all
    three present a loader is returned. *)
Theorem codaLoader_requires_configuration (options : CodaLoaderOptions)
    (env : ImportMetaEnv) (s : State) :
  let token := with_default_opt (opt_token options)
                 (js_or (CODA_API_TOKEN env) (PUBLIC_CODA_API_TOKEN env)) in
  let docId := with_default_opt (opt_docId options)
                 (js_or (CODA_DOC_ID env) (PUBLIC_CODA_DOC_ID env)) in
  let tableIdOrName := with_default_opt (opt_tableIdOrName options)
                 (js_or (CODA_TABLE_ID env) (PUBLIC_CODA_TABLE_ID env)) in
  (falsy token = true ∨ falsy docId = true ∨ falsy tableIdOrName = true →
   ∃ message, codaLoader options env s = (Throw (AstroError message), s)) ∧
  (falsy token = false → falsy docId = true →
   codaLoader options env s = (Throw (AstroError missing_docId), s)) ∧
  (falsy token = false → falsy docId = false → falsy tableIdOrName = false →
   ∃ loader, codaLoader options env s = (Ok loader, s)
             ∧ loader_name loader = "coda-loader").
Proof.
  intros token docId tableIdOrName. unfold codaLoader.
  fold token docId tableIdOrName.
  destruct (falsy token), (falsy docId), (falsy tableIdOrName);
    (split; [|split]); intros; try done; try (by eexists);
    try (by destruct_or!).
Qed.

End PureClaims.

(** The idempotence of the normaliser on cells of three column types. *)
Lemma normalizeEmptyToObject_idempotent_witness :
  normalizeEmptyToObject
    (normalizeEmptyToObject Examples.raw_cells Examples.cell_types) Examples.cell_types
  = normalizeEmptyToObject Examples.raw_cells Examples.cell_types.
Proof.
  apply (normalizeEmptyToObject_idempotent Examples.raw_cells Examples.cell_types).
  apply (bool_decide_unpack _). vm_compute. exact I.
Defined.

(** ** Sequential code: returning and finishing *)

Section Sequencing.
Context `{JSNumber}.

Lemma bind_Ok {A B} (m : M A) (k : A → M B) s a s1 :
  m s = (Ok a, s1) → bind m k s = k a s1.
Proof. unfold bind. by intros ->. Qed.

Lemma bind_get_context {B} (k : ProcessingContext → M B) s :
  bind get_context k s = k (context s) s.
Proof. reflexivity. Qed.

Lemma returns_ret {A} (a : A) (Q : A → Prop) : Q a → returns (ret a) Q.
Proof. intros HQ s. by exists a, s. Qed.

Lemma returns_bind {A B} (m : M A) (k : A → M B) (Q : B → Prop) :
  returns m (fun _ => True) → (∀ a, returns (k a) Q) → returns (bind m k) Q.
Proof.
  intros Hm Hk s. destruct (Hm s) as (a & s1 & E & _).
  rewrite (bind_Ok _ _ _ _ _ E). apply Hk.
Qed.

Lemma returns_weaken {A} (m : M A) (Q Q' : A → Prop) :
  (∀ a, Q a → Q' a) → returns m Q → returns m Q'.
Proof.
  intros HQ Hm s. destruct (Hm s) as (a & s' & E & Ha). exists a, s'. auto.
Qed.

Lemma returns_get_context {B} (k : ProcessingContext → M B) (Q : B → Prop) :
  (∀ c, returns (k c) Q) → returns (bind get_context k) Q.
Proof. intros Hk s. rewrite bind_get_context. apply Hk. Qed.

Lemma returns_log level message : returns (log level message) (fun _ => True).
Proof. intros s. by eexists _, _. Qed.

Lemma returns_update_context f : returns (update_context f) (fun _ => True).
Proof. intros s. by eexists _, _. Qed.

Lemma finishes_returns {A} (m : M A) (Q : A → Prop) : returns m Q → finishes m.
Proof. intros Hm s. destruct (Hm s) as (a & s' & -> & _). done. Qed.

Lemma finishes_bind {A B} (m : M A) (k : A → M B) :
  finishes m → (∀ a, finishes (k a)) → finishes (bind m k).
Proof.
  intros Hm Hk s. unfold bind. specialize (Hm s).
  destruct (m s) as [[a|e|] s1]; simpl in *; [apply Hk|done|done].
Qed.

Lemma returns_try_catch {A} (m : M A) (handler : Error → M A) (Q : A → Prop) :
  finishes m → (∀ a, Q a) → (∀ e, returns (handler e) Q) →
  returns (try_catch m handler) Q.
Proof.
  intros Hm HQ Hh s. unfold try_catch. specialize (Hm s).
  destruct (m s) as [[a|e|] s1]; simpl in *.
  - by exists a, s1.
  - apply Hh.
  - done.
Qed.

Lemma returns_try_catch_value {A} (m : M A) (handler : Error → M A) (Q : A → Prop) :
  returns m Q → returns (try_catch m handler) Q.
Proof.
  intros Hm s. destruct (Hm s) as (a & s' & E & Ha).
  exists a, s'. unfold try_catch. by rewrite E.
Qed.

Lemma returns_bind_with {A B} (m : M A) (k : A → M B) (Q1 : A → Prop) (Q : B → Prop) :
  returns m Q1 → (∀ a, Q1 a → returns (k a) Q) → returns (bind m k) Q.
Proof.
  intros Hm Hk s. destruct (Hm s) as (a & s1 & E & Ha).
  rewrite (bind_Ok _ _ _ _ _ E). by apply Hk.
Qed.

Lemma finishes_ret {A} (a : A) : finishes (ret a).
Proof. by intros s. Qed.

Lemma finishes_throw {A} (e : Error) : finishes (throw (A := A) e).
Proof. by intros s. Qed.

Lemma finishes_get_context {B} (k : ProcessingContext → M B) :
  (∀ c, finishes (k c)) → finishes (bind get_context k).
Proof. intros Hk s. rewrite bind_get_context. apply Hk. Qed.

(** *** What a computation returns, when it returns *)

Lemma bind_inv {A B} (m : M A) (k : A → M B) s b s' :
  bind m k s = (Ok b, s') → ∃ a s1, m s = (Ok a, s1) ∧ k a s1 = (Ok b, s').
Proof.
  unfold bind. destruct (m s) as [[a|e|] s1]; try done. intros E. by exists a, s1.
Qed.

Lemma yields_ret {A} (a : A) (Q : A → Prop) : Q a → yields (ret a) Q.
Proof. intros HQ s a' s' [= <- _]. exact HQ. Qed.

Lemma yields_throw {A} (e : Error) (Q : A → Prop) : yields (throw e) Q.
Proof. by intros s a s'. Qed.

Lemma yields_bind {A B} (m : M A) (k : A → M B) (Q1 : A → Prop) (Q : B → Prop) :
  yields m Q1 → (∀ a, Q1 a → yields (k a) Q) → yields (bind m k) Q.
Proof.
  intros Hm Hk s b s' (a & s1 & Em & Ek)%bind_inv. eapply Hk; [|exact Ek]. by eapply Hm.
Qed.

Lemma yields_then {A B} (m : M A) (k : A → M B) (Q : B → Prop) :
  (∀ a, yields (k a) Q) → yields (bind m k) Q.
Proof. intros Hk. apply (yields_bind m k (fun _ => True)); [done|]. intros a _. apply Hk. Qed.

Lemma yields_try_catch {A} (m : M A) (handler : Error → M A) (Q : A → Prop) :
  yields m Q → (∀ e, yields (handler e) Q) → yields (try_catch m handler) Q.
Proof.
  intros Hm Hh s a s'. unfold try_catch.
  destruct (m s) as [[a1|e|] s1] eqn:E; intros E'.
  - injection E' as <- <-. by eapply Hm.
  - by eapply Hh.
  - done.
Qed.

Lemma yields_out_of_fuel {A} (Q : A → Prop) : yields out_of_fuel Q.
Proof. by intros s a s'. Qed.

(** A [try] whose block ends and whose handler returns, returns. *)
Lemma returns_try_catch_yields {A} (m : M A) (handler : Error → M A) (Q : A → Prop) :
  finishes m → yields m Q → (∀ e, returns (handler e) Q) →
  returns (try_catch m handler) Q.
Proof.
  intros Hm HQ Hh s. unfold try_catch. specialize (Hm s).
  destruct (m s) as [[a|e|] s1] eqn:E; simpl in *.
  - exists a, s1. split; [done|]. by eapply HQ.
  - apply Hh.
  - done.
Qed.

(** *** Pre- and postconditions *)

Lemma ensures_ret {A} (a : A) P (Q : A → State → Prop) E :
  (∀ s, P s → Q a s) → ensures P (ret a) Q E.
Proof. intros HQ s Hs. by apply HQ. Qed.

Lemma ensures_throw {A} (e : Error) P (Q : A → State → Prop) (E : Error → State → Prop) :
  (∀ s, P s → E e s) → ensures P (throw e) Q E.
Proof. intros HE s Hs. by apply HE. Qed.

Lemma ensures_out_of_fuel {A} P (Q : A → State → Prop) E : ensures P out_of_fuel Q E.
Proof. by intros s Hs. Qed.

Lemma ensures_bind {A B} (m : M A) (k : A → M B) P (R : A → State → Prop)
    (Q : B → State → Prop) E :
  ensures P m R E → (∀ a, ensures (R a) (k a) Q E) → ensures P (bind m k) Q E.
Proof.
  intros Hm Hk s Hs. specialize (Hm s Hs). unfold bind.
  destruct (m s) as [[a|e|] s1]; [by apply Hk|done|done].
Qed.

Lemma ensures_get_context {B} (k : ProcessingContext → M B) P (Q : B → State → Prop) E :
  (∀ c, ensures (fun s => P s ∧ context s = c) (k c) Q E) →
  ensures P (bind get_context k) Q E.
Proof. intros Hk s Hs. rewrite bind_get_context. by apply Hk. Qed.

Lemma ensures_get_context_any {B} (k : ProcessingContext → M B) P
    (Q : B → State → Prop) E :
  (∀ c, ensures P (k c) Q E) → ensures P (bind get_context k) Q E.
Proof. intros Hk s Hs. rewrite bind_get_context. by apply Hk. Qed.

(** A fact that the precondition holds of no particular state. *)
Lemma ensures_fact {B} (m : M B) (P : State → Prop) (F : Prop)
    (Q : B → State → Prop) E :
  (F → ensures P m Q E) → ensures (fun s => P s ∧ F) m Q E.
Proof. intros Hm s [Hs HF]. by apply Hm. Qed.

Lemma ensures_weaken {A} (m : M A) (P P' : State → Prop) (Q Q' : A → State → Prop)
    (E E' : Error → State → Prop) :
  (∀ s, P' s → P s) → (∀ a s, Q a s → Q' a s) → (∀ e s, E e s → E' e s) →
  ensures P m Q E → ensures P' m Q' E'.
Proof.
  intros HP HQ HE Hm s Hs. specialize (Hm s (HP s Hs)).
  destruct (m s) as [[a|e|] s1]; auto.
Qed.

Lemma ensures_log level message P (Q : unit → State → Prop) E :
  (∀ s, P s → Q tt (log level message s).2) → ensures P (log level message) Q E.
Proof. intros HQ s Hs. by apply HQ. Qed.

Lemma ensures_update_context f P (Q : unit → State → Prop) E :
  (∀ s, P s → Q tt (update_context f s).2) → ensures P (update_context f) Q E.
Proof. intros HQ s Hs. by apply HQ. Qed.

Lemma ensures_try_catch {A} (m : M A) (handler : Error → M A) P (Q : A → State → Prop)
    (E1 E : Error → State → Prop) :
  ensures P m Q E1 → (∀ e, ensures (E1 e) (handler e) Q E) →
  ensures P (try_catch m handler) Q E.
Proof.
  intros Hm Hh s Hs. specialize (Hm s Hs). unfold try_catch.
  destruct (m s) as [[a|e|] s1]; [done|by apply Hh|done].
Qed.

(** *** The slot of a table in the table-level cache *)

Lemma read_table_cached c tableId table :
  tableCache c !! tableId = Some table → read_table c tableId = CachedTable table.
Proof. unfold read_table. by intros ->. Qed.

Lemma read_table_absent c tableId :
  tableCache c !! tableId = None → inherited tableId = false →
  read_table c tableId = NoTable.
Proof. unfold read_table. by intros -> ->. Qed.

Lemma read_table_NoTable c tableId :
  read_table c tableId = NoTable →
  tableCache c !! tableId = None ∧ inherited tableId = false.
Proof.
  unfold read_table. destruct (tableCache c !! tableId); [done|].
  by destruct (inherited tableId).
Qed.

Lemma read_table_CachedTable c tableId table :
  read_table c tableId = CachedTable table → tableCache c !! tableId = Some table.
Proof.
  unfold read_table. destruct (tableCache c !! tableId); [by intros [= ->]|].
  by destruct (inherited tableId).
Qed.

Lemma read_table_PrototypeMember c tableId :
  read_table c tableId = PrototypeMember →
  tableCache c !! tableId = None ∧ inherited tableId = true.
Proof.
  unfold read_table. destruct (tableCache c !! tableId); [done|].
  by destruct (inherited tableId).
Qed.

End Sequencing.

(** ** Termination of the expansion *)

Section Termination.
Context `{JSNumber}.
Variables (docId token : string).
Variable server : list Request → Request → Pages.

Lemma fetch_pages_finishes tableId pages pageToken pageCount rowsMap :
  finishes (fetch_pages docId token tableId pages pageToken pageCount rowsMap).
Proof.
  revert pageToken pageCount rowsMap.
  induction pages as [f|items|items next rest IH]; intros pageToken pageCount rowsMap s;
    simpl; try done.
  destruct (truthy_string next); [|done]. apply IH.
Qed.

Lemma fetchTableData_finishes tableId :
  finishes (fetchTableData docId token server tableId).
Proof. intros s. apply fetch_pages_finishes. Qed.

Lemma fetch_table_into_cache_finishes tableId :
  finishes (fetch_table_into_cache docId token server tableId).
Proof.
  unfold fetch_table_into_cache.
  apply finishes_bind; [by eapply finishes_returns, returns_update_context|].
  intros _. apply finishes_bind; [apply fetchTableData_finishes|].
  intros table. by eapply finishes_returns, returns_update_context.
Qed.

(** Step 1 returns, or throws when the table id names a member of
    [Object.prototype]. *)
Lemma lookup_table_cache_finishes reference :
  finishes (lookup_table_cache reference).
Proof.
  apply finishes_get_context. intros c.
  destruct (read_table c _) as [table| |];
    [|apply finishes_throw|apply finishes_ret].
  destruct (table_get _ _); [|apply finishes_ret].
  apply finishes_bind; [by eapply finishes_returns, returns_log|].
  intros _. apply finishes_ret.
Qed.

Lemma lookup_row_cache_returns reference referencedRow :
  returns (lookup_row_cache reference referencedRow) (fun _ => True).
Proof.
  apply returns_get_context. intros c.
  destruct referencedRow; [|destruct (cache c !! _)]; by apply returns_ret.
Qed.

Lemma fetch_and_cache_finishes reference :
  finishes (fetch_and_cache docId token server reference).
Proof.
  unfold fetch_and_cache. apply finishes_get_context. intros c.
  apply finishes_bind.
  - destruct (read_table c _);
      [apply finishes_ret|apply finishes_ret|apply fetch_table_into_cache_finishes].
  - intros _. apply finishes_get_context. intros c'.
    apply finishes_bind.
    + destruct (read_table c' _);
        [apply finishes_ret|apply finishes_throw|apply finishes_throw].
    + intros row. apply finishes_bind; [by eapply finishes_returns, returns_update_context|].
      intros _. apply finishes_ret.
Qed.

(** Step 3 returns: what its [try] block throws, its [catch] block handles. *)
Lemma resolve_uncached_returns reference referencedRow :
  returns (resolve_uncached docId token server reference referencedRow) (fun _ => True).
Proof.
  apply returns_get_context. intros c.
  destruct referencedRow; [by apply returns_ret|].
  destruct (cache c !! _); [by apply returns_ret|].
  apply returns_try_catch; [|done|].
  - apply finishes_bind; [apply fetch_and_cache_finishes|].
    intros row. apply finishes_ret.
  - intros e. apply returns_bind; [apply returns_log|]. intros _.
    apply returns_bind; [apply returns_update_context|]. intros _.
    by apply returns_ret.
Qed.

Section Bodies.
Variable expandRow : CodaRow → Z → Z → M CodaRow.
Variables currentDepth maxDepth : Z.
Hypothesis expandRow_finishes :
  ∀ row, finishes (expandRow row (currentDepth + 1)%Z maxDepth).

Lemma expandSingleReference_body_finishes reference :
  finishes (expandSingleReference_body docId token server expandRow reference
              currentDepth maxDepth).
Proof.
  apply finishes_get_context. intros c.
  destruct (bool_decide _); [apply finishes_ret|].
  apply finishes_bind; [apply lookup_table_cache_finishes|]. intros r1.
  apply finishes_bind; [by eapply finishes_returns, lookup_row_cache_returns|]. intros r2.
  apply finishes_bind; [by eapply finishes_returns, resolve_uncached_returns|].
  intros [[row|]|].
  - apply finishes_bind; [by eapply finishes_returns, returns_update_context|]. intros _.
    apply finishes_bind; [apply expandRow_finishes|]. intros deeper.
    apply finishes_bind; [by eapply finishes_returns, returns_log|]. intros _.
    apply finishes_ret.
  - apply finishes_bind; [by eapply finishes_returns, returns_log|]. intros _.
    apply finishes_ret.
  - apply finishes_ret.
Qed.

Lemma expand_items_finishes items expandedItems hasExpanded :
  finishes (expand_items docId token server expandRow currentDepth maxDepth
              items expandedItems hasExpanded).
Proof.
  revert expandedItems hasExpanded.
  induction items as [|item rest IH]; intros expandedItems hasExpanded; simpl.
  - apply finishes_ret.
  - destruct (negb _); [apply IH|].
    apply finishes_bind; [apply expandSingleReference_body_finishes|].
    intros [expanded|]; apply IH.
Qed.

Lemma expand_entries_finishes entries expandedValues :
  finishes (expand_entries docId token server expandRow currentDepth maxDepth
              entries expandedValues).
Proof.
  revert expandedValues.
  induction entries as [|[key value] rest IH]; intros expandedValues; simpl.
  - apply finishes_ret.
  - destruct (isRawRowReference value).
    + apply finishes_bind; [apply expandSingleReference_body_finishes|].
      intros [expanded|]; apply IH.
    + destruct value; try apply IH.
      apply finishes_bind; [apply expand_items_finishes|].
      intros [expandedItems []]; apply IH.
Qed.

End Bodies.

Lemma with_values_same (row : CodaRow) : with_values row (row_values row) = row.
Proof. by destruct row. Qed.

Lemma expandRowLookups_body_finishes expandRow (row : CodaRow) currentDepth maxDepth :
  ((0 < maxDepth)%Z → (currentDepth < maxDepth)%Z →
   ∀ row', finishes (expandRow row' (currentDepth + 1)%Z maxDepth)) →
  finishes (expandRowLookups_body docId token server expandRow row currentDepth maxDepth).
Proof.
  intros Hrec. unfold expandRowLookups_body.
  destruct (_ || _) eqn:Hstop; [apply finishes_ret|].
  apply orb_false_iff in Hstop as [H1%Z.leb_gt H2%Z.leb_gt].
  apply finishes_bind; [by apply expand_entries_finishes, Hrec|].
  intros values. apply finishes_ret.
Qed.

(** With a fuel above the number of levels left, the expansion of a row
    ends: it returns or throws. *)
Lemma expandRowLookups_finishes fuel (row : CodaRow) currentDepth maxDepth :
  (Z.to_nat (maxDepth - currentDepth) < fuel)%nat →
  finishes (expandRowLookups docId token server fuel row currentDepth maxDepth).
Proof.
  revert row currentDepth.
  induction fuel as [|fuel IH]; intros row currentDepth Hfuel; [lia|].
  simpl. apply expandRowLookups_body_finishes. intros Hpos Hlt row'.
  apply IH. lia.
Qed.


(** What [expandRowLookups] returns is its row with other values. *)
Lemma expandRowLookups_values fuel (row : CodaRow) currentDepth maxDepth :
  yields (expandRowLookups docId token server fuel row currentDepth maxDepth)
         (fun row' => ∃ values, row' = with_values row values).
Proof.
  destruct fuel as [|fuel]; simpl; [apply yields_out_of_fuel|].
  unfold expandRowLookups_body. destruct (_ || _).
  - apply yields_ret. exists (row_values row). by rewrite with_values_same.
  - apply yields_then. intros values. apply yields_ret. by exists values.
Qed.

(** *** The result does not depend on the fuel *)


Section Agreement.
Variables expandRow1 expandRow2 : CodaRow → Z → Z → M CodaRow.
Variables currentDepth maxDepth : Z.
Hypothesis agree :
  ∀ row s, expandRow1 row (currentDepth + 1)%Z maxDepth s
           = expandRow2 row (currentDepth + 1)%Z maxDepth s.




End Agreement.


(** C4. With a maximum depth of zero or less the expansion is the identity
    and reaches nothing: [expandLookups] returns its rows and leaves the state,
    hence the request log, as it was, and [expandRowLookups] returns its row
    untouched as soon as [maxDepth <= 0] or [currentDepth >= maxDepth]. *)
Theorem expansion_disabled (rows : list CodaRow) (row : CodaRow)
    (currentDepth maxDepth : Z) (fuel : nat) (s : State) :
  ((maxDepth ≤ 0)%Z →
   expandLookups docId token server rows maxDepth s = (Ok rows, s)) ∧
  ((maxDepth ≤ 0)%Z ∨ (currentDepth >= maxDepth)%Z →
   expandRowLookups docId token server (S fuel) row currentDepth maxDepth s = (Ok row, s)).
Proof.
  split.
  - intros Hmax. unfold expandLookups.
    by rewrite (proj2 (Z.leb_le maxDepth 0) Hmax).
  - intros Hstop. simpl. unfold expandRowLookups_body.
    assert ((maxDepth <=? 0)%Z || (maxDepth <=? currentDepth)%Z = true) as ->; [|done].
    apply orb_true_iff. destruct Hstop; [left|right]; apply Z.leb_le; lia.
Qed.

End Termination.

(** ** Fetching a table *)

Section Fetching.
Context `{JSNumber}.
Variables (docId token : string).
Variable server : list Request → Request → Pages.

Lemma fetch_pages_spec tableId pages pageToken pageCount rowsMap s :
  let r := fetch_pages docId token tableId pages pageToken pageCount rowsMap s in
  context r.2 = context s ∧
  (∃ more, requests r.2 = requests s ++ page_request docId token tableId pageToken :: more
           ∧ Forall (fun q => starts_fetch q = false) more) ∧
  (∃ lines, logs r.2 = logs s ++ lines) ∧
  r.1 = match pages_outcome pages rowsMap with
        | inl f => Throw (fetch_error tableId f)
        | inr table => Ok table
        end.
Proof.
  revert pageToken pageCount rowsMap s.
  induction pages as [f|items|items next rest IH];
    intros pageToken pageCount rowsMap s; cbv zeta in *.
  - simpl. split; [done|]. split; [by exists []|]. split; [by eexists|done].
  - simpl. split; [done|]. split; [by exists []|]. split; [|done].
    eexists. rewrite <- !app_assoc. reflexivity.
  - cbn [fetch_pages pages_outcome]. unfold bind.
    cbn [log send log_fetched context requests logs].
    destruct (truthy_string next).
    + match goal with
      | |- context [fetch_pages _ _ _ rest ?tok ?n ?m ?st] =>
          destruct (IH tok n m st) as (Hc & (more & Hr & Hmore) & (lines & Hl) & Hres)
      end.
      cbn [context requests logs] in Hc, Hr, Hl.
      split; [exact Hc|]. split; [|split; [|exact Hres]].
      * eexists. rewrite Hr, <- app_assoc. split; [reflexivity|].
        by constructor.
      * eexists. rewrite Hl, <- !app_assoc. reflexivity.
    + simpl. split; [done|]. split; [by exists []|]. split; [|done].
      eexists. rewrite <- !app_assoc. reflexivity.
Qed.

Lemma fetch_table_into_cache_spec tableId s :
  let r := fetch_table_into_cache docId token server tableId s in
  (∃ more, requests r.2 = requests s ++ page_request docId token tableId None :: more
           ∧ Forall (fun q => starts_fetch q = false) more) ∧
  (∃ lines, logs r.2 = logs s ++ lines) ∧
  match pages_outcome (server (requests s) (page_request docId token tableId None)) ∅ with
  | inl f => r.1 = Throw (fetch_error tableId f)
             ∧ context r.2 = count_request (context s)
  | inr table => r.1 = Ok tt
                 ∧ context r.2 = cache_table tableId table (count_request (context s))
  end.
Proof.
  unfold fetch_table_into_cache, fetchTableData, update_context. unfold bind.
  cbn [get_context set_context context requests logs].
  match goal with
  | |- context [fetch_pages _ _ ?t ?pages ?tok ?n ?m ?st] =>
      destruct (fetch_pages_spec t pages tok n m st) as (Hc & Hr & Hl & Hres);
      destruct (fetch_pages docId token t pages tok n m st) as [res s2]
  end.
  cbn [context requests logs fst snd] in *. subst res.
  destruct (pages_outcome _ ∅) as [f|table]; cbn [context requests logs fst snd].
  - by rewrite Hc.
  - by rewrite Hc.
Qed.

End Fetching.

(** ** A failed table fetch *)

Section Failures.
Context `{JSNumber}.
Variables (docId token : string).
Variable server : list Request → Request → Pages.

Lemma lookup_table_cache_miss reference s :
  read_table (context s) (toStr (prop reference "tableId")) = NoTable →
  lookup_table_cache reference s = (Ok None, s).
Proof. intros Hmiss. unfold lookup_table_cache. by rewrite bind_get_context, Hmiss. Qed.

Lemma lookup_row_cache_miss reference s :
  cache (context s) !! refKey reference = None →
  lookup_row_cache reference None s = (Ok None, s).
Proof. intros Hmiss. unfold lookup_row_cache. by rewrite bind_get_context, Hmiss. Qed.

Lemma expand_top_level_row_returns maxDepth (row : CodaRow) :
  returns (expand_top_level_row docId token server maxDepth row)
          (fun row' => row_id row' = row_id row).
Proof.
  unfold expand_top_level_row.
  apply returns_bind; [apply returns_update_context|]. intros _.
  apply returns_try_catch_yields.
  - apply expandRowLookups_finishes. unfold depth_budget. lia.
  - intros s0 row' s' Hrun. by apply expandRowLookups_values in Hrun as [values ->].
  - intros e. apply returns_bind; [apply returns_log|]. intros _. by apply returns_ret.
Qed.

Lemma expand_rows_returns maxDepth (rows expandedRows : list CodaRow) :
  returns (expand_rows docId token server maxDepth rows expandedRows)
          (fun rows' => map row_id rows' = map row_id expandedRows ++ map row_id rows).
Proof.
  revert expandedRows. induction rows as [|row rows IH]; intros expandedRows; simpl.
  - apply returns_ret. by rewrite app_nil_r.
  - eapply returns_bind_with; [apply expand_top_level_row_returns|].
    intros row' Hid. eapply returns_weaken; [|apply IH].
    intros rows' ->. rewrite map_app. simpl. rewrite Hid, <- app_assoc. done.
Qed.

Lemma expandLookups_returns (rows : list CodaRow) maxDepth :
  returns (expandLookups docId token server rows maxDepth)
          (fun rows' => map row_id rows' = map row_id rows).
Proof.
  unfold expandLookups. destruct (maxDepth <=? 0)%Z; [by apply returns_ret|].
  apply returns_bind; [apply returns_log|]. intros _.
  apply returns_bind; [by intros s; eexists _, _|]. intros _.
  apply expand_rows_returns.
Qed.


End Failures.

(** ** The effects of an expansion *)

Section Effects.
Context `{JSNumber}.
Variables (docId token : string).
Variable server : list Request → Request → Pages.

Local Abbreviation step := (expansion_step docId token server).
Local Abbreviation traces := (traces docId token server).

Lemma traces_ret {A} (a : A) : traces (ret a).
Proof. intros s. apply rtc_refl. Qed.

Lemma traces_bind_at {A B} (m : M A) (k : A → M B) s :
  rtc step s (m s).2 → (∀ a, traces (k a)) → rtc step s (bind m k s).2.
Proof.
  intros Hm Hk. unfold bind.
  destruct (m s) as [[a|e|] s1]; simpl in *; try done.
  etrans; [exact Hm|]. apply Hk.
Qed.

Lemma traces_bind {A B} (m : M A) (k : A → M B) :
  traces m → (∀ a, traces (k a)) → traces (bind m k).
Proof. intros Hm Hk s. by apply traces_bind_at. Qed.

Lemma traces_try_catch {A} (m : M A) (handler : Error → M A) :
  traces m → (∀ e, traces (handler e)) → traces (try_catch m handler).
Proof.
  intros Hm Hh s. unfold try_catch. specialize (Hm s).
  destruct (m s) as [[a|e|] s1]; simpl in *; try done.
  etrans; [exact Hm|]. apply Hh.
Qed.

Lemma traces_get_context {B} (k : ProcessingContext → M B) :
  (∀ c, traces (k c)) → traces (bind get_context k).
Proof. intros Hk s. rewrite bind_get_context. apply Hk. Qed.

Lemma traces_log level message : traces (log level message).
Proof. intros s. apply rtc_once. constructor. Qed.

Lemma traces_mark key : traces (update_context (mark_processed key)).
Proof. intros s. apply rtc_once. constructor. Qed.

Lemma traces_cache_row key row : traces (update_context (cache_row key row)).
Proof. intros s. apply rtc_once. constructor. Qed.

Lemma traces_out_of_fuel {A} : traces (out_of_fuel (A := A)).
Proof. intros s. apply rtc_refl. Qed.

Lemma traces_throw {A} e : traces (throw (A := A) e).
Proof. intros s. apply rtc_refl. Qed.

Lemma lookup_table_cache_traces reference : traces (lookup_table_cache reference).
Proof.
  apply traces_get_context. intros c.
  destruct (read_table c _) as [table| |]; [|apply traces_throw|apply traces_ret].
  destruct (table_get _ _); [|apply traces_ret].
  apply traces_bind; [apply traces_log|]. intros _. apply traces_ret.
Qed.

Lemma lookup_row_cache_traces reference referencedRow :
  traces (lookup_row_cache reference referencedRow).
Proof.
  apply traces_get_context. intros c.
  destruct referencedRow; [|destruct (cache c !! _)]; apply traces_ret.
Qed.

Lemma fetch_and_cache_traces reference :
  traces (fetch_and_cache docId token server reference).
Proof.
  intros s. unfold fetch_and_cache. rewrite bind_get_context.
  apply traces_bind_at.
  - destruct (read_table _ _) eqn:Htable.
    + apply rtc_refl.
    + apply rtc_refl.
    + apply rtc_once. constructor. by apply read_table_NoTable in Htable as [? _].
  - intros _. apply traces_get_context. intros c.
    apply traces_bind.
    + destruct (read_table c _); [apply traces_ret|apply traces_throw|apply traces_throw].
    + intros row. apply traces_bind; [apply traces_cache_row|]. intros _. apply traces_ret.
Qed.

Lemma resolve_uncached_traces reference referencedRow :
  traces (resolve_uncached docId token server reference referencedRow).
Proof.
  apply traces_get_context. intros c.
  destruct referencedRow; [apply traces_ret|].
  destruct (cache c !! _); [apply traces_ret|].
  apply traces_try_catch.
  - apply traces_bind; [apply fetch_and_cache_traces|]. intros row. apply traces_ret.
  - intros e. apply traces_bind; [apply traces_log|]. intros _.
    apply traces_bind; [apply traces_cache_row|]. intros _. apply traces_ret.
Qed.

Section Bodies.
Variable expandRow : CodaRow → Z → Z → M CodaRow.
Hypothesis expandRow_traces : ∀ row currentDepth maxDepth,
  traces (expandRow row currentDepth maxDepth).

Lemma expandSingleReference_body_traces reference currentDepth maxDepth :
  traces (expandSingleReference_body docId token server expandRow reference
            currentDepth maxDepth).
Proof.
  apply traces_get_context. intros c.
  destruct (bool_decide _); [apply traces_ret|].
  apply traces_bind; [apply lookup_table_cache_traces|]. intros r1.
  apply traces_bind; [apply lookup_row_cache_traces|]. intros r2.
  apply traces_bind; [apply resolve_uncached_traces|]. intros [[row|]|].
  - apply traces_bind; [apply traces_mark|]. intros _.
    apply traces_bind; [apply expandRow_traces|]. intros deeper.
    apply traces_bind; [apply traces_log|]. intros _. apply traces_ret.
  - apply traces_bind; [apply traces_log|]. intros _. apply traces_ret.
  - apply traces_ret.
Qed.

Lemma expand_items_traces currentDepth maxDepth items expandedItems hasExpanded :
  traces (expand_items docId token server expandRow currentDepth maxDepth
            items expandedItems hasExpanded).
Proof.
  revert expandedItems hasExpanded.
  induction items as [|item rest IH]; intros expandedItems hasExpanded; simpl.
  - apply traces_ret.
  - destruct (negb _); [apply IH|].
    apply traces_bind; [apply expandSingleReference_body_traces|].
    intros [expanded|]; apply IH.
Qed.

Lemma expand_entries_traces currentDepth maxDepth entries expandedValues :
  traces (expand_entries docId token server expandRow currentDepth maxDepth
            entries expandedValues).
Proof.
  revert expandedValues.
  induction entries as [|[key value] rest IH]; intros expandedValues; simpl.
  - apply traces_ret.
  - destruct (isRawRowReference value).
    + apply traces_bind; [apply expandSingleReference_body_traces|].
      intros [expanded|]; apply IH.
    + destruct value; try apply IH.
      apply traces_bind; [apply expand_items_traces|].
      intros [expandedItems []]; apply IH.
Qed.

Lemma expandRowLookups_body_traces row currentDepth maxDepth :
  traces (expandRowLookups_body docId token server expandRow row currentDepth maxDepth).
Proof.
  unfold expandRowLookups_body. destruct (_ || _); [apply traces_ret|].
  apply traces_bind; [apply expand_entries_traces|]. intros values. apply traces_ret.
Qed.

End Bodies.

Lemma expandRowLookups_traces fuel row currentDepth maxDepth :
  traces (expandRowLookups docId token server fuel row currentDepth maxDepth).
Proof.
  revert row currentDepth maxDepth.
  induction fuel as [|fuel IH]; intros row currentDepth maxDepth; simpl.
  - apply traces_out_of_fuel.
  - by apply expandRowLookups_body_traces.
Qed.


(** An invariant of the steps is an invariant of the expansion. *)
Lemma steps_preserve (I : State → Prop) s s' :
  (∀ s1 s2, step s1 s2 → I s1 → I s2) → rtc step s s' → I s → I s'.
Proof. intros Hstep Hrtc. induction Hrtc; eauto. Qed.

(** The processed set only grows while one row is expanded. *)
Lemma step_keeps_processed key s s' :
  step s s' → key ∈ processedRefs (context s) → key ∈ processedRefs (context s').
Proof.
  intros Hstep Hkey. destruct Hstep as [s level message|s k|s k row|s tableId Hmiss]; simpl.
  - done.
  - set_solver.
  - done.
  - destruct (fetch_table_into_cache_spec docId token server tableId s) as (_ & _ & Hout).
    destruct (pages_outcome _ _); destruct Hout as [_ ->]; done.
Qed.

End Effects.

(** ** Table fetches and the request counter *)

Section Fetches.
Context `{JSNumber}.
Variables (docId token : string).
Variable server : list Request → Request → Pages.

Local Abbreviation step := (expansion_step docId token server).








End Fetches.

(** ** The processed set *)

Section Processed.
Context `{JSNumber}.
Variables (docId token : string).
Variable server : list Request → Request → Pages.

Local Abbreviation step := (expansion_step docId token server).

Section Bodies.
Variable expandRow : CodaRow → Z → Z → M CodaRow.
Variables currentDepth maxDepth : Z.

Local Abbreviation expandRef :=
  (expandSingleReference_body docId token server expandRow).






(** A reference found in the table-level cache: the row it names is expanded
    one level deeper, in a state that has the key in the processed set. *)
Lemma cached_reference_runs_marked reference s table target :
  refKey reference ∉ processedRefs (context s) →
  tableCache (context s) !! toStr (prop reference "tableId") = Some table →
  table_get table (prop reference "rowId") = Some target →
  expandRef reference currentDepth maxDepth s
  = bind (expandRow target (currentDepth + 1)%Z maxDepth)
         (fun deeper =>
            bind (log LDebug ("Expanded ref: " +:+ toStr (prop reference "rowId")
                              +:+ " at depth " +:+ pretty currentDepth))
                 (fun _ => ret (Some (expanded_reference reference deeper))))
         (found_and_marked reference s).
Proof.
  intros Hfresh Htable Htarget. unfold expandSingleReference_body.
  rewrite bind_get_context. rewrite bool_decide_eq_false_2 by done.
  unfold lookup_table_cache at 1. unfold bind at 1. rewrite bind_get_context.
  rewrite (read_table_cached _ _ _ Htable), Htarget.
  unfold bind at 1. cbn [log ret].
  unfold lookup_row_cache at 1. unfold bind at 1. rewrite bind_get_context.
  cbn [ret].
  unfold resolve_uncached at 1. unfold bind at 1. rewrite bind_get_context.
  cbn [ret].
  unfold bind at 1. cbn [update_context bind get_context set_context].
  reflexivity.
Qed.

Lemma cached_reference_is_expanded reference s table target deeper s' :
  refKey reference ∉ processedRefs (context s) →
  tableCache (context s) !! toStr (prop reference "tableId") = Some table →
  table_get table (prop reference "rowId") = Some target →
  expandRow target (currentDepth + 1)%Z maxDepth (found_and_marked reference s)
  = (Ok deeper, s') →
  expandRef reference currentDepth maxDepth s
  = (Ok (Some (expanded_reference reference deeper)),
     (log LDebug ("Expanded ref: " +:+ toStr (prop reference "rowId")
                  +:+ " at depth " +:+ pretty currentDepth) s').2).
Proof.
  intros Hfresh Htable Htarget Hrun.
  rewrite (cached_reference_runs_marked _ _ _ _ Hfresh Htable Htarget).
  by rewrite (bind_Ok _ _ _ _ _ Hrun).
Qed.

(** The loop over the entries assigns only to keys it visits. *)
Lemma expand_entries_other_keys entries expandedValues s values s' key :
  expand_entries docId token server expandRow currentDepth maxDepth
    entries expandedValues s = (Ok values, s') →
  key ∉ keys entries →
  obj_get values key = obj_get expandedValues key.
Proof.
  revert expandedValues s.
  induction entries as [|[k value] rest IH]; intros expandedValues s; simpl.
  - by intros [= ->].
  - intros Hrun [Hne Hrest]%not_elem_of_cons.
    destruct (isRawRowReference value).
    + unfold bind in Hrun at 1.
      destruct (expandRef value _ _ s) as [[[expanded|]|e|] s1]; try done.
      * rewrite (IH _ _ Hrun Hrest). by apply obj_get_set_ne.
      * by apply (IH _ _ Hrun).
    + destruct value; try by apply (IH _ _ Hrun).
      unfold bind in Hrun at 1.
      destruct (expand_items _ _ _ _ _ _ _ _ _ s) as [[[expandedItems []]|e|] s1];
        try done.
      * rewrite (IH _ _ Hrun Hrest). by apply obj_get_set_ne.
      * by apply (IH _ _ Hrun).
Qed.

End Bodies.

Lemma expanded_reference_is_expanded reference deeper :
  isRawRowReference reference = true →
  isExpandedRowReference (expanded_reference reference deeper) = true.
Proof.
  destruct reference as [| | | | | |fields]; try done.
  unfold isExpandedRowReference, expanded_reference, isRawRowReference,
    obj_has, obj_read; simpl.
  intros Href. rewrite !obj_get_set_ne by done. rewrite Href.
  by rewrite obj_get_set_eq.
Qed.



End Processed.

(** * Further properties *)

(** ** The normaliser, column by column *)

Section NormaliserShape.
Context `{JSNumber}.

Lemma obj_set_keeps_keys (o : Values) (k : string) (v : RawValue) :
  k ∈ keys o → keys (obj_set o k v) = keys o.
Proof.
  induction o as [|[k' v'] o IH]; simpl.
  - by intros ?%elem_of_nil.
  - intros Hin. destruct (str_eqb k' k) eqn:E; [done|].
    unfold keys in *; simpl. f_equal. apply IH.
    apply elem_of_cons in Hin as [->|]; [|done].
    by rewrite str_eqb_refl in E.
Qed.

Lemma normalize_cell_unrecognised (columnType : option string) (value : RawValue) :
  recognised columnType = false → normalize_cell columnType value = None.
Proof.
  unfold recognised, normalize_cell. destruct columnType as [ty|]; [|done].
  intros Hno. repeat (apply orb_false_iff in Hno as [Hno ?]).
  by repeat match goal with E : str_eqb _ _ = false |- _ => rewrite E; clear E end.
Qed.

Lemma normalize_loop_keys columnTypes (rest result : Values) :
  (∀ k, k ∈ keys rest → k ∈ keys result) →
  keys (fold_left (normalize_step columnTypes) rest result) = keys result.
Proof.
  revert result. induction rest as [|[k v] rest IH]; intros result Hin;
    cbn [fold_left]; [done|].
  assert (keys (normalize_step columnTypes result (k, v)) = keys result) as Hstep.
  { simpl. destruct (normalize_cell _ _); [|done].
    apply obj_set_keeps_keys, Hin. unfold keys; simpl. apply elem_of_cons. by left. }
  rewrite IH; [done|].
  intros k' Hk'. rewrite Hstep. apply Hin. unfold keys; simpl. apply elem_of_cons. by right.
Qed.

Lemma normalize_loop_other columnTypes (rest result : Values) (key : string) :
  recognised (columnTypes !! key) = false →
  obj_get (fold_left (normalize_step columnTypes) rest result) key = obj_get result key.
Proof.
  intros Hkey. revert result.
  induction rest as [|[k v] rest IH]; intros result; simpl; [done|].
  rewrite IH. destruct (normalize_cell (columnTypes !! k) v) as [v'|] eqn:E; [|done].
  apply obj_get_set_ne. intros ->.
  by rewrite normalize_cell_unrecognised in E.
Qed.

Lemma normalize_loop_idle columnTypes (rest result : Values) :
  (∀ k, k ∈ keys rest → recognised (columnTypes !! k) = false) →
  fold_left (normalize_step columnTypes) rest result = result.
Proof.
  revert result. induction rest as [|[k v] rest IH]; intros result Hno; simpl; [done|].
  rewrite normalize_cell_unrecognised.
  - apply IH. intros k' Hk'. apply Hno. unfold keys; simpl. apply elem_of_cons. by right.
  - apply Hno. unfold keys; simpl. apply elem_of_cons. by left.
Qed.

(** X1. The normaliser keeps the columns of a row and their order, leaves
    alone every column whose type it has no branch for, and is the identity
    when no column of the row has such a type, for instance when the column
    types could not be fetched. *)
Theorem normalizeEmptyToObject_keeps_columns (values : Values)
    (columnTypes : gmap string string) :
  keys (normalizeEmptyToObject values columnTypes) = keys values ∧
  (∀ key, recognised (columnTypes !! key) = false →
          obj_get (normalizeEmptyToObject values columnTypes) key = obj_get values key) ∧
  ((∀ key, key ∈ keys values → recognised (columnTypes !! key) = false) →
   normalizeEmptyToObject values columnTypes = values) ∧
  normalizeEmptyToObject values ∅ = values.
Proof.
  unfold normalizeEmptyToObject. split; [|split; [|split]].
  - by apply normalize_loop_keys.
  - intros key Hkey. by apply normalize_loop_other.
  - apply normalize_loop_idle.
  - apply normalize_loop_idle. intros k _. by rewrite lookup_empty.
Qed.

Lemma normalized_cell (values : Values) columnTypes (key : string) (value : RawValue) :
  NoDup (keys values) →
  obj_get values key = Some value →
  obj_get (normalizeEmptyToObject values columnTypes) key
  = Some (normalized_value columnTypes key value).
Proof.
  intros Hnd Hget. rewrite normalizeEmptyToObject_map by done.
  by rewrite obj_get_normalized, Hget.
Qed.

(** X2. What a normalised cell looks like: a number column always holds a
    number; an image or a lookup column always holds a list, which is the
    original list, the empty list, or the one correctly tagged object that
    was there; a link or a person column holds a tagged object whenever the
    cell was empty or a string, and the original value otherwise. *)
Theorem normalized_cell_shape (values : Values) (columnTypes : gmap string string)
    (key type : string) (value : RawValue) :
  NoDup (keys values) →
  columnTypes !! key = Some type →
  obj_get values key = Some value →
  let result := obj_get (normalizeEmptyToObject values columnTypes) key in
  (type = "number" ∨ type = "slider" ∨ type = "currency" →
   ∃ n, result = Some (VNum n)) ∧
  (type = "image" →
   ∃ items, result = Some (VArr items) ∧
     (value = VArr items ∨ items = [] ∨ (items = [value] ∧ isRawImage value = true))) ∧
  (type = "lookup" →
   ∃ items, result = Some (VArr items) ∧
     (value = VArr items ∨ items = [] ∨
      (items = [value] ∧ isRawRowReference value = true))) ∧
  (type = "link" →
   ∃ cell, result = Some cell ∧
     if is_empty_cell value || is_string value
     then isRawWebPage cell = true else cell = value) ∧
  (type = "person" →
   ∃ cell, result = Some cell ∧
     if is_empty_cell value || is_string value
     then isRawPerson cell = true else cell = value).
Proof.
  intros Hnd Hty Hget result.
  assert (result = Some (normalized_value columnTypes key value)) as ->
    by by apply normalized_cell.
  unfold normalized_value. rewrite Hty.
  split; [|split; [|split; [|split]]].
  - intros [-> | [-> | ->]]; destruct value; simpl; by eexists.
  - intros ->. destruct value as [| | | |s| |fields]; simpl;
      try (by eexists; split; [reflexivity|auto]).
    + destruct (str_eqb s ""); eexists; (split; [reflexivity|auto]).
    + destruct (obj_has fields "@type" && _) eqn:E;
        eexists; (split; [reflexivity|auto]).
  - intros ->. destruct value as [| | | |s| |fields]; simpl;
      try (by eexists; split; [reflexivity|auto]).
    + destruct (str_eqb s ""); eexists; (split; [reflexivity|auto]).
    + destruct (_ && is_str (obj_read fields "additionalType") "row") eqn:E;
        eexists; (split; [reflexivity|auto]).
  - intros ->. destruct value as [| | | |s| |fields]; simpl; try (by eexists; eauto).
    destruct (str_eqb s ""); by eexists.
  - intros ->. destruct value as [| | | |s| |fields]; simpl; try (by eexists; eauto).
    destruct (str_eqb s ""); by eexists.
Qed.

(** X3. The accessors agree with the normaliser: a link cell that held the
    string [s] reads back as [s] through [getLinkUrl], an empty one as the
    empty string, and likewise for a person cell and [getPersonName];
    [getImageUrl] gives the same result on an image cell before and after
    normalisation. *)
Theorem accessors_after_normalisation (values : Values)
    (columnTypes : gmap string string) (key : string) (value : RawValue) :
  NoDup (keys values) →
  obj_get values key = Some value →
  let result := obj_get (normalizeEmptyToObject values columnTypes) key in
  (columnTypes !! key = Some "link" →
   (∀ s, value = VStr s → getLinkUrl <$> result = Some (VStr s)) ∧
   (value = VNull ∨ value = VUndefined → getLinkUrl <$> result = Some (VStr ""))) ∧
  (columnTypes !! key = Some "person" →
   (∀ s, value = VStr s → getPersonName <$> result = Some (VStr s)) ∧
   (value = VNull ∨ value = VUndefined → getPersonName <$> result = Some (VStr ""))) ∧
  (columnTypes !! key = Some "image" →
   getImageUrl <$> result = Some (getImageUrl value)).
Proof.
  intros Hnd Hget result.
  assert (result = Some (normalized_value columnTypes key value)) as ->
    by by apply normalized_cell.
  unfold normalized_value.
  split; [|split].
  - intros ->. split.
    + intros s ->. simpl. destruct (str_eqb s "") eqn:E; [|done].
      by apply str_eqb_eq in E as ->.
    + by intros [-> | ->].
  - intros ->. split.
    + intros s ->. simpl. destruct (str_eqb s "") eqn:E; [|done].
      by apply str_eqb_eq in E as ->.
    + by intros [-> | ->].
  - intros ->. destruct value as [| | | |s|items|fields]; try done.
    + simpl. by destruct (str_eqb s "") eqn:E; destruct s.
    + simpl. unfold isRawImage, has_type_tag.
      destruct (obj_has fields "@type" && _) eqn:E; simpl; [|done].
      unfold isRawImage, has_type_tag. by rewrite E.
Qed.

End NormaliserShape.

(** ** The sanitiser, in depth *)

Section SanitiserDepth.
Context `{JSNumber}.

(** Induction on a value, with the property at hand for the items of a list
    and for the values of an object. *)
Lemma RawValue_induction (P : RawValue → Prop) :
  P VUndefined → P VNull → (∀ b, P (VBool b)) → (∀ n, P (VNum n)) → (∀ s, P (VStr s)) →
  (∀ items, Forall P items → P (VArr items)) →
  (∀ fields, Forall (fun entry : string * RawValue => P entry.2) fields → P (VObj fields)) →
  ∀ v, P v.
Proof.
  intros Hu Hn Hb Hnum Hs Harr Hobj. fix IH 1. intros [| |b|n|s|items|fields].
  - exact Hu.
  - exact Hn.
  - apply Hb.
  - apply Hnum.
  - apply Hs.
  - apply Harr. induction items as [|x items IHitems]; constructor; [apply IH|exact IHitems].
  - apply Hobj. induction fields as [|[k x] fields IHfields]; constructor;
      [apply IH|exact IHfields].
Qed.

Lemma obj_set_values (Q : RawValue → Prop) (o : Values) (k : string) (v : RawValue) :
  Forall (fun entry : string * RawValue => Q entry.2) o → Q v →
  Forall (fun entry : string * RawValue => Q entry.2) (obj_set o k v).
Proof.
  intros Ho Hv. induction Ho as [|[k' v'] o Hv' Ho IH]; simpl.
  - by constructor.
  - destruct (str_eqb k' k); constructor; done.
Qed.

Lemma rebuild_values (Q : RawValue → Prop) (g : RawValue → RawValue)
    (rest result : Values) :
  Forall (fun entry : string * RawValue => Q entry.2) result →
  Forall (fun entry : string * RawValue => Q (g entry.2)) rest →
  Forall (fun entry : string * RawValue => Q entry.2)
    (fold_left (fun (result : Values) '(k, v) => assign_fresh result k (g v)) rest result).
Proof.
  intros Hres Hrest. revert result Hres.
  induction Hrest as [|[k v] rest Hv _ IH]; intros result Hres; simpl; [done|].
  apply IH. unfold assign_fresh. destruct (str_eqb k "__proto__"); [done|].
  by apply obj_set_values.
Qed.

Lemma existsb_false {A} (f : A → bool) (l : list A) :
  Forall (fun x => f x = false) l → existsb f l = false.
Proof. induction 1 as [|x l Hx _ IH]; simpl; [done|]. by rewrite Hx, IH. Qed.

Lemma cleanValue_no_undefined (v : RawValue) : contains_undefined (cleanValue v) = false.
Proof.
  induction v as [| | | | |items IH|fields IH] using RawValue_induction; try done.
  - simpl. apply existsb_false. by apply Forall_map.
  - simpl. apply existsb_false.
    apply (rebuild_values (fun x => contains_undefined x = false) cleanValue); [constructor|].
    exact IH.
Qed.

Lemma Forall_values_lookup (Q : RawValue → Prop) (o : Values) (k : string) (v : RawValue) :
  Forall (fun entry : string * RawValue => Q entry.2) o → obj_get o k = Some v → Q v.
Proof.
  induction 1 as [|[k' v'] o Hv' _ IH]; simpl; [done|].
  destruct (str_eqb k' k); [by intros [= <-]|exact IH].
Qed.

(** X4. The sanitiser leaves no [undefined] behind, at any depth: in what
    [cleanValue] returns and in every cell that [cleanValues] returns.  Apart
    from turning [undefined] into [null] it keeps the kind of a value, and the
    length of a list. *)
Theorem sanitiser_removes_undefined (v : RawValue) (values : Values) :
  contains_undefined (cleanValue v) = false ∧
  (∀ key cell, obj_get (cleanValues values) key = Some cell →
               contains_undefined cell = false) ∧
  cleanValue VUndefined = VNull ∧
  (v ≠ VUndefined → kind_of (cleanValue v) = kind_of v).
Proof.
  split; [|split; [|split]].
  - apply cleanValue_no_undefined.
  - intros key cell.
    apply (Forall_values_lookup (fun x => contains_undefined x = false)).
    apply (rebuild_values (fun x => contains_undefined x = false) cleanValue); [constructor|].
    apply Forall_forall. intros entry _. apply cleanValue_no_undefined.
  - done.
  - intros Hv. destruct v; try done. simpl. by rewrite length_map.
Qed.

Lemma obj_get_cleaned (fields : Values) (k : string) :
  obj_get (map cleaned_entry fields) k = cleanValue <$> obj_get fields k.
Proof.
  induction fields as [|[k' v] fields IH]; simpl; [done|].
  by destruct (str_eqb k' k).
Qed.

Lemma cleaned_fields_lookup (fields : Values) (k : string) :
  NoDup (keys fields) → "__proto__" ∉ keys fields →
  obj_get (fields_of (cleanValue (VObj fields))) k = cleanValue <$> obj_get fields k.
Proof.
  intros Hnd Hproto. rewrite cleanValue_object by done. simpl. apply obj_get_cleaned.
Qed.

Lemma cleaned_tag (fields : Values) (tag : string) :
  NoDup (keys fields) → "__proto__" ∉ keys fields → cleanString tag = tag →
  has_type_tag (VObj fields) tag = true →
  has_type_tag (cleanValue (VObj fields)) tag = true.
Proof.
  intros Hnd Hproto Htag. rewrite cleanValue_object by done.
  unfold has_type_tag, obj_has, obj_read. rewrite obj_get_cleaned.
  destruct (obj_get fields "@type") as [[| | | |s| |]|]; simpl; try done.
  intros Hs%str_eqb_eq. subst s. rewrite Htag. apply str_eqb_refl.
Qed.

Lemma cleaned_row_reference (fields : Values) :
  NoDup (keys fields) → "__proto__" ∉ keys fields →
  isRawRowReference (VObj fields) = true →
  isRawRowReference (cleanValue (VObj fields)) = true.
Proof.
  intros Hnd Hproto. rewrite cleanValue_object by done.
  unfold isRawRowReference, obj_has, obj_read. rewrite !obj_get_cleaned.
  destruct (obj_get fields "@type") as [[| | | |s| |]|]; simpl; try done.
  destruct (obj_get fields "additionalType") as [[| | | |s'| |]|]; simpl;
    rewrite ?andb_false_r, ?andb_true_r; try done.
  intros [Hs%str_eqb_eq Hs'%str_eqb_eq]%andb_true_iff. subst s s'. reflexivity.
Qed.

(** X5. Cleaning an object cleans each of its properties and keeps its tag.
    The object has distinct keys, none of them [__proto__]: [cleanValue]
    assigns its entries to a fresh object, where an assignment to [__proto__]
    adds no property and may replace the prototype.  A property that the
    object has reads cleaned; a name that the object has not and that names
    no member of [Object.prototype] reads [undefined], as it did.  An image, a
    web page, a person and a row reference are still recognised as such by
    the type guards after [cleanValue], and [getLinkUrl] then reads the
    cleaned [url]. *)
Theorem sanitiser_keeps_tags (fields : Values) :
  NoDup (keys fields) →
  "__proto__" ∉ keys fields →
  let value := VObj fields in
  (∀ key v, obj_get fields key = Some v → prop (cleanValue value) key = cleanValue v) ∧
  (∀ key, obj_get fields key = None → inherited key = false →
          prop (cleanValue value) key = VUndefined) ∧
  (isRawImage value = true → isRawImage (cleanValue value) = true) ∧
  (isRawWebPage value = true → isRawWebPage (cleanValue value) = true) ∧
  (isRawPerson value = true → isRawPerson (cleanValue value) = true) ∧
  (isRawRowReference value = true → isRawRowReference (cleanValue value) = true) ∧
  (isRawWebPage value = true →
   getLinkUrl (cleanValue value) = prop (cleanValue value) "url").
Proof.
  intros Hnd Hproto value. unfold value.
  split; [|split; [|split; [|split; [|split; [|split]]]]].
  - intros key v Hv. unfold prop, obj_read. rewrite cleaned_fields_lookup by done.
    by rewrite Hv.
  - intros key Hnone _. unfold prop, obj_read. rewrite cleaned_fields_lookup by done.
    by rewrite Hnone.
  - by apply cleaned_tag.
  - by apply cleaned_tag.
  - by apply cleaned_tag.
  - by apply cleaned_row_reference.
  - intros Hweb. pose proof (cleaned_tag fields "WebPage" Hnd Hproto eq_refl Hweb) as Hweb'.
    rewrite cleanValue_object in * by done. unfold getLinkUrl, isRawWebPage.
    by rewrite Hweb'.
Qed.

End SanitiserDepth.

(** ** The session state across the rows of one call *)

Section Session.
Context `{JSNumber}.
Variables (docId token : string).
Variable server : list Request → Request → Pages.

Local Abbreviation sstep := (session_step docId token server).
Local Abbreviation session_traces := (session_traces docId token server).

Lemma session_traces_ret {A} (a : A) : session_traces (ret a).
Proof. intros s. apply rtc_refl. Qed.

Lemma session_traces_bind_at {A B} (m : M A) (k : A → M B) s :
  rtc sstep s (m s).2 →
  (∀ a s1, m s = (Ok a, s1) → rtc sstep s1 (k a s1).2) →
  rtc sstep s (bind m k s).2.
Proof.
  intros Hm Hk. unfold bind.
  destruct (m s) as [[a|e|] s1] eqn:E; simpl in *; try done.
  etrans; [exact Hm|]. by apply Hk.
Qed.

Lemma session_traces_bind {A B} (m : M A) (k : A → M B) :
  session_traces m → (∀ a, session_traces (k a)) → session_traces (bind m k).
Proof. intros Hm Hk s. apply session_traces_bind_at; [apply Hm|]. intros a s1 _. apply Hk. Qed.

Lemma session_traces_try_catch_at {A} (m : M A) (handler : Error → M A) s :
  rtc sstep s (m s).2 →
  (∀ e s1, m s = (Throw e, s1) → rtc sstep s1 (handler e s1).2) →
  rtc sstep s (try_catch m handler s).2.
Proof.
  intros Hm Hh. unfold try_catch.
  destruct (m s) as [[a|e|] s1] eqn:E; simpl in *; try done.
  etrans; [exact Hm|]. by apply Hh.
Qed.

Lemma session_traces_try_catch {A} (m : M A) (handler : Error → M A) :
  session_traces m → (∀ e, session_traces (handler e)) →
  session_traces (try_catch m handler).
Proof.
  intros Hm Hh s. apply session_traces_try_catch_at; [apply Hm|]. intros e s1 _. apply Hh.
Qed.

Lemma session_traces_get_context {B} (k : ProcessingContext → M B) :
  (∀ c, session_traces (k c)) → session_traces (bind get_context k).
Proof. intros Hk s. rewrite bind_get_context. apply Hk. Qed.

Lemma session_traces_log level message : session_traces (log level message).
Proof. intros s. apply rtc_once. constructor. Qed.

Lemma session_traces_mark key : session_traces (update_context (mark_processed key)).
Proof. intros s. apply rtc_once. constructor. Qed.

Lemma session_traces_clear : session_traces (update_context clear_processed).
Proof. intros s. apply rtc_once. constructor. Qed.

Lemma session_traces_out_of_fuel {A} : session_traces (out_of_fuel (A := A)).
Proof. intros s. apply rtc_refl. Qed.

Lemma session_traces_throw {A} e : session_traces (throw (A := A) e).
Proof. intros s. apply rtc_refl. Qed.

Lemma lookup_table_cache_session reference : session_traces (lookup_table_cache reference).
Proof.
  apply session_traces_get_context. intros c.
  destruct (read_table c _) as [table| |];
    [|apply session_traces_throw|apply session_traces_ret].
  destruct (table_get _ _); [|apply session_traces_ret].
  apply session_traces_bind; [apply session_traces_log|]. intros _. apply session_traces_ret.
Qed.

Lemma lookup_row_cache_session reference referencedRow :
  session_traces (lookup_row_cache reference referencedRow).
Proof.
  apply session_traces_get_context. intros c.
  destruct referencedRow; [|destruct (cache c !! _)]; apply session_traces_ret.
Qed.

(** A fetch leaves the row-level cache as it is and adds at most the table
    it fetched to the table-level cache. *)
Lemma fetch_table_into_cache_caches tableId s :
  let s' := (fetch_table_into_cache docId token server tableId s).2 in
  cache (context s') = cache (context s) ∧
  processedRefs (context s') = processedRefs (context s) ∧
  requestCount (context s') = S (requestCount (context s)) ∧
  (tableCache (context s') = tableCache (context s) ∨
   ∃ table,
     pages_outcome (server (requests s) (page_request docId token tableId None)) ∅
     = inr table ∧
     tableCache (context s') = <[tableId := table]> (tableCache (context s))) ∧
  (∃ more, requests s' = requests s ++ page_request docId token tableId None :: more) ∧
  (∃ lines, logs s' = logs s ++ lines).
Proof.
  destruct (fetch_table_into_cache_spec docId token server tableId s)
    as ((more & Hmore & _) & Hlogs & Hout).
  cbv zeta. destruct (pages_outcome _ _) as [f|table]; destruct Hout as [_ ->]; simpl.
  - split; [done|]. split; [done|]. split; [done|]. split; [by left|].
    split; [by exists more|done].
  - split; [done|]. split; [done|]. split; [done|]. split; [right; by exists table|].
    split; [by exists more|done].
Qed.

Lemma table_get_Some table key row :
  table_get table key = Some row → ∃ k, key = VStr k ∧ table !! k = Some row.
Proof. destruct key; try done. intros Hrow. by eexists. Qed.

Lemma cache_row_step s reference row :
  cache (context s) !! refKey reference = None →
  (∀ r, row = Some r → referenced_row (context s) reference r) →
  rtc sstep s (update_context (cache_row (refKey reference) row) s).2.
Proof. intros Hmiss Hrow. apply rtc_once. by constructor. Qed.

Lemma fetch_and_cache_hit reference s table :
  tableCache (context s) !! toStr (prop reference "tableId") = Some table →
  fetch_and_cache docId token server reference s
  = (Ok (table_get table (prop reference "rowId")),
     (update_context (cache_row (refKey reference)
                        (table_get table (prop reference "rowId"))) s).2).
Proof.
  intros Htable%read_table_cached. unfold fetch_and_cache.
  rewrite bind_get_context, Htable.
  unfold bind. simpl. by rewrite Htable.
Qed.

Lemma fetch_and_cache_inherited reference s :
  read_table (context s) (toStr (prop reference "tableId")) = PrototypeMember →
  fetch_and_cache docId token server reference s = (Throw get_is_not_a_function, s).
Proof.
  intros Htable. unfold fetch_and_cache. rewrite bind_get_context, Htable.
  unfold bind. simpl. by rewrite Htable.
Qed.

Lemma fetch_and_cache_miss reference s :
  read_table (context s) (toStr (prop reference "tableId")) = NoTable →
  fetch_and_cache docId token server reference s
  = match fetch_table_into_cache docId token server (toStr (prop reference "tableId")) s with
    | (Ok _, s1) =>
        match read_table (context s1) (toStr (prop reference "tableId")) with
        | CachedTable table =>
            (Ok (table_get table (prop reference "rowId")),
             (update_context (cache_row (refKey reference)
                                (table_get table (prop reference "rowId"))) s1).2)
        | PrototypeMember => (Throw get_is_not_a_function, s1)
        | NoTable => (Throw get_of_undefined, s1)
        end
    | (Throw e, s1) => (Throw e, s1)
    | (OutOfFuel, s1) => (OutOfFuel, s1)
    end.
Proof.
  intros Htable. unfold fetch_and_cache. rewrite bind_get_context, Htable.
  unfold bind at 1.
  destruct (fetch_table_into_cache _ _ _ _ s) as [[[]|e|] s1]; [|done|done].
  rewrite bind_get_context. unfold bind at 1.
  by destruct (read_table (context s1) _).
Qed.

(** The [try] block of step 3, entered when the row-level cache has no
    entry under the key of the reference. *)
Lemma fetch_and_cache_session reference s :
  cache (context s) !! refKey reference = None →
  rtc sstep s (fetch_and_cache docId token server reference s).2 ∧
  cache (context (fetch_and_cache docId token server reference s).2) !! refKey reference
  = match (fetch_and_cache docId token server reference s).1 with
    | Ok row => Some row
    | _ => None
    end.
Proof.
  intros Hmiss.
  destruct (read_table (context s) (toStr (prop reference "tableId")))
    as [table| |] eqn:Htable.
  - apply read_table_CachedTable in Htable.
    rewrite (fetch_and_cache_hit _ _ _ Htable). cbn [fst snd].
    split; [|simpl; by rewrite lookup_insert_eq].
    apply (cache_row_step s); [done|].
    intros r Hr. by exists table.
  - rewrite (fetch_and_cache_inherited _ _ Htable). cbn [fst snd].
    split; [apply rtc_refl|done].
  - rewrite (fetch_and_cache_miss _ _ Htable).
    destruct (fetch_table_into_cache_caches (toStr (prop reference "tableId")) s)
      as (Hcache & _).
    apply read_table_NoTable in Htable as [Htable _].
    pose proof (session_fetch docId token server s _ Htable) as Hfetch.
    destruct (fetch_table_into_cache _ _ _ _ s) as [[[]|e|] s1];
      cbn [fst snd] in *.
    + destruct (read_table (context s1) _) as [t| |] eqn:Ht; cbn [fst snd].
      * split; [|simpl; by rewrite lookup_insert_eq].
        etrans; [by apply rtc_once|].
        apply (cache_row_step s1); [by rewrite Hcache|].
        intros r Hr. apply read_table_CachedTable in Ht. by exists t.
      * split; [by apply rtc_once|by rewrite Hcache].
      * split; [by apply rtc_once|by rewrite Hcache].
    + split; [by apply rtc_once|by rewrite Hcache].
    + split; [by apply rtc_once|by rewrite Hcache].
Qed.

Lemma resolve_uncached_session reference referencedRow :
  session_traces (resolve_uncached docId token server reference referencedRow).
Proof.
  intros s. unfold resolve_uncached. rewrite bind_get_context.
  destruct referencedRow; [apply rtc_refl|].
  destruct (cache (context s) !! _) eqn:Hmiss; [apply rtc_refl|].
  destruct (fetch_and_cache_session reference s Hmiss) as [Hsteps Hcache].
  apply session_traces_try_catch_at.
  - apply session_traces_bind_at; [exact Hsteps|]. intros row s1 _. apply rtc_refl.
  - intros e s1 Hthrow.
    assert (fetch_and_cache docId token server reference s = (Throw e, s1)) as E.
    { unfold bind in Hthrow.
      destruct (fetch_and_cache _ _ _ _ s) as [[row|e'|] s2]; by inversion Hthrow. }
    rewrite E in Hcache. simpl in Hcache.
    apply session_traces_bind_at; [apply session_traces_log|]. intros [] s2 Hlog.
    apply session_traces_bind_at; [|intros; apply rtc_refl].
    apply cache_row_step; [|done].
    unfold log in Hlog. injection Hlog as <-. exact Hcache.
Qed.

Section Bodies.
Variable expandRow : CodaRow → Z → Z → M CodaRow.
Hypothesis expandRow_session : ∀ row currentDepth maxDepth,
  session_traces (expandRow row currentDepth maxDepth).

Lemma expandSingleReference_body_session reference currentDepth maxDepth :
  session_traces (expandSingleReference_body docId token server expandRow reference
                    currentDepth maxDepth).
Proof.
  apply session_traces_get_context. intros c.
  destruct (bool_decide _); [apply session_traces_ret|].
  apply session_traces_bind; [apply lookup_table_cache_session|]. intros r1.
  apply session_traces_bind; [apply lookup_row_cache_session|]. intros r2.
  apply session_traces_bind; [apply resolve_uncached_session|]. intros [[row|]|].
  - apply session_traces_bind; [apply session_traces_mark|]. intros _.
    apply session_traces_bind; [apply expandRow_session|]. intros deeper.
    apply session_traces_bind; [apply session_traces_log|]. intros _. apply session_traces_ret.
  - apply session_traces_bind; [apply session_traces_log|]. intros _. apply session_traces_ret.
  - apply session_traces_ret.
Qed.

Lemma expand_items_session currentDepth maxDepth items expandedItems hasExpanded :
  session_traces (expand_items docId token server expandRow currentDepth maxDepth
                    items expandedItems hasExpanded).
Proof.
  revert expandedItems hasExpanded.
  induction items as [|item rest IH]; intros expandedItems hasExpanded; simpl.
  - apply session_traces_ret.
  - destruct (negb _); [apply IH|].
    apply session_traces_bind; [apply expandSingleReference_body_session|].
    intros [expanded|]; apply IH.
Qed.

Lemma expand_entries_session currentDepth maxDepth entries expandedValues :
  session_traces (expand_entries docId token server expandRow currentDepth maxDepth
                    entries expandedValues).
Proof.
  revert expandedValues.
  induction entries as [|[key value] rest IH]; intros expandedValues; simpl.
  - apply session_traces_ret.
  - destruct (isRawRowReference value).
    + apply session_traces_bind; [apply expandSingleReference_body_session|].
      intros [expanded|]; apply IH.
    + destruct value; try apply IH.
      apply session_traces_bind; [apply expand_items_session|].
      intros [expandedItems []]; apply IH.
Qed.

Lemma expandRowLookups_body_session row currentDepth maxDepth :
  session_traces (expandRowLookups_body docId token server expandRow row
                    currentDepth maxDepth).
Proof.
  unfold expandRowLookups_body. destruct (_ || _); [apply session_traces_ret|].
  apply session_traces_bind; [apply expand_entries_session|]. intros values. apply session_traces_ret.
Qed.

End Bodies.

Lemma expandRowLookups_session fuel row currentDepth maxDepth :
  session_traces (expandRowLookups docId token server fuel row currentDepth maxDepth).
Proof.
  revert row currentDepth maxDepth.
  induction fuel as [|fuel IH]; intros row currentDepth maxDepth; simpl.
  - apply session_traces_out_of_fuel.
  - by apply expandRowLookups_body_session.
Qed.

Lemma expandSingleReference_session fuel reference currentDepth maxDepth :
  session_traces (expandSingleReference docId token server fuel reference
                    currentDepth maxDepth).
Proof.
  apply expandSingleReference_body_session. intros. apply expandRowLookups_session.
Qed.

Lemma expand_rows_session maxDepth rows expandedRows :
  session_traces (expand_rows docId token server maxDepth rows expandedRows).
Proof.
  revert expandedRows. induction rows as [|row rows IH]; intros expandedRows; simpl.
  - apply session_traces_ret.
  - apply session_traces_bind; [|intros row'; apply IH].
    apply session_traces_bind; [apply session_traces_clear|]. intros _.
    apply session_traces_try_catch; [apply expandRowLookups_session|].
    intros e. apply session_traces_bind; [apply session_traces_log|]. intros _. apply session_traces_ret.
Qed.

Lemma session_steps_preserve (I : State → Prop) s s' :
  (∀ s1 s2, sstep s1 s2 → I s1 → I s2) → rtc sstep s s' → I s → I s'.
Proof. intros Hstep Hrtc. induction Hrtc; eauto. Qed.

End Session.

Section SessionInvariants.
Context `{JSNumber}.
Variables (docId token : string).
Variable server : list Request → Request → Pages.

Local Abbreviation sstep := (session_step docId token server).
Local Abbreviation session_coherent := (session_coherent docId token server).

Lemma session_extends_refl s : session_extends s s.
Proof. by repeat split. Qed.

Lemma session_extends_trans s1 s2 s3 :
  session_extends s1 s2 → session_extends s2 s3 → session_extends s1 s3.
Proof.
  intros (Ht1 & Hc1 & Hn1 & Hr1 & Hl1) (Ht2 & Hc2 & Hn2 & Hr2 & Hl2).
  split; [auto|]. split; [auto|]. split; [lia|].
  split; by etrans.
Qed.

Lemma step_extends s s' : sstep s s' → session_extends s s'.
Proof.
  intros Hstep.
  destruct Hstep as [s level message|s key|s|s reference row Hmiss _|s tableId Hmiss].
  - split; [done|]. split; [done|]. split; [done|]. split; [done|].
    simpl. by apply prefix_app_r.
  - by repeat split.
  - by repeat split.
  - split; [done|]. split; [|by repeat split].
    simpl. intros key entry Hentry. rewrite lookup_insert_ne; [done|].
    intros <-. by rewrite Hmiss in Hentry.
  - destruct (fetch_table_into_cache_caches docId token server tableId s)
      as (Hcache & _ & Hcount & Htables & (more & Hmore) & (lines & Hlines)).
    split; [|split; [|split; [|split]]].
    + intros t table Htable. destruct Htables as [->|(new & _ & ->)]; [done|].
      rewrite lookup_insert_ne; [done|]. intros <-. by rewrite Hmiss in Htable.
    + by rewrite Hcache.
    + rewrite Hcount. lia.
    + rewrite Hmore. by apply prefix_app_r.
    + rewrite Hlines. by apply prefix_app_r.
Qed.

Lemma steps_extend s s' : rtc sstep s s' → session_extends s s'.
Proof.
  intros Hsteps.
  eapply (session_steps_preserve docId token server (session_extends s));
    [|exact Hsteps|apply session_extends_refl].
  intros s1 s2 Hstep Hs1. eapply session_extends_trans; [exact Hs1|].
  by apply step_extends.
Qed.

(** X6. While the rows of one call are expanded nothing is taken out of the
    session state: a cached table and an entry of the row-level cache (a
    row, or the null that records a failed lookup) stay as first written,
    the request counter does not decrease, and the requests and the log
    lines made so far stay, in their order, at the front of what is made
    later.  This holds for the expansion of one row, of one reference, and
    for the loop over the rows. *)
Theorem session_state_only_grows (fuel : nat) (row : CodaRow) (reference : RawValue)
    (currentDepth maxDepth : Z) (rows expandedRows : list CodaRow) (s : State) :
  session_extends s
    (expandRowLookups docId token server fuel row currentDepth maxDepth s).2 ∧
  session_extends s
    (expandSingleReference docId token server fuel reference currentDepth maxDepth s).2 ∧
  session_extends s
    (expand_rows docId token server maxDepth rows expandedRows s).2.
Proof.
  split; [|split]; apply steps_extend.
  - apply expandRowLookups_session.
  - apply expandSingleReference_session.
  - apply expand_rows_session.
Qed.

Lemma store_items_keyed (items : list CodaRow) (rowsMap : gmap string CodaRow) :
  (∀ k row, rowsMap !! k = Some row → row_id row = k) →
  ∀ k row, store_items rowsMap items !! k = Some row → row_id row = k.
Proof.
  revert rowsMap. induction items as [|item items IH]; intros rowsMap Hkeyed; [done|].
  simpl. apply IH. intros k row.
  destruct (decide (row_id item = k)) as [<-|Hne].
  - rewrite lookup_insert_eq. by intros [= <-].
  - rewrite lookup_insert_ne by done. apply Hkeyed.
Qed.

Lemma pages_outcome_keyed (pages : Pages) (rowsMap table : gmap string CodaRow) :
  (∀ k row, rowsMap !! k = Some row → row_id row = k) →
  pages_outcome pages rowsMap = inr table →
  ∀ k row, table !! k = Some row → row_id row = k.
Proof.
  revert rowsMap. induction pages as [f|items|items next rest IH];
    intros rowsMap Hkeyed; simpl.
  - done.
  - intros [= <-]. by apply store_items_keyed.
  - destruct (truthy_string next).
    + apply IH. by apply store_items_keyed.
    + intros [= <-]. by apply store_items_keyed.
Qed.

Lemma cached_tables_keyed base s :
  cached_tables_fetched docId token server base s → tables_keyed_by_id (context s).
Proof.
  intros Hfetched tableId table k row Htable Hrow.
  destruct (Hfetched _ _ Htable) as (history & more & _ & _ & Hout).
  eapply pages_outcome_keyed; [|exact Hout|exact Hrow]. intros ? ?. by rewrite lookup_empty.
Qed.

Lemma referenced_row_tables c c' reference row :
  (∀ tableId table, tableCache c !! tableId = Some table →
                    tableCache c' !! tableId = Some table) →
  referenced_row c reference row → referenced_row c' reference row.
Proof. intros Htables (table & Htable & Hrow). exists table. auto. Qed.

Lemma step_coherent base s s' :
  sstep s s' → session_coherent base s → session_coherent base s'.
Proof.
  intros Hstep (Hbase & Hrows & Htables).
  destruct Hstep as [s level message|s key|s|s reference row Hmiss Hrow|s tableId Hmiss].
  - done.
  - done.
  - done.
  - split; [done|]. split; [|done].
    intros key r. simpl. destruct (decide (refKey reference = key)) as [<-|Hne].
    + rewrite lookup_insert_eq. intros [= ->]. exists reference. split; [done|].
      by apply Hrow.
    + rewrite lookup_insert_ne by done. apply Hrows.
  - pose proof (step_extends _ _ (session_fetch docId token server s tableId Hmiss))
      as (Hkeep & _).
    destruct (fetch_table_into_cache_caches docId token server tableId s)
      as (Hcache & _ & _ & Hnew & (more & Hmore) & _).
    split; [|split].
    + rewrite Hmore, length_app. lia.
    + intros key r. rewrite Hcache. intros Hentry.
      destruct (Hrows _ _ Hentry) as (reference & Hkey & Hr).
      exists reference. split; [done|]. by eapply referenced_row_tables.
    + intros t table Htable.
      assert (tableCache (context s) !! t = Some table ∨
              (t = tableId ∧
               pages_outcome (server (requests s) (page_request docId token tableId None)) ∅
               = inr table)) as [Hold|[-> Hout]].
      { destruct Hnew as [Hsame|(new & Hout & Hins)].
        - left. by rewrite <- Hsame.
        - rewrite Hins in Htable. destruct (decide (tableId = t)) as [<-|Hne].
          + rewrite lookup_insert_eq in Htable. injection Htable as <-. by right.
          + rewrite lookup_insert_ne in Htable by done. by left. }
      * destruct (Htables _ _ Hold) as (history & rest & Hreq & Hlen & Hout).
        exists history, (rest ++ page_request docId token tableId None :: more).
        split; [|done]. rewrite Hmore, Hreq, <- app_assoc. done.
      * exists (requests s), more. done.
Qed.

(** X7. At the end of an [expandLookups] call that expands (a positive
    depth) the two caches of the session agree with each other and with the
    requests of the call: every cached table is what one fetch of that table,
    made during the call and answered in full, assembled; it files each row
    under the id of the row; and every row of the row-level cache is the row
    that a reference with the key of the entry names in a cached table. *)
Theorem session_caches_are_coherent (rows : list CodaRow) (maxDepth : Z) (s : State) :
  (0 < maxDepth)%Z →
  let final := (expandLookups docId token server rows maxDepth s).2 in
  cached_tables_fetched docId token server (length (requests s)) final ∧
  tables_keyed_by_id (context final) ∧
  cached_rows_in_tables (context final).
Proof.
  intros Hdepth final.
  assert (session_coherent (length (requests s)) final) as (_ & Hrows & Htables).
  { unfold final, expandLookups. destruct (Z.leb_spec maxDepth 0) as [|_]; [lia|].
    unfold bind at 1. cbn [log fst snd]. unfold bind at 1. cbn [set_context fst snd].
    eapply (session_steps_preserve docId token server);
      [intros s1 s2; apply step_coherent|apply expand_rows_session|].
    split; [done|]. split.
    - intros key row. simpl. by rewrite lookup_empty.
    - intros t table. simpl. by rewrite lookup_empty. }
  split; [done|]. split; [|done]. by eapply cached_tables_keyed.
Qed.

End SessionInvariants.

(** ** The shape of what an expansion returns *)

Section ResultShape.
Context `{JSNumber}.
Variables (docId token : string).
Variable server : list Request → Request → Pages.

Lemma entries_expansion_refl (values : Values) : Forall2 entry_expansion_of values values.
Proof.
  induction values as [|entry values IH]; constructor; [|done].
  split; [done|]. by left; left.
Qed.

Lemma row_expansion_refl (row : CodaRow) : row_expansion_of row row.
Proof. split; [by rewrite with_values_same|apply entries_expansion_refl]. Qed.

Lemma entries_expansion_keys (original result : Values) :
  Forall2 entry_expansion_of original result → keys result = keys original.
Proof.
  induction 1 as [|entry entry' original result [Hkey _] _ IH]; [done|].
  unfold keys in *. simpl. by rewrite Hkey, IH.
Qed.

Section Bodies.
Variable expandRow : CodaRow → Z → Z → M CodaRow.
Variables currentDepth maxDepth : Z.

Lemma expandSingleReference_body_shape reference :
  yields (expandSingleReference_body docId token server expandRow reference
            currentDepth maxDepth)
         (fun result => ∀ expanded, result = Some expanded →
                                    ∃ deeper, expanded = expanded_reference reference deeper).
Proof.
  unfold expandSingleReference_body. apply yields_then. intros c.
  destruct (bool_decide _); [by apply yields_ret|].
  apply yields_then. intros r1. apply yields_then. intros r2.
  apply yields_then. intros [[row|]|].
  - apply yields_then. intros _. apply yields_then. intros deeper.
    apply yields_then. intros _. apply yields_ret.
    intros expanded [= <-]. by exists deeper.
  - apply yields_then. intros _. by apply yields_ret.
  - by apply yields_ret.
Qed.

Lemma expand_items_shape items done expandedItems hasExpanded :
  Forall2 expansion_of done expandedItems →
  yields (expand_items docId token server expandRow currentDepth maxDepth
            items expandedItems hasExpanded)
         (fun r => Forall2 expansion_of (done ++ items) r.1).
Proof.
  revert done expandedItems hasExpanded.
  induction items as [|item rest IH]; intros done expandedItems hasExpanded Hdone; simpl.
  - apply yields_ret. by rewrite app_nil_r.
  - rewrite (cons_middle item done rest), app_assoc.
    destruct (isRawRowReference item) eqn:Href; simpl.
    + eapply yields_bind; [apply expandSingleReference_body_shape|].
      intros [expanded|] Hshape.
      * apply IH. apply Forall2_app; [done|]. constructor; [|done].
        right. split; [done|]. by apply Hshape.
      * apply IH. apply Forall2_app; [done|]. constructor; [|done]. by left.
    + apply IH. apply Forall2_app; [done|]. constructor; [|done]. by left.
Qed.

Lemma expand_entries_shape entries done expandedDone :
  Forall2 entry_expansion_of done expandedDone →
  NoDup (keys (done ++ entries)) →
  yields (expand_entries docId token server expandRow currentDepth maxDepth
            entries (expandedDone ++ entries))
         (fun values => Forall2 entry_expansion_of (done ++ entries) values).
Proof.
  revert done expandedDone.
  induction entries as [|[key value] rest IH]; intros done expandedDone Hdone Hkeys.
  - simpl. apply yields_ret. by rewrite !app_nil_r.
  - assert (key ∉ keys expandedDone) as Hfresh.
    { rewrite (entries_expansion_keys _ _ Hdone).
      unfold keys in *. rewrite map_app in Hkeys. simpl in Hkeys.
      apply NoDup_app in Hkeys as (_ & Hsep & _).
      intros Hin. apply (Hsep _ Hin). by left. }
    assert (∀ new, cell_expansion_of value new →
              yields (expand_entries docId token server expandRow currentDepth maxDepth
                        rest (expandedDone ++ (key, new) :: rest))
                     (fun values =>
                        Forall2 entry_expansion_of (done ++ (key, value) :: rest) values))
      as Hnext.
    { intros new Hnew.
      rewrite (cons_middle (key, value) done rest), app_assoc.
      rewrite (cons_middle (key, new) expandedDone rest), app_assoc.
      apply IH.
      - apply Forall2_app; [done|]. constructor; [|done]. by split.
      - by rewrite <- app_assoc. }
    simpl. destruct (isRawRowReference value) eqn:Href.
    + eapply yields_bind; [apply expandSingleReference_body_shape|].
      intros [expanded|] Hshape.
      * rewrite obj_set_at by done. apply Hnext. left. right. split; [done|].
        by apply Hshape.
      * apply Hnext. by left; left.
    + destruct value as [| | | | |items|]; try (apply Hnext; by left; left).
      eapply yields_bind; [by apply (expand_items_shape items [] [] false)|].
      intros [expandedItems hasExpanded] Hitems. simpl in Hitems.
      destruct hasExpanded.
      * rewrite obj_set_at by done. apply Hnext. right. by exists items, expandedItems.
      * apply Hnext. by left; left.
Qed.

Lemma expandRowLookups_body_shape (row : CodaRow) :
  NoDup (keys (row_values row)) →
  yields (expandRowLookups_body docId token server expandRow row currentDepth maxDepth)
         (row_expansion_of row).
Proof.
  intros Hkeys. unfold expandRowLookups_body.
  destruct (_ || _); [apply yields_ret, row_expansion_refl|].
  eapply yields_bind; [by apply (expand_entries_shape (row_values row) [] [])|].
  intros values Hvalues. by apply yields_ret.
Qed.

End Bodies.

Lemma expandRowLookups_shape fuel (row : CodaRow) currentDepth maxDepth :
  NoDup (keys (row_values row)) →
  yields (expandRowLookups docId token server fuel row currentDepth maxDepth)
         (row_expansion_of row).
Proof.
  intros Hkeys. destruct fuel as [|fuel]; simpl.
  - apply yields_out_of_fuel.
  - by apply expandRowLookups_body_shape.
Qed.

Lemma expand_rows_shape maxDepth rows done expandedRows :
  Forall2 row_expansion_of done expandedRows →
  Forall (fun row => NoDup (keys (row_values row))) rows →
  yields (expand_rows docId token server maxDepth rows expandedRows)
         (Forall2 row_expansion_of (done ++ rows)).
Proof.
  revert done expandedRows.
  induction rows as [|row rows IH]; intros done expandedRows Hdone Hrows; simpl.
  - apply yields_ret. by rewrite app_nil_r.
  - apply Forall_cons in Hrows as [Hrow Hrows].
    rewrite (cons_middle row done rows), app_assoc.
    eapply yields_bind.
    + unfold expand_top_level_row. apply yields_then. intros _.
      apply yields_try_catch; [by apply expandRowLookups_shape|].
      intros e. apply yields_then. intros _. apply yields_ret, row_expansion_refl.
    + intros row' Hrow'. apply IH; [|done]. apply Forall2_app; [done|]. by constructor.
Qed.

(** X8. [expandLookups] always returns, and what it returns is the rows it
    was given, in their order, changed in place only: a row keeps everything
    but its values; the values keep their keys and their order; a cell is
    the cell given, or the reference given with the referenced row embedded
    in it, or the list given with some of its references so expanded, item
    for item.  The keys of the values of a row are distinct, as those of a
    JavaScript object are. *)
Theorem expandLookups_expands_in_place (rows : list CodaRow) (maxDepth : Z) (s : State) :
  Forall (fun row => NoDup (keys (row_values row))) rows →
  ∃ rows' s',
    expandLookups docId token server rows maxDepth s = (Ok rows', s') ∧
    Forall2 row_expansion_of rows rows'.
Proof.
  intros Hrows.
  destruct (expandLookups_returns docId token server rows maxDepth s)
    as (rows' & s' & Hrun & _).
  exists rows', s'. split; [done|]. revert Hrun. generalize s rows' s'.
  change (yields (expandLookups docId token server rows maxDepth)
            (Forall2 row_expansion_of rows)).
  unfold expandLookups. destruct (maxDepth <=? 0)%Z.
  - apply yields_ret. clear Hrows. induction rows; constructor; [|done].
    apply row_expansion_refl.
  - apply yields_then. intros _. apply yields_then. intros _.
    by apply (expand_rows_shape maxDepth rows [] []).
Qed.

End ResultShape.

(** ** The row that an expanded reference embeds *)

Section EmbeddedRow.
Context `{JSNumber}.
Variables (docId token : string).
Variable server : list Request → Request → Pages.

Local Abbreviation sstep := (session_step docId token server).

(** [deeper] is [target] after an expansion of its values. *)
Local Abbreviation expanded_from target deeper :=
  (deeper = with_values target (row_values deeper) ∧
   keys (row_values deeper) = keys (row_values target) ∧
   (NoDup (keys (row_values target)) →
    Forall2 entry_expansion_of (row_values target) (row_values deeper))).

Lemma lookup_table_cache_spec reference s r1 s1 :
  lookup_table_cache reference s = (Ok r1, s1) →
  context s1 = context s ∧
  ∀ row, r1 = Some row → referenced_row (context s) reference row.
Proof.
  unfold lookup_table_cache. rewrite bind_get_context.
  destruct (read_table (context s) _) as [table| |] eqn:Htable;
    [|done|by intros [= <- <-]].
  apply read_table_CachedTable in Htable.
  destruct (table_get table _) as [row|] eqn:Hrow; [|by intros [= <- <-]].
  intros [= <- <-]. split; [done|].
  intros ? [= <-]. by exists table.
Qed.

Lemma lookup_row_cache_spec reference r1 s :
  ∃ r2,
    lookup_row_cache reference r1 s = (Ok r2, s) ∧
    (r2 = r1 ∨ (r1 = None ∧ cache (context s) !! refKey reference = Some r2)).
Proof.
  unfold lookup_row_cache. rewrite bind_get_context.
  destruct r1 as [row|]; [exists (Some row); by split; [|left]|].
  destruct (cache (context s) !! _) as [cached|] eqn:Hcached.
  - exists cached. split; [done|]. by right.
  - exists None. split; [done|]. by left.
Qed.

Lemma fetch_and_cache_row reference s row s' :
  fetch_and_cache docId token server reference s = (Ok (Some row), s') →
  referenced_row (context s') reference row.
Proof.
  destruct (read_table (context s) (toStr (prop reference "tableId")))
    as [table| |] eqn:Htable.
  - apply read_table_CachedTable in Htable.
    rewrite (fetch_and_cache_hit _ _ _ _ _ _ Htable). intros [= Hrow <-].
    by exists table.
  - by rewrite (fetch_and_cache_inherited _ _ _ _ _ Htable).
  - rewrite (fetch_and_cache_miss _ _ _ _ _ Htable).
    destruct (fetch_table_into_cache _ _ _ _ s) as [[[]|e|] s1]; try done.
    destruct (read_table (context s1) _) as [table| |] eqn:Htable1; try done.
    intros [= Hrow <-]. apply read_table_CachedTable in Htable1.
    by exists table.
Qed.

Lemma resolve_uncached_spec reference r2 s target s2 :
  resolve_uncached docId token server reference r2 s = (Ok (Some (Some target)), s2) →
  (r2 = Some target ∧ s2 = s) ∨ referenced_row (context s2) reference target.
Proof.
  unfold resolve_uncached. rewrite bind_get_context.
  destruct r2 as [row|]; [intros [= <- <-]; by left|].
  destruct (cache (context s) !! _); [by intros [=]|].
  unfold try_catch.
  destruct (bind (fetch_and_cache _ _ _ _) _ s) as [[a|e|] s1] eqn:E.
  - intros [= -> ->]. apply bind_inv in E as (row & s3 & Hfetch & [= -> ->]).
    right. by eapply fetch_and_cache_row.
  - intros (_ & s3 & _ & (_ & s4 & _ & E')%bind_inv)%bind_inv. by injection E'.
  - done.
Qed.

Section Bodies.
Variable expandRow : CodaRow → Z → Z → M CodaRow.
Hypothesis expandRow_session : ∀ row currentDepth maxDepth,
  session_traces docId token server (expandRow row currentDepth maxDepth).
Hypothesis expandRow_expands : ∀ row currentDepth maxDepth,
  yields (expandRow row currentDepth maxDepth) (fun row' => expanded_from row row').

Lemma expandSingleReference_body_embeds reference currentDepth maxDepth s expanded s' :
  cached_rows_in_tables (context s) →
  expandSingleReference_body docId token server expandRow reference
    currentDepth maxDepth s = (Ok (Some expanded), s') →
  ∃ named target deeper,
    refKey named = refKey reference ∧
    referenced_row (context s') named target ∧
    expanded = expanded_reference reference deeper ∧
    expanded_from target deeper.
Proof.
  intros Hcached. unfold expandSingleReference_body. rewrite bind_get_context.
  destruct (bool_decide _); [by intros [=]|].
  intros (r1 & s1 & E1 & Hrun)%bind_inv. revert Hrun.
  apply lookup_table_cache_spec in E1 as (Hc1 & Hr1).
  destruct (lookup_row_cache_spec reference r1 s1) as (r2 & E2 & Hr2).
  rewrite (bind_Ok _ _ _ _ _ E2).
  intros ([[target|]|] & s2 & E3 & E)%bind_inv.
  - apply bind_inv in E as ([] & s3 & Emark & E).
    apply bind_inv in E as (deeper & s4 & Erow & E).
    apply bind_inv in E as ([] & s5 & Elog & [= <- <-]).
    assert (∃ named, refKey named = refKey reference ∧
                     referenced_row (context s2) named target) as (named & Hkey & Hrow).
    { apply resolve_uncached_spec in E3 as [[-> ->]|Hrow]; [|by exists reference].
      rewrite Hc1 in *. destruct Hr2 as [Hsame|[-> Hentry]].
      - exists reference. split; [done|]. by apply Hr1.
      - by apply Hcached. }
    exists named, target, deeper. split; [done|]. split; [|split; [done|]].
    + eapply referenced_row_tables; [|exact Hrow].
      assert (rtc sstep s2 s5) as Hsteps.
      { replace s5 with (log LDebug ("Expanded ref: " +:+ toStr (prop reference "rowId")
                           +:+ " at depth " +:+ pretty currentDepth) s4).2
          by (by rewrite Elog).
        replace s4 with (expandRow target (currentDepth + 1)%Z maxDepth s3).2
          by (by rewrite Erow).
        replace s3 with (update_context (mark_processed (refKey reference)) s2).2
          by (by rewrite Emark).
        etrans; [apply session_traces_mark|].
        etrans; [apply expandRow_session|]. apply session_traces_log. }
      by apply (steps_extend docId token server) in Hsteps as [Htables _].
    + by eapply expandRow_expands.
  - by apply bind_inv in E as (_ & s3 & _ & [=]).
  - by injection E.
Qed.

Lemma expand_entries_keys currentDepth maxDepth entries expandedValues :
  (∀ k, k ∈ keys entries → k ∈ keys expandedValues) →
  yields (expand_entries docId token server expandRow currentDepth maxDepth
            entries expandedValues)
         (fun values => keys values = keys expandedValues).
Proof.
  revert expandedValues.
  induction entries as [|[key value] rest IH]; intros expandedValues Hin.
  - by apply yields_ret.
  - assert (key ∈ keys expandedValues) as Hkey by (apply Hin; by left).
    assert (∀ k, k ∈ keys rest → k ∈ keys expandedValues) as Hrest
      by (intros k Hk; apply Hin; by right).
    assert (∀ new,
              yields (expand_entries docId token server expandRow currentDepth maxDepth
                        rest (obj_set expandedValues key new))
                     (fun values => keys values = keys expandedValues)) as Hset.
    { intros new. rewrite <- (obj_set_keeps_keys expandedValues key new Hkey).
      apply IH. intros k Hk. rewrite obj_set_keeps_keys by done. by apply Hrest. }
    simpl. destruct (isRawRowReference value).
    + apply yields_then. intros [expanded|]; [apply Hset|by apply IH].
    + destruct value; try by apply IH.
      apply yields_then. intros [expandedItems []]; [apply Hset|by apply IH].
Qed.

End Bodies.

Lemma expandRowLookups_expands fuel (row : CodaRow) currentDepth maxDepth :
  yields (expandRowLookups docId token server fuel row currentDepth maxDepth)
         (fun row' => expanded_from row row').
Proof.
  destruct fuel as [|fuel]; simpl; [apply yields_out_of_fuel|].
  intros s row' s' Hrun. split; [|split].
  - revert s row' s' Hrun. unfold expandRowLookups_body.
    change (yields
              (if (maxDepth <=? 0)%Z || (maxDepth <=? currentDepth)%Z then ret row
               else
                 bind (expand_entries docId token server
                         (expandRowLookups docId token server fuel)
                         currentDepth maxDepth (row_values row) (row_values row))
                      (fun expandedValues => ret (with_values row expandedValues)))
              (fun row' => row' = with_values row (row_values row'))).
    destruct (_ || _); [apply yields_ret; by rewrite with_values_same|].
    apply yields_then. intros values. by apply yields_ret.
  - revert s row' s' Hrun. unfold expandRowLookups_body.
    change (yields
              (if (maxDepth <=? 0)%Z || (maxDepth <=? currentDepth)%Z then ret row
               else
                 bind (expand_entries docId token server
                         (expandRowLookups docId token server fuel)
                         currentDepth maxDepth (row_values row) (row_values row))
                      (fun expandedValues => ret (with_values row expandedValues)))
              (fun row' => keys (row_values row') = keys (row_values row))).
    destruct (_ || _); [by apply yields_ret|].
    eapply yields_bind; [by apply expand_entries_keys|].
    intros values Hkeys. by apply yields_ret.
  - intros Hkeys.
    by apply (expandRowLookups_shape docId token server (S fuel) row currentDepth maxDepth
                Hkeys s row' s' Hrun).
Qed.

(** X9. What an expanded reference holds.  When [expandSingleReference]
    expands a reference, the result is the reference with a [values]
    property added, and the row under it comes from the table-level cache:
    it is the row that a reference with the same key names there, with its
    id, its keys and their order, its cells expanded in turn. *)
Theorem expanded_reference_embeds_cached_row (fuel : nat) (reference : RawValue)
    (currentDepth maxDepth : Z) (s : State) (expanded : RawValue) (s' : State) :
  cached_rows_in_tables (context s) →
  expandSingleReference docId token server fuel reference currentDepth maxDepth s
  = (Ok (Some expanded), s') →
  ∃ named target deeper,
    refKey named = refKey reference ∧
    referenced_row (context s') named target ∧
    expanded = expanded_reference reference deeper ∧
    prop expanded "values"
    = VObj [("id", VStr (row_id target)); ("values", VObj (row_values deeper))] ∧
    keys (row_values deeper) = keys (row_values target) ∧
    (NoDup (keys (row_values target)) →
     Forall2 entry_expansion_of (row_values target) (row_values deeper)).
Proof.
  intros Hcached Hrun.
  destruct (expandSingleReference_body_embeds (expandRowLookups docId token server fuel)
              (expandRowLookups_session docId token server fuel)
              (expandRowLookups_expands fuel)
              reference currentDepth maxDepth s expanded s' Hcached Hrun)
    as (named & target & deeper & Hkey & Hrow & -> & Hid & Hkeys & Hcells).
  exists named, target, deeper. split; [done|]. split; [done|]. split; [done|].
  split; [|done].
  unfold expanded_reference, prop, obj_read. simpl. rewrite obj_get_set_eq.
  by rewrite Hid.
Qed.

Lemma contains_colon_app (a b : string) :
  includes ":" (a +:+ String ":" b) = true.
Proof.
  induction a as [|c a IH]; [done|]. simpl. rewrite IH. by destruct (Ascii.eqb c ":").
Qed.

(** A key made of two ids without a colon is the key of these two ids only. *)
Lemma refKey_split (a b a' b' : string) :
  includes ":" a = false → includes ":" b = false →
  a' +:+ ":" +:+ b' = a +:+ ":" +:+ b → a' = a ∧ b' = b.
Proof.
  assert (∀ s, "" +:+ s = s) as Hnil by done.
  assert (∀ c a s, String c a +:+ s = String c (a +:+ s)) as Hcons by done.
  revert a'. induction a as [|c a IH]; intros a' Ha Hb.
  - destruct a' as [|c' a']; repeat (rewrite Hnil || rewrite Hcons).
    + by intros [= ->].
    + intros [= -> <-]. by rewrite contains_colon_app in Hb.
  - simpl in Ha. apply orb_false_iff in Ha as [Hc Ha].
    destruct a' as [|c' a']; repeat (rewrite Hnil || rewrite Hcons).
    + intros [= <- _]. done.
    + intros [= -> Hrest]. destruct (IH a' Ha Hb Hrest) as [-> ->]. done.
Qed.

(** X10. With ids as the API gives them, strings without a colon, the row
    under [values] of an expanded reference is the row of the referenced
    table that has the referenced id: at the end of the call to
    [expandSingleReference] that table is in the table-level cache, it files
    the row under the referenced id, and the id under [values] is the
    referenced id.  The session is one that [expandLookups] set up and the
    steps of the expansion have changed since. *)
Theorem expanded_reference_embeds_referenced_row (fuel : nat) (reference : RawValue)
    (tableId rowId : string) (currentDepth maxDepth : Z) (base : nat)
    (s : State) (expanded : RawValue) (s' : State) :
  session_coherent docId token server base s →
  prop reference "tableId" = VStr tableId →
  prop reference "rowId" = VStr rowId →
  includes ":" tableId = false →
  includes ":" rowId = false →
  expandSingleReference docId token server fuel reference currentDepth maxDepth s
  = (Ok (Some expanded), s') →
  ∃ table target deeper,
    tableCache (context s') !! tableId = Some table ∧
    table !! rowId = Some target ∧
    row_id target = rowId ∧
    expanded = expanded_reference reference deeper ∧
    deeper = with_values target (row_values deeper) ∧
    prop (prop expanded "values") "id" = VStr rowId.
Proof.
  intros Hcoherent HtableId HrowId Htable_colon Hrow_colon Hrun.
  assert (session_coherent docId token server base s') as (_ & _ & Hfetched).
  { eapply (session_steps_preserve docId token server);
      [intros s1 s2; apply step_coherent| |exact Hcoherent].
    replace s' with (expandSingleReference docId token server fuel reference
                       currentDepth maxDepth s).2 by (by rewrite Hrun).
    apply expandSingleReference_session. }
  apply cached_tables_keyed in Hfetched.
  destruct Hcoherent as (_ & Hcached & _).
  destruct (expandSingleReference_body_embeds (expandRowLookups docId token server fuel)
              (expandRowLookups_session docId token server fuel)
              (expandRowLookups_expands fuel)
              reference currentDepth maxDepth s expanded s' Hcached Hrun)
    as (named & target & deeper & Hkey & (table & Htable & Hrow) & -> & Hid & _).
  apply table_get_Some in Hrow as (k & Hk & Hrow).
  unfold refKey in Hkey. rewrite Hk, HtableId, HrowId in Hkey. simpl in Hkey.
  apply refKey_split in Hkey as [Hkey ->]; [|done|done].
  rewrite Hkey in Htable.
  pose proof (Hfetched _ _ _ _ Htable Hrow) as Hrow_id.
  exists table, target, deeper. split; [done|]. split; [done|]. split; [done|].
  split; [done|]. split; [done|].
  unfold expanded_reference, prop at 2, obj_read. simpl. rewrite obj_get_set_eq.
  assert (row_id deeper = rowId) as -> by (by rewrite Hid).
  reflexivity.
Qed.

End EmbeddedRow.

(** ** The table that a fetch assembles *)

Section FetchedTable.
Context `{JSNumber}.
Variables (docId token : string).
Variable server : list Request → Request → Pages.

Lemma store_items_app (rowsMap : gmap string CodaRow) (items more : list CodaRow) :
  store_items rowsMap (items ++ more) = store_items (store_items rowsMap items) more.
Proof. apply fold_left_app. Qed.

Lemma store_items_lookup (items : list CodaRow) (rowsMap : gmap string CodaRow) k :
  store_items rowsMap items !! k
  = match last (filter (fun row => row_id row = k) items) with
    | Some row => Some row
    | None => rowsMap !! k
    end.
Proof.
  revert rowsMap. induction items as [|item items IH]; intros rowsMap; [done|].
  simpl. rewrite IH. rewrite filter_cons.
  destruct (decide (row_id item = k)) as [<-|Hne].
  - destruct (filter _ items) as [|row rows] eqn:E; simpl.
    + by rewrite lookup_insert_eq.
    + destruct (last (row :: rows)) eqn:El; [done|]. by apply last_None in El.
  - destruct (last (filter _ items)); [done|]. by rewrite lookup_insert_ne.
Qed.

Lemma pages_outcome_read (pages : Pages) (rowsMap : gmap string CodaRow) :
  pages_outcome pages rowsMap
  = match pages_failure pages with
    | Some f => inl f
    | None => inr (store_items rowsMap (pages_read pages))
    end.
Proof.
  revert rowsMap. induction pages as [f|items|items next rest IH]; intros rowsMap; simpl.
  - done.
  - done.
  - destruct (truthy_string next).
    + rewrite IH. destruct (pages_failure rest); [done|]. by rewrite store_items_app.
    + by rewrite app_nil_r.
Qed.



End FetchedTable.
(** ** What the expansion throws *)

Section Throws.
Context `{JSNumber}.
Variables (docId token : string).
Variable server : list Request → Request → Pages.

(** The only error that leaves the expansion is the one of step 1. *)
Local Abbreviation throws_step_1 m :=
  (ensures (fun _ => True) m (fun _ _ => True) (fun e _ => e = get_is_not_a_function)).




Section Bodies.
Variable expandRow : CodaRow → Z → Z → M CodaRow.
Variables currentDepth maxDepth : Z.
Hypothesis expandRow_throws :
  ∀ row, throws_step_1 (expandRow row (currentDepth + 1)%Z maxDepth).




End Bodies.



End Throws.

(** ** Sessions without a table named as a member of [Object.prototype] *)

Section Plain.
Context `{JSNumber}.
Variables (docId token : string).
Variable server : list Request → Request → Pages.
Hypothesis server_plain : plain_server server.

Local Abbreviation sstep := (session_step docId token server).
Local Abbreviation session_traces := (session_traces docId token server).

(** From a plain session, the computation does not throw. *)
Local Abbreviation stays_plain m :=
  (ensures plain_session m (fun _ s' => plain_session s') (fun _ _ => False)).

Lemma forallb_elem_of {A} (f : A → bool) (l : list A) (x : A) :
  forallb f l = true → x ∈ l → f x = true.
Proof.
  induction l as [|y l IH]; simpl; [by intros _ ?%elem_of_nil|].
  intros [Hy Hl]%andb_true_iff [->|Hx]%elem_of_cons; auto.
Qed.

Lemma fetched_rows_read (pages : Pages) (table : gmap string CodaRow) k row :
  pages_outcome pages ∅ = inr table → table !! k = Some row → row ∈ pages_read pages.
Proof.
  rewrite pages_outcome_read. destruct (pages_failure pages); [done|].
  intros [= <-]. rewrite store_items_lookup.
  destruct (last _) as [r|] eqn:Hlast; [|by rewrite lookup_empty].
  intros [= ->]. apply last_Some in Hlast as [l' Hl'].
  assert (row ∈ filter (fun r => row_id r = k) (pages_read pages)) as Hin.
  { rewrite Hl'. apply elem_of_app. right. by constructor. }
  by apply list_elem_of_filter in Hin as [_ ?].
Qed.

Lemma plain_step s s' : sstep s s' → plain_session s → plain_session s'.
Proof.
  intros Hstep [Htables Hrows].
  destruct Hstep as [s level message|s key|s|s reference row Hmiss Hrow|s tableId Hmiss].
  - done.
  - done.
  - done.
  - split; [done|]. intros key r. simpl.
    destruct (decide (refKey reference = key)) as [<-|Hne].
    + rewrite lookup_insert_eq. intros [= ->].
      destruct (Hrow r eq_refl) as (table & Htable & (k & _ & Hk)%table_get_Some).
      by eapply Htables.
    + rewrite lookup_insert_ne by done. apply Hrows.
  - destruct (fetch_table_into_cache_caches docId token server tableId s)
      as (Hcache & _ & _ & Hnew & _).
    split; [|by rewrite Hcache].
    intros t table k row Htable Hrow.
    destruct Hnew as [Hsame|(new & Hout & Hins)].
    + rewrite Hsame in Htable. by eapply Htables.
    + rewrite Hins in Htable. destruct (decide (tableId = t)) as [<-|Hne].
      * rewrite lookup_insert_eq in Htable. injection Htable as <-.
        eapply forallb_elem_of; [apply server_plain|].
        by eapply fetched_rows_read.
      * rewrite lookup_insert_ne in Htable by done. by eapply Htables.
Qed.

Lemma plain_after {A} (m : M A) s :
  session_traces m → plain_session s → plain_session (m s).2.
Proof.
  intros Hm. apply (session_steps_preserve docId token server plain_session).
  - apply plain_step.
  - apply Hm.
Qed.

Lemma stays_plain_intro {A} (m : M A) :
  session_traces m →
  ensures plain_session m (fun _ _ => True) (fun _ _ => False) → stays_plain m.
Proof.
  intros Htraces Hm s Hs. specialize (Hm s Hs).
  pose proof (plain_after m s Htraces Hs) as Hs'.
  by destruct (m s) as [[a|e|] s'].
Qed.

Lemma plain_reference_table reference :
  isRawRowReference reference = true → plain_reference reference = true →
  inherited (toStr (prop reference "tableId")) = false.
Proof. unfold plain_reference. intros ->. by destruct (inherited _). Qed.

Lemma lookup_table_cache_plain reference :
  inherited (toStr (prop reference "tableId")) = false →
  ensures plain_session (lookup_table_cache reference)
    (fun r s' => plain_session s' ∧ ∀ row, r = Some row → plain_row row = true)
    (fun _ _ => False).
Proof.
  intros Hplain s Hs. unfold lookup_table_cache. rewrite bind_get_context.
  destruct (read_table _ _) as [table| |] eqn:Htable.
  - apply read_table_CachedTable in Htable.
    destruct (table_get table _) as [row|] eqn:Hrow; [|by split].
    split; [done|]. intros ? [= <-].
    apply table_get_Some in Hrow as (k & _ & Hk). destruct Hs as [Htables _].
    by eapply Htables.
  - apply read_table_PrototypeMember in Htable as [_ Hin]. by rewrite Hin in Hplain.
  - by split.
Qed.

Lemma lookup_row_cache_plain reference r1 :
  (∀ row, r1 = Some row → plain_row row = true) →
  ensures plain_session (lookup_row_cache reference r1)
    (fun r s' => plain_session s' ∧ ∀ row, r = Some row → plain_row row = true)
    (fun _ _ => False).
Proof.
  intros Hr1 s Hs. unfold lookup_row_cache. rewrite bind_get_context.
  destruct r1 as [row|]; [by split|].
  destruct (cache (context s) !! _) as [cached|] eqn:Hcached; [|by split].
  split; [done|]. intros row ->. destruct Hs as [_ Hrows]. by eapply Hrows.
Qed.

Lemma resolve_uncached_plain reference r2 :
  (∀ row, r2 = Some row → plain_row row = true) →
  ensures plain_session (resolve_uncached docId token server reference r2)
    (fun r s' => plain_session s' ∧ ∀ row, r = Some (Some row) → plain_row row = true)
    (fun _ _ => False).
Proof.
  intros Hr2 s Hs.
  pose proof (plain_after _ s (resolve_uncached_session docId token server reference r2) Hs)
    as Hs'.
  destruct (resolve_uncached_returns docId token server reference r2 s)
    as (r & s' & E & _).
  rewrite E in *. simpl in Hs'. split; [done|]. intros row ->.
  apply resolve_uncached_spec in E as [[-> ->]|(table & Htable & Hrow)]; [by apply Hr2|].
  apply table_get_Some in Hrow as (k & _ & Hk). destruct Hs' as [Htables _].
  by eapply Htables.
Qed.

Section Bodies.
Variable expandRow : CodaRow → Z → Z → M CodaRow.
Variables currentDepth maxDepth : Z.
Hypothesis expandRow_plain :
  ∀ row, plain_row row = true → stays_plain (expandRow row (currentDepth + 1)%Z maxDepth).

Lemma expandSingleReference_body_plain reference :
  inherited (toStr (prop reference "tableId")) = false →
  stays_plain (expandSingleReference_body docId token server expandRow reference
                 currentDepth maxDepth).
Proof.
  intros Hplain. unfold expandSingleReference_body.
  apply ensures_get_context_any. intros c.
  destruct (bool_decide _); [by apply ensures_ret|].
  eapply ensures_bind; [by apply lookup_table_cache_plain|].
  intros r1. apply ensures_fact. intros Hr1.
  eapply ensures_bind; [by apply lookup_row_cache_plain|].
  intros r2. apply ensures_fact. intros Hr2.
  eapply ensures_bind; [by apply resolve_uncached_plain|].
  intros [[row|]|]; apply ensures_fact; intros Hrow.
  - eapply ensures_bind.
    { apply (ensures_update_context _ _ (fun _ s' => plain_session s')). by intros s []. }
    intros []. simpl. eapply ensures_bind; [by apply expandRow_plain, Hrow|].
    intros deeper. eapply ensures_bind.
    { apply (ensures_log _ _ _ (fun _ s' => plain_session s')). by intros s []. }
    intros []. by apply ensures_ret.
  - eapply ensures_bind.
    { apply (ensures_log _ _ _ (fun _ s' => plain_session s')). by intros s []. }
    intros []. by apply ensures_ret.
  - by apply ensures_ret.
Qed.

Lemma expand_items_plain items expandedItems hasExpanded :
  forallb plain_reference items = true →
  stays_plain (expand_items docId token server expandRow currentDepth maxDepth
                 items expandedItems hasExpanded).
Proof.
  revert expandedItems hasExpanded.
  induction items as [|item rest IH]; intros expandedItems hasExpanded; simpl.
  - intros _. by apply ensures_ret.
  - intros [Hitem Hrest]%andb_true_iff.
    destruct (isRawRowReference item) eqn:Href; simpl; [|by apply IH].
    eapply ensures_bind;
      [by apply expandSingleReference_body_plain, plain_reference_table|].
    intros [expanded|]; by apply IH.
Qed.

Lemma expand_entries_plain entries expandedValues :
  forallb (fun entry : string * RawValue => plain_cell entry.2) entries = true →
  stays_plain (expand_entries docId token server expandRow currentDepth maxDepth
                 entries expandedValues).
Proof.
  revert expandedValues.
  induction entries as [|[key value] rest IH]; intros expandedValues; simpl.
  - intros _. by apply ensures_ret.
  - intros [Hcell Hrest]%andb_true_iff.
    destruct (isRawRowReference value) eqn:Href.
    + eapply ensures_bind.
      * apply expandSingleReference_body_plain, plain_reference_table; [done|].
        by destruct value.
      * intros [expanded|]; by apply IH.
    + destruct value; try by apply IH.
      eapply ensures_bind; [by apply expand_items_plain|].
      intros [expandedItems []]; by apply IH.
Qed.

End Bodies.

Lemma expandRowLookups_plain fuel (row : CodaRow) currentDepth maxDepth :
  plain_row row = true →
  stays_plain (expandRowLookups docId token server fuel row currentDepth maxDepth).
Proof.
  revert row currentDepth.
  induction fuel as [|fuel IH]; intros row currentDepth Hrow; simpl;
    [by apply ensures_out_of_fuel|].
  unfold expandRowLookups_body. destruct (_ || _); [by apply ensures_ret|].
  eapply ensures_bind; [apply expand_entries_plain; [|exact Hrow]|].
  - intros row' Hrow'. by apply IH.
  - intros values. by apply ensures_ret.
Qed.


(** From a plain session the expansion of a plain row returns. *)
Lemma expandRowLookups_returns (row : CodaRow) currentDepth maxDepth extra s :
  plain_session s → plain_row row = true →
  ∃ row' s',
    expandRowLookups docId token server (depth_budget currentDepth maxDepth + extra)
      row currentDepth maxDepth s = (Ok row', s') ∧
    plain_session s'.
Proof.
  intros Hs Hrow.
  pose proof (expandRowLookups_plain (depth_budget currentDepth maxDepth + extra)
                row currentDepth maxDepth Hrow s Hs) as Hrun.
  pose proof (expandRowLookups_finishes docId token server
                (depth_budget currentDepth maxDepth + extra) row currentDepth maxDepth)
    as Hfin.
  specialize (Hfin ltac:(unfold depth_budget; lia) s).
  destruct (expandRowLookups _ _ _ _ _ _ _ s) as [[row'|e|] s']; [|done|done].
  by exists row', s'.
Qed.


End Plain.
(** ** Termination, and failures that are contained *)

Section Containment.
Context `{JSNumber}.
Variables (docId token : string).
Variable server : list Request → Request → Pages.



End Containment.
(** ** The caches of a session *)

Section SessionCaches.
Context `{JSNumber}.
Variables (docId token : string).
Variable server : list Request → Request → Pages.



End SessionCaches.
(** ** Expansion along chains of references *)

Section Chains.
Context `{JSNumber}.
Variables (docId token : string).
Variable server : list Request → Request → Pages.

Local Abbreviation traces := (traces docId token server).

(** The processed set holds [processed]. *)
Local Abbreviation holds processed :=
  (fun s : State => processed ⊆ processedRefs (context s)).

Lemma ensures_pre_fact {A} (m : M A) (P : State → Prop) (F : Prop)
    (Q : A → State → Prop) E :
  (∀ s, P s → F) → (F → ensures P m Q E) → ensures P m Q E.
Proof. intros HF Hm s Hs. apply Hm; [by eapply HF|done]. Qed.

Lemma chain_expansion_mono (P P' : gset string) original result :
  P ⊆ P' → chain_expansion P' original result → chain_expansion P original result.
Proof.
  intros Hsub Hchain.
  destruct Hchain as [P' value|P' above reference target deeper Href Habove Hkey Hid Hcells].
  - constructor.
  - apply (chain_expanded P above reference target deeper); try done. set_solver.
Qed.


Lemma cell_related_mono (R R' : RawValue → RawValue → Prop) original result :
  (∀ o r, R o r → R' o r) → cell_related R original result → cell_related R' original result.
Proof.
  intros HR [Hcell|(items & items' & -> & -> & Hitems)]; [left; auto|].
  right. exists items, items'. split; [done|]. split; [done|].
  eapply Forall2_impl; [exact Hitems|]. auto.
Qed.

Lemma entries_related_mono (R R' : RawValue → RawValue → Prop) original result :
  (∀ o r, R o r → R' o r) →
  entries_related R original result → entries_related R' original result.
Proof.
  intros HR Hentries. eapply Forall2_impl; [exact Hentries|].
  intros o r [Hkey Hcell]. split; [done|]. by eapply cell_related_mono.
Qed.

Lemma entries_related_refl (R : RawValue → RawValue → Prop) (values : Values) :
  (∀ v, R v v) → entries_related R values values.
Proof.
  intros HR. induction values as [|entry values IH]; constructor; [|done].
  split; [done|]. left. apply HR.
Qed.

Lemma entries_related_keys (R : RawValue → RawValue → Prop) original result :
  entries_related R original result → keys result = keys original.
Proof.
  induction 1 as [|entry entry' original result [Hkey _] _ IH]; [done|].
  unfold keys in *. simpl. by rewrite Hkey, IH.
Qed.

Lemma row_chain_expansion_refl P (row : CodaRow) : row_chain_expansion P row row.
Proof.
  split; [by rewrite with_values_same|]. intros _.
  apply entries_related_refl. constructor.
Qed.

Lemma row_chain_expansion_mono (P P' : gset string) (row row' : CodaRow) :
  P ⊆ P' → row_chain_expansion P' row row' → row_chain_expansion P row row'.
Proof.
  intros Hsub [Hid Hcells]. split; [done|]. intros Hkeys.
  eapply entries_related_mono; [|by apply Hcells].
  intros o r. by apply chain_expansion_mono.
Qed.

(** The processed set only grows while a row is expanded. *)
Lemma processed_grows {A} (m : M A) P :
  traces m → ensures (holds P) m (fun _ => holds P) (fun _ _ => True).
Proof.
  intros Hm s Hs.
  assert (holds P (m s).2) as Hs'.
  { apply (steps_preserve docId token server (holds P) s); [|apply Hm|done].
    intros s1 s2 Hstep Hs1 key Hkey. eapply step_keeps_processed; [exact Hstep|].
    by apply Hs1. }
  by destruct (m s) as [[a|e|] s'].
Qed.

Section Bodies.
Variable expandRow : CodaRow → Z → Z → M CodaRow.
Variables currentDepth maxDepth : Z.
Hypothesis expandRow_traces : ∀ row currentDepth maxDepth,
  traces (expandRow row currentDepth maxDepth).
Hypothesis expandRow_chain : ∀ P row,
  ensures (holds P) (expandRow row (currentDepth + 1)%Z maxDepth)
    (fun row' s' => holds P s' ∧ row_chain_expansion P row row') (fun _ _ => True).

Lemma expandSingleReference_body_chain P reference :
  isRawRowReference reference = true →
  ensures (holds P)
    (expandSingleReference_body docId token server expandRow reference
       currentDepth maxDepth)
    (fun result s' =>
       holds P s' ∧
       ∀ expanded, result = Some expanded → chain_expansion P reference expanded)
    (fun _ _ => True).
Proof.
  intros Href. unfold expandSingleReference_body.
  apply ensures_get_context. intros c.
  destruct (bool_decide _) eqn:Hprocessed; [apply ensures_ret; by intros s [? _]|].
  apply bool_decide_eq_false in Hprocessed.
  apply (ensures_pre_fact _ _ (P ⊆ processedRefs c)); [by intros s [? <-]|].
  intros Habove.
  eapply (ensures_weaken _ (holds (processedRefs c)) _
            (fun result s' =>
               holds (processedRefs c) s' ∧
               ∀ expanded, result = Some expanded → chain_expansion P reference expanded)).
  { by intros s [_ <-]. }
  { intros result s [Hs Hresult]. split; [|done]. intros key Hkey. by apply Hs, Habove. }
  { done. }
  eapply ensures_bind; [apply processed_grows, lookup_table_cache_traces|].
  intros r1. eapply ensures_bind; [apply processed_grows, lookup_row_cache_traces|].
  intros r2. eapply ensures_bind; [apply processed_grows, resolve_uncached_traces|].
  intros [[target|]|].
  - eapply ensures_bind.
    { apply (ensures_update_context _ _
               (fun _ => holds ({[refKey reference]} ∪ processedRefs c))).
      intros s Hs. simpl. by apply union_mono_l. }
    intros []. eapply ensures_bind; [apply expandRow_chain|].
    intros deeper. apply ensures_fact. intros [Hid Hcells].
    eapply ensures_bind.
    { apply (ensures_log _ _ _
               (fun _ => holds ({[refKey reference]} ∪ processedRefs c))).
      by intros s Hs. }
    intros []. apply ensures_ret. intros s Hs. split; [set_solver|].
    intros expanded [= <-].
    by apply (chain_expanded P (processedRefs c) reference target deeper).
  - eapply ensures_bind.
    { apply (ensures_log _ _ _ (fun _ => holds (processedRefs c))). by intros s Hs. }
    intros []. apply ensures_ret. by intros s Hs.
  - apply ensures_ret. by intros s Hs.
Qed.

Lemma expand_items_chain P items done expandedItems hasExpanded :
  Forall2 (chain_expansion P) done expandedItems →
  ensures (holds P)
    (expand_items docId token server expandRow currentDepth maxDepth
       items expandedItems hasExpanded)
    (fun r s' => holds P s' ∧ Forall2 (chain_expansion P) (done ++ items) r.1)
    (fun _ _ => True).
Proof.
  revert done expandedItems hasExpanded.
  induction items as [|item rest IH]; intros done expandedItems hasExpanded Hdone; simpl.
  - apply ensures_ret. intros s Hs. by rewrite app_nil_r.
  - rewrite (cons_middle item done rest), app_assoc.
    destruct (isRawRowReference item) eqn:Href; simpl.
    + eapply ensures_bind; [by apply expandSingleReference_body_chain|].
      intros [expanded|]; apply ensures_fact; intros Hchain.
      * apply IH. apply Forall2_app; [done|]. constructor; [|done]. by apply Hchain.
      * apply IH. apply Forall2_app; [done|]. constructor; [|done]. constructor.
    + apply IH. apply Forall2_app; [done|]. constructor; [|done]. constructor.
Qed.

Lemma expand_entries_chain P entries done expandedDone :
  entries_related (chain_expansion P) done expandedDone →
  NoDup (keys (done ++ entries)) →
  ensures (holds P)
    (expand_entries docId token server expandRow currentDepth maxDepth
       entries (expandedDone ++ entries))
    (fun values s' =>
       holds P s' ∧ entries_related (chain_expansion P) (done ++ entries) values)
    (fun _ _ => True).
Proof.
  revert done expandedDone.
  induction entries as [|[key value] rest IH]; intros done expandedDone Hdone Hkeys.
  - simpl. apply ensures_ret. intros s Hs. by rewrite !app_nil_r.
  - assert (key ∉ keys expandedDone) as Hfresh.
    { rewrite (entries_related_keys _ _ _ Hdone).
      unfold keys in *. rewrite map_app in Hkeys. simpl in Hkeys.
      apply NoDup_app in Hkeys as (_ & Hsep & _).
      intros Hin. apply (Hsep _ Hin). by left. }
    assert (∀ new, cell_related (chain_expansion P) value new →
              ensures (holds P)
                (expand_entries docId token server expandRow currentDepth maxDepth
                   rest (expandedDone ++ (key, new) :: rest))
                (fun values s' =>
                   holds P s' ∧
                   entries_related (chain_expansion P) (done ++ (key, value) :: rest) values)
                (fun _ _ => True))
      as Hnext.
    { intros new Hnew.
      rewrite (cons_middle (key, value) done rest), app_assoc.
      rewrite (cons_middle (key, new) expandedDone rest), app_assoc.
      apply IH.
      - apply Forall2_app; [done|]. constructor; [|done]. by split.
      - by rewrite <- app_assoc. }
    simpl. destruct (isRawRowReference value) eqn:Href.
    + eapply ensures_bind; [by apply expandSingleReference_body_chain|].
      intros [expanded|]; apply ensures_fact; intros Hchain.
      * rewrite obj_set_at by done. apply Hnext. left. by apply Hchain.
      * apply Hnext. left. constructor.
    + destruct value as [| | | | |items|]; try (apply Hnext; left; constructor).
      eapply ensures_bind; [by apply (expand_items_chain P items [] [] false)|].
      intros [expandedItems hasExpanded]. apply ensures_fact. intros Hitems.
      simpl in Hitems. destruct hasExpanded.
      * rewrite obj_set_at by done. apply Hnext. right. by exists items, expandedItems.
      * apply Hnext. left. constructor.
Qed.

Lemma expandRowLookups_body_chain P (row : CodaRow) :
  ensures (holds P)
    (expandRowLookups_body docId token server expandRow row currentDepth maxDepth)
    (fun row' s' => holds P s' ∧ row_chain_expansion P row row') (fun _ _ => True).
Proof.
  unfold expandRowLookups_body.
  destruct (_ || _).
  { apply ensures_ret. intros s Hs. split; [done|]. apply row_chain_expansion_refl. }
  destruct (decide (NoDup (keys (row_values row)))) as [Hkeys|Hdup].
  - eapply ensures_bind;
      [apply (expand_entries_chain P (row_values row) [] []); [constructor|done]|].
    intros values. apply ensures_fact. intros Hvalues.
    apply ensures_ret. intros s Hs. by split.
  - eapply ensures_bind; [apply processed_grows, expand_entries_traces, expandRow_traces|].
    intros values. apply ensures_ret. intros s Hs. by split.
Qed.

End Bodies.

Lemma expandRowLookups_chain fuel P (row : CodaRow) currentDepth maxDepth :
  ensures (holds P)
    (expandRowLookups docId token server fuel row currentDepth maxDepth)
    (fun row' s' => holds P s' ∧ row_chain_expansion P row row') (fun _ _ => True).
Proof.
  revert P row currentDepth.
  induction fuel as [|fuel IH]; intros P row currentDepth; simpl;
    [by apply ensures_out_of_fuel|].
  apply expandRowLookups_body_chain.
  - intros. apply expandRowLookups_traces.
  - intros P' row'. apply IH.
Qed.


End Chains.
(** ** References that are expanded *)

Section Expanded.
Context `{JSNumber}.
Variables (docId token : string).
Variable server : list Request → Request → Pages.
Hypothesis server_plain : plain_server server.

Local Abbreviation sstep := (session_step docId token server).
Local Abbreviation resolvable := (resolvable docId token server).

(** The state in which the row that a resolvable reference names is
    expanded. *)
Lemma resolved_reference_runs_marked expandRow reference currentDepth maxDepth s target :
  refKey reference ∉ processedRefs (context s) →
  resolvable s reference target →
  ∃ s1,
    rtc sstep s s1 ∧
    processedRefs (context s1) = {[refKey reference]} ∪ processedRefs (context s) ∧
    referenced_row (context s1) reference target ∧
    expandSingleReference_body docId token server expandRow reference
      currentDepth maxDepth s
    = bind (expandRow target (currentDepth + 1)%Z maxDepth)
           (fun deeper =>
              bind (log LDebug ("Expanded ref: " +:+ toStr (prop reference "rowId")
                                +:+ " at depth " +:+ pretty currentDepth))
                   (fun _ => ret (Some (expanded_reference reference deeper))))
           s1.
Proof.
  intros Hfresh [(table & Htable & Htarget)|(Htable & Hcache & table & Hout & Htarget)].
  - exists (found_and_marked reference s). split; [|split; [|split]].
    + unfold found_and_marked. etrans; apply rtc_once; constructor.
    + done.
    + by exists table.
    + by apply (cached_reference_runs_marked _ _ _ _ _ _ _ _ table).
  - set (tableId := toStr (prop reference "tableId")) in *.
    destruct (fetch_table_into_cache_spec docId token server tableId s) as (_ & _ & Hspec).
    rewrite Hout in Hspec. destruct Hspec as [Hok Hctx].
    destruct (fetch_table_into_cache_caches docId token server tableId s)
      as (Hsame & Hprocessed & _).
    pose proof (session_fetch docId token server s tableId
                  (proj1 (read_table_NoTable _ _ Htable))) as Hfetch.
    destruct (fetch_table_into_cache docId token server tableId s) as [res sf] eqn:Efetch.
    simpl in Hok, Hctx, Hsame, Hprocessed, Hfetch. subst res.
    assert (tableCache (context sf) !! tableId = Some table) as Hcached.
    { rewrite Hctx. simpl. by rewrite lookup_insert_eq. }
    set (sc := (update_context (cache_row (refKey reference) (Some target)) sf).2).
    assert (resolve_uncached docId token server reference None s
            = (Ok (Some (Some target)), sc)) as Hresolve.
    { unfold resolve_uncached. rewrite bind_get_context, Hcache.
      unfold try_catch. unfold bind at 1.
      rewrite (fetch_and_cache_miss docId token server reference s Htable).
      fold tableId. rewrite Efetch, (read_table_cached _ _ _ Hcached), Htarget.
      reflexivity. }
    exists (update_context (mark_processed (refKey reference)) sc).2.
    split; [|split; [|split]].
    + etrans; [by apply rtc_once|]. etrans; [|apply rtc_once; constructor].
      apply rtc_once. constructor; [by rewrite Hsame|].
      intros r [= <-]. by exists table.
    + simpl. by rewrite Hprocessed.
    + by exists table.
    + unfold expandSingleReference_body.
      rewrite bind_get_context. rewrite bool_decide_eq_false_2 by done.
      rewrite (bind_Ok _ _ _ _ _ (lookup_table_cache_miss reference s Htable)).
      rewrite (bind_Ok _ _ _ _ _ (lookup_row_cache_miss reference s Hcache)).
      rewrite (bind_Ok _ _ _ _ _ Hresolve).
      by rewrite (bind_Ok _ _ _ tt (update_context (mark_processed (refKey reference)) sc).2).
Qed.

Lemma referenced_row_plain s reference target :
  plain_session s → referenced_row (context s) reference target →
  plain_row target = true.
Proof.
  intros [Htables _] (table & Htable & (k & _ & Hk)%table_get_Some).
  by eapply Htables.
Qed.

(** A resolvable reference whose key is not in the processed set is
    expanded, in a plain session. *)
Lemma resolved_reference_is_expanded reference currentDepth maxDepth extra s target :
  plain_session s →
  refKey reference ∉ processedRefs (context s) →
  resolvable s reference target →
  ∃ deeper s',
    expandSingleReference docId token server
      (depth_budget (currentDepth + 1) maxDepth + extra) reference currentDepth maxDepth s
    = (Ok (Some (expanded_reference reference deeper)), s') ∧
    row_chain_expansion ({[refKey reference]} ∪ processedRefs (context s)) target deeper ∧
    referenced_row (context s') reference target ∧
    plain_session s' ∧
    rtc sstep s s'.
Proof.
  intros Hs Hfresh Hresolvable.
  destruct (resolved_reference_runs_marked
              (expandRowLookups docId token server
                 (depth_budget (currentDepth + 1) maxDepth + extra))
              reference currentDepth maxDepth s target Hfresh Hresolvable)
    as (s1 & Hsteps & Hprocessed & Htarget & Hrun).
  assert (plain_session s1) as Hs1.
  { eapply (session_steps_preserve docId token server); [|exact Hsteps|exact Hs].
    intros ? ?. by apply plain_step. }
  destruct (expandRowLookups_returns docId token server server_plain target
              (currentDepth + 1) maxDepth extra s1 Hs1)
    as (deeper & s2 & Edeeper & Hs2); [by eapply referenced_row_plain|].
  pose proof (expandRowLookups_chain docId token server
                (depth_budget (currentDepth + 1) maxDepth + extra)
                (processedRefs (context s1)) target (currentDepth + 1) maxDepth s1) as Hchain.
  rewrite Edeeper in Hchain. destruct Hchain as [_ Hchain]; [done|].
  pose proof (expandRowLookups_session docId token server
                (depth_budget (currentDepth + 1) maxDepth + extra)
                target (currentDepth + 1) maxDepth s1) as Hsteps2.
  rewrite Edeeper in Hsteps2. simpl in Hsteps2.
  eexists deeper, _. split; [|split; [|split; [|split]]].
  - unfold expandSingleReference. rewrite Hrun, (bind_Ok _ _ _ _ _ Edeeper). reflexivity.
  - by rewrite <- Hprocessed.
  - simpl. eapply referenced_row_tables; [|exact Htarget].
    by apply (steps_extend docId token server) in Hsteps2 as [? _].
  - done.
  - simpl. etrans; [exact Hsteps|]. etrans; [exact Hsteps2|].
    apply rtc_once. constructor.
Qed.

Section Loops.
Variable expandRow : CodaRow → Z → Z → M CodaRow.
Variables currentDepth maxDepth : Z.

Lemma expand_items_no_reference items expandedItems hasExpanded s :
  existsb isRawRowReference items = false →
  expand_items docId token server expandRow currentDepth maxDepth
    items expandedItems hasExpanded s
  = (Ok (expandedItems ++ items, hasExpanded), s).
Proof.
  revert expandedItems.
  induction items as [|item rest IH]; intros expandedItems; simpl.
  - intros _. by rewrite app_nil_r.
  - intros [Hitem Hrest]%orb_false_iff. rewrite Hitem. simpl.
    rewrite IH by done. by rewrite <- app_assoc.
Qed.

(** Cells that hold no reference are passed over. *)
Lemma expand_entries_inert before entries expandedValues s :
  Forall (fun entry : string * RawValue => holds_reference entry.2 = false) before →
  expand_entries docId token server expandRow currentDepth maxDepth
    (before ++ entries) expandedValues s
  = expand_entries docId token server expandRow currentDepth maxDepth
      entries expandedValues s.
Proof.
  induction 1 as [|[key value] before Hinert _ IH]; [done|].
  simpl in *. apply orb_false_iff in Hinert as [Href Hitems]. rewrite Href.
  destruct value; try exact IH.
  by rewrite (bind_Ok _ _ _ _ _ (expand_items_no_reference items [] false s Hitems)).
Qed.

End Loops.

(** A reference of a top-level row that no reference comes before: it is
    expanded, whatever the processed set held, when the row it names can be
    had. *)
Lemma top_level_reference_is_expanded maxDepth row before key reference rest target s :
  plain_session s → plain_row row = true → (0 < maxDepth)%Z →
  row_values row = before ++ (key, reference) :: rest →
  NoDup (keys (row_values row)) →
  Forall (fun entry : string * RawValue => holds_reference entry.2 = false) before →
  isRawRowReference reference = true →
  resolvable s reference target →
  ∃ row' s' deeper,
    expand_top_level_row docId token server maxDepth row s = (Ok row', s') ∧
    obj_get (row_values row') key = Some (expanded_reference reference deeper) ∧
    isExpandedRowReference (expanded_reference reference deeper) = true ∧
    row_chain_expansion {[refKey reference]} target deeper ∧
    referenced_row (context s') reference target ∧
    plain_session s'.
Proof.
  intros Hs Hrow Hdepth Hvalues Hkeys Hinert Href Hresolvable.
  set (s0 := (update_context clear_processed s).2).
  assert (plain_session s0) as Hs0 by done.
  assert (resolvable s0 reference target) as Hresolvable0 by done.
  set (fuel := Z.to_nat (maxDepth - 0)).
  assert (fuel = (depth_budget (0 + 1) maxDepth + 0)%nat) as Hfuel.
  { unfold fuel, depth_budget. lia. }
  destruct (resolved_reference_is_expanded reference 0 maxDepth 0 s0 target Hs0)
    as (deeper & s1 & Eref & Hchain & Htarget & Hs1 & _); [set_solver|done|].
  rewrite <- Hfuel in Eref. unfold expandSingleReference in Eref.
  assert (forallb (fun entry : string * RawValue => plain_cell entry.2) rest = true)
    as Hrest.
  { unfold plain_row in Hrow. rewrite Hvalues, forallb_app in Hrow.
    apply andb_true_iff in Hrow as [_ Hrow]. simpl in Hrow.
    by apply andb_true_iff in Hrow as [_ ?]. }
  assert (key ∉ keys rest) as Hkey.
  { rewrite Hvalues in Hkeys. unfold keys in *. rewrite map_app in Hkeys.
    apply NoDup_app in Hkeys as (_ & _ & Hkeys). simpl in Hkeys.
    by apply NoDup_cons in Hkeys as [? _]. }
  set (acc := obj_set (row_values row) key (expanded_reference reference deeper)).
  pose proof (expand_entries_plain docId token server server_plain
                (expandRowLookups docId token server fuel) 0 maxDepth
                (fun r Hr => expandRowLookups_plain docId token server server_plain
                               fuel r (0 + 1) maxDepth Hr)
                rest acc Hrest s1 Hs1) as Hrun.
  pose proof (expand_entries_finishes docId token server
                (expandRowLookups docId token server fuel) 0 maxDepth) as Hfin.
  specialize (Hfin (fun r => expandRowLookups_finishes docId token server fuel r
                               (0 + 1) maxDepth ltac:(unfold fuel; lia)) rest acc s1).
  pose proof (expand_entries_session docId token server
                (expandRowLookups docId token server fuel)
                (expandRowLookups_session docId token server fuel)
                0 maxDepth rest acc s1) as Hsteps.
  destruct (expand_entries _ _ _ _ _ _ rest acc s1) as [[values|e|] s2] eqn:Erest;
    [|done|done].
  simpl in Hsteps.
  exists (with_values row values), s2, deeper.
  split; [|split; [|split; [|split; [|split]]]].
  - unfold expand_top_level_row.
    rewrite (bind_Ok _ _ _ tt s0) by done.
    unfold try_catch, depth_budget. fold fuel. cbn [expandRowLookups].
    unfold expandRowLookups_body.
    assert ((maxDepth <=? 0)%Z || (maxDepth <=? 0)%Z = false) as ->.
    { apply orb_false_iff. split; apply Z.leb_gt; lia. }
    unfold bind at 1. rewrite Hvalues at 1.
    rewrite expand_entries_inert by done. cbn [expand_entries]. rewrite Href.
    rewrite (bind_Ok _ _ _ _ _ Eref). fold acc. by rewrite Erest.
  - simpl. erewrite expand_entries_other_keys; [|exact Erest|exact Hkey].
    apply obj_get_set_eq.
  - by apply expanded_reference_is_expanded.
  - eapply row_chain_expansion_mono; [|exact Hchain]. set_solver.
  - eapply referenced_row_tables; [|exact Htarget].
    by apply (steps_extend docId token server) in Hsteps as [? _].
  - done.
Qed.

End Expanded.
(** ** Claims on the processed set *)

Section ProcessedClaims.
Context `{JSNumber}.
Variables (docId token : string).
Variable server : list Request → Request → Pages.


End ProcessedClaims.

(** ** The [load] function of the loader *)

Section LoadProperties.
Context `{JSNumber}.
Variable Parsed : Type.
Variable server : list Request → Request → Pages.
Variable columns_api : list LoaderCall → ColumnsAnswer.
Variable rows_api : list LoaderCall → RowsRequest → RowsAnswer.
Variable parseData : string → CodaRow → Error + Parsed.
Variable stringify : string → string.
Variable loader : Loader.

Local Abbreviation load :=
  (load Parsed server columns_api rows_api parseData stringify loader).
Local Abbreviation load_columns := (load_columns Parsed columns_api).
Local Abbreviation fetchAndProcessRows :=
  (fetchAndProcessRows Parsed server rows_api loader).
Local Abbreviation process_row := (process_row Parsed parseData loader).
Local Abbreviation process_rows := (process_rows Parsed parseData loader).
Local Abbreviation process_queries :=
  (process_queries Parsed server rows_api parseData loader).
Local Abbreviation stored_prepared := (stored_prepared Parsed parseData loader).
Local Abbreviation same_columns := (same_columns Parsed).

(** The state after the line that announces the load is logged. *)
Local Abbreviation started st :=
  (llog Parsed LInfo ("Loading data from Coda table " +:+ double_quote
                      +:+ loader_tableIdOrName loader +:+ double_quote) st).2.

Lemma lbind_Ok {A B} (m : L Parsed A) (k : A → L Parsed B) st a st1 :
  m st = (Ok a, st1) → lbind m k st = k a st1.
Proof. unfold lbind. by intros ->. Qed.

Lemma lbind_Throw {A B} (m : L Parsed A) (k : A → L Parsed B) st e st1 :
  m st = (Throw e, st1) → lbind m k st = (Throw e, st1).
Proof. unfold lbind. by intros ->. Qed.

Lemma lbind_OutOfFuel {A B} (m : L Parsed A) (k : A → L Parsed B) st st1 :
  m st = (OutOfFuel, st1) → lbind m k st = (OutOfFuel, st1).
Proof. unfold lbind. by intros ->. Qed.

Lemma same_columns_refl st : same_columns st st.
Proof. by repeat split. Qed.

Lemma same_columns_trans st1 st2 st3 :
  same_columns st1 st2 → same_columns st2 st3 → same_columns st1 st3.
Proof. intros (? & ? & ?) (? & ? & ?). repeat split; congruence. Qed.

Lemma stored_prepared_refl columnTypes store : stored_prepared columnTypes store store.
Proof. intros id data Hdata. by left. Qed.

Lemma stored_prepared_trans columnTypes store1 store2 store3 :
  stored_prepared columnTypes store1 store2 →
  stored_prepared columnTypes store2 store3 →
  stored_prepared columnTypes store1 store3.
Proof.
  intros H12 H23 id data Hdata. destruct (H23 _ _ Hdata) as [Hold|Hnew]; [|by right].
  by apply H12.
Qed.

Lemma cache_columns_spec (items : list CodaColumn) (st : LoaderState Parsed) :
  ∃ st',
    cache_columns Parsed items st = (Ok tt, st') ∧
    session st' = session st ∧ calls st' = calls st ∧ store st' = store st ∧
    columnsDataCache st' = columnsDataCache st ∧
    columnTypesCache st'
    = fold_left (fun m c => <[column_id c := column_format_type c]> m)
        (filter (fun c => column_id c ≠ "__proto__") items) (columnTypesCache st) ∧
    columnsCache st'
    = fold_left (fun m c => <[column_id c := c]> m)
        (filter (fun c => column_id c ≠ "__proto__") items) (columnsCache st).
Proof.
  revert st. induction items as [|column rest IH]; intros st.
  - by exists st.
  - cbn [cache_columns]. unfold lbind at 1. unfold cache_column.
    rewrite filter_cons.
    destruct (str_eqb (column_id column) "__proto__") eqn:Hproto.
    + apply str_eqb_eq in Hproto.
      rewrite decide_False by (by intros Hne). apply IH.
    + rewrite decide_True by (intros E; by rewrite E in Hproto).
      match goal with
      | |- context [cache_columns Parsed rest ?st1] =>
          destruct (IH st1) as (st' & E & Hs & Hc & Hst & Hd & Ht & Hcc)
      end.
      exists st'. by rewrite E.
Qed.

(** The first part of [load]. *)
Lemma load_columns_spec (st : LoaderState Parsed) :
  ∃ st',
    load_columns st = (Ok tt, st') ∧
    store st' = store st ∧
    context (session st') = context (session st) ∧
    requests (session st') = requests (session st) ∧
    calls st' = calls st ++ (if bool_decide (columnTypesCache st = ∅)
                             then [ColumnsCall] else []) ∧
    match columns_api (calls st) with
    | ColumnsItems items =>
        if bool_decide (columnTypesCache st = ∅) then
          columnTypesCache st'
          = fold_left (fun m c => <[column_id c := column_format_type c]> m)
              (filter (fun c => column_id c ≠ "__proto__") items) ∅ ∧
          columnsDataCache st' = Some items ∧
          columnsCache st'
          = fold_left (fun m c => <[column_id c := c]> m)
              (filter (fun c => column_id c ≠ "__proto__") items) (columnsCache st)
        else same_columns st st'
    | _ => same_columns st st'
    end.
Proof.
  unfold load_columns, lbind at 1. cbn [get_state].
  destruct (bool_decide (columnTypesCache st = ∅)) eqn:Hempty.
  - apply bool_decide_eq_true in Hempty.
    unfold ltry_catch, fetchColumnData, lbind. cbn [get_state call].
    destruct (columns_api (calls st)) as [e|status statusText|items]; cbn.
    + eexists. split; [reflexivity|]. by repeat split.
    + eexists. split; [reflexivity|]. by repeat split.
    + match goal with
      | |- context [cache_columns Parsed items ?st1] =>
          destruct (cache_columns_spec items st1)
            as (st' & E & Hs & Hc & Hst & Hd & Ht & Hcc)
      end.
      rewrite E. exists st'. cbn in *. split; [done|].
      rewrite Hs, Hc, Hst, Hd, Ht, Hcc, Hempty. done.
  - exists st. rewrite app_nil_r.
    destruct (columns_api (calls st)); by repeat split.
Qed.

Lemma process_row_spec (row : CodaRow) (st : LoaderState Parsed) :
  let r := process_row row st in
  session r.2 = session st ∧ calls r.2 = calls st ∧ same_columns st r.2 ∧
  stored_prepared (columnTypesCache st) (store st) (store r.2) ∧
  match parseData (row_id row)
          (with_values row (prepared_values loader (columnTypesCache st) (row_values row)))
  with
  | inl e => r.1 = Throw e
  | inr data => r.1 = Ok tt
  end.
Proof.
  unfold process_row, lbind. cbn [get_state].
  destruct (parseData _ _) as [e|data] eqn:Hparse; cbn.
  - split; [done|]. split; [done|]. split; [by repeat split|].
    split; [apply stored_prepared_refl|done].
  - split; [done|]. split; [done|]. split; [by repeat split|]. split; [|done].
    intros id data'. destruct (decide (row_id row = id)) as [<-|Hne].
    + rewrite lookup_insert_eq. intros [= <-]. right. by exists row.
    + rewrite lookup_insert_ne by done. by left.
Qed.

Lemma process_rows_cons (row : CodaRow) (rest : list CodaRow) (total : nat) :
  process_rows (row :: rest) total
  = lbind (process_row row) (fun _ => process_rows rest (S total)).
Proof. reflexivity. Qed.

Lemma process_queries_cons (q : option string) (rest : list (option string))
    (total : nat) :
  process_queries (q :: rest) total
  = lbind (fetchAndProcessRows q)
      (fun processedRows =>
         lbind (process_rows processedRows total)
           (fun totalRowsProcessed => process_queries rest totalRowsProcessed)).
Proof. reflexivity. Qed.

Lemma process_rows_spec (rows : list CodaRow) (total : nat) (st : LoaderState Parsed) :
  let r := process_rows rows total st in
  session r.2 = session st ∧ calls r.2 = calls st ∧ same_columns st r.2 ∧
  stored_prepared (columnTypesCache st) (store st) (store r.2) ∧
  r.1 ≠ OutOfFuel ∧
  ((∀ id row, ∃ data, parseData id row = inr data) → ∃ total', r.1 = Ok total').
Proof.
  revert total st. induction rows as [|row rest IH]; intros total st; cbv zeta.
  - cbn. split; [done|]. split; [done|]. split; [by repeat split|].
    split; [apply stored_prepared_refl|]. split; [done|]. by eexists.
  - rewrite process_rows_cons.
    destruct (process_row_spec row st) as (Hs & Hc & Hcol & Hst & Hres).
    destruct (process_row row st) as [[[]|e|] st1] eqn:Erow; cbn [fst snd] in *;
      [rewrite (lbind_Ok _ _ _ _ _ Erow)|rewrite (lbind_Throw _ _ _ _ _ Erow)
      |rewrite (lbind_OutOfFuel _ _ _ _ Erow)]; cbn [fst snd].
    + destruct (IH (S total) st1) as (Hs' & Hc' & Hcol' & Hst' & Hfuel & Hgood).
      split; [congruence|]. split; [congruence|].
      split; [by eapply same_columns_trans|]. split; [|by split].
      eapply stored_prepared_trans; [exact Hst|].
      destruct Hcol as (<- & _). exact Hst'.
    + split; [done|]. split; [done|]. split; [done|]. split; [done|]. split; [done|].
      intros Hgood.
      destruct (Hgood (row_id row)
                  (with_values row
                     (prepared_values loader (columnTypesCache st) (row_values row))))
        as [data Hdata].
      by rewrite Hdata in Hres.
    + by destruct (parseData _ _).
Qed.

Lemma fetchAndProcessRows_spec (q : option string) (st : LoaderState Parsed) :
  let r := fetchAndProcessRows q st in
  store r.2 = store st ∧ same_columns st r.2 ∧
  calls r.2 = calls st ++ [RowsCall (rows_request loader q)] ∧
  r.1 ≠ OutOfFuel ∧
  ((loader_maxLookupDepth loader ≤ 0)%Z → session r.2 = session st) ∧
  (∀ items, rows_api (calls st) (rows_request loader q) = RowsItems items →
            ∃ rows, r.1 = Ok rows).
Proof.
  unfold fetchAndProcessRows, lbind. cbn [get_state call].
  destruct (rows_api (calls st) (rows_request loader q))
    as [e|status statusText [e|errorData]|items]; cbn;
    try (split; [done|]; split; [by repeat split|]; split; [done|];
         split; [done|]; split; [done|]; by intros).
  destruct (Z.ltb_spec 0 (loader_maxLookupDepth loader)) as [Hdepth|Hdepth].
  - unfold ltry_catch, lift. cbn.
    match goal with
    | |- context [expandLookups ?d ?t server items ?depth ?s] =>
        destruct (expandLookups_returns d t server items depth s)
          as (rows' & s' & E & _)
    end.
    rewrite E. cbn. split; [done|]. split; [by repeat split|]. split; [done|].
    split; [done|]. split; [lia|]. intros _ _. by eexists.
  - cbn. split; [done|]. split; [by repeat split|]. split; [done|].
    split; [done|]. split; [by destruct st|]. intros _ _. by eexists.
Qed.

Lemma process_queries_spec (queries : list (option string)) (total : nat)
    (st : LoaderState Parsed) :
  let r := process_queries queries total st in
  same_columns st r.2 ∧
  stored_prepared (columnTypesCache st) (store st) (store r.2) ∧
  r.1 ≠ OutOfFuel ∧
  (∃ k, (k ≤ length queries)%nat ∧
        calls r.2
        = calls st ++ map (fun q => RowsCall (rows_request loader q)) (take k queries) ∧
        (∀ total', r.1 = Ok total' → k = length queries)) ∧
  ((loader_maxLookupDepth loader ≤ 0)%Z → session r.2 = session st) ∧
  ((∀ history request, ∃ items, rows_api history request = RowsItems items) →
   (∀ id row, ∃ data, parseData id row = inr data) →
   ∃ total', r.1 = Ok total').
Proof.
  revert total st. induction queries as [|q rest IH]; intros total st; cbv zeta.
  - cbn. split; [by repeat split|]. split; [apply stored_prepared_refl|].
    split; [done|]. split; [exists 0%nat; by rewrite app_nil_r|]. split; [done|].
    intros _ _. by eexists.
  - rewrite process_queries_cons.
    destruct (fetchAndProcessRows_spec q st) as (Hst & Hcol & Hcalls & Hfuel & Hsess & Hok).
    destruct (fetchAndProcessRows q st) as [[rows|e|] st1] eqn:Efetch; cbn [fst snd] in *;
      [rewrite (lbind_Ok _ _ _ _ _ Efetch)|rewrite (lbind_Throw _ _ _ _ _ Efetch)
      |rewrite (lbind_OutOfFuel _ _ _ _ Efetch)]; cbn [fst snd].
    + destruct (process_rows_spec rows total st1)
        as (Hs2 & Hc2 & Hcol2 & Hst2 & Hfuel2 & Hgood2).
      destruct (process_rows rows total st1) as [[total1|e|] st2] eqn:Erows;
        cbn [fst snd] in *;
        [rewrite (lbind_Ok _ _ _ _ _ Erows)|rewrite (lbind_Throw _ _ _ _ _ Erows)
        |rewrite (lbind_OutOfFuel _ _ _ _ Erows)]; cbn [fst snd].
      * destruct (IH total1 st2)
          as (Hcol3 & Hst3 & Hfuel3 & (k & Hk & Hcalls3 & Hall) & Hsess3 & Hgood3).
        assert (columnTypesCache st1 = columnTypesCache st) as Ht1 by apply Hcol.
        assert (columnTypesCache st2 = columnTypesCache st) as Ht2
          by (destruct Hcol2 as (-> & _); done).
        split; [eauto using same_columns_trans|]. split; [|split; [done|split; [|split]]].
        -- rewrite <- Hst. rewrite <- Ht1.
           eapply stored_prepared_trans; [exact Hst2|]. rewrite Ht1, <- Ht2. exact Hst3.
        -- exists (S k). split; [simpl; lia|]. split.
           ++ rewrite Hcalls3, Hc2, Hcalls, <- app_assoc. done.
           ++ intros total' Hres. simpl. f_equal. by eapply Hall.
        -- intros Hdepth. rewrite (Hsess3 Hdepth), Hs2. by apply Hsess.
        -- done.
      * split; [eauto using same_columns_trans|]. split; [|split; [done|split; [|split]]].
        -- rewrite <- Hst. destruct Hcol as (<- & _). exact Hst2.
        -- exists 1%nat. split; [simpl; lia|]. split; [|done].
           rewrite Hc2, Hcalls. by simpl.
        -- intros Hdepth. rewrite Hs2. by apply Hsess.
        -- intros _ Hparse. destruct (Hgood2 Hparse) as [total' [=]].
      * done.
    + split; [done|]. split; [rewrite Hst; apply stored_prepared_refl|].
      split; [done|]. split; [|split; [done|]].
      * exists 1%nat. split; [simpl; lia|]. split; [|done].
        rewrite Hcalls. by simpl.
      * intros Hrows _. destruct (Hrows (calls st) (rows_request loader q)) as [items Hitems].
        destruct (Hok items Hitems) as [rows [=]].
    + done.
Qed.

Lemma load_eq (st : LoaderState Parsed) :
  let st0 := (llog Parsed LInfo ("Loading data from Coda table " +:+ double_quote
                                 +:+ loader_tableIdOrName loader +:+ double_quote) st).2 in
  let queries := queries_of stringify (loader_query loader) in
  load st
  = match process_queries queries 0 (load_columns st0).2 with
    | (Ok total, st2) =>
        (Ok tt,
         (llog Parsed LInfo
            ("Loaded " +:+ pretty total +:+ " records from "
             +:+ double_quote +:+ loader_tableIdOrName loader +:+ double_quote
             +:+ " (" +:+ pretty (length queries) +:+ " "
             +:+ (if bool_decide (length queries = 1) then "query" else "queries")
             +:+ ")") st2).2)
    | (Throw e, st2) =>
        (Throw (if is_AstroError e then e
                else AstroError ("Error loading data from Coda: " +:+ err_message e)),
         st2)
    | (OutOfFuel, st2) => (OutOfFuel, st2)
    end.
Proof.
  intros st0 queries. unfold load.
  rewrite (lbind_Ok _ _ st tt st0) by done.
  destruct (load_columns_spec st0) as (st1 & E1 & _).
  rewrite (lbind_Ok _ _ st0 tt st1) by done. rewrite E1. cbn [snd].
  unfold ltry_catch. fold queries.
  destruct (process_queries queries 0 st1) as [[total|e|] st2] eqn:E.
  - by rewrite (lbind_Ok _ _ _ _ _ E).
  - rewrite (lbind_Throw _ _ _ _ _ E). by destruct (is_AstroError e).
  - by rewrite (lbind_OutOfFuel _ _ _ _ E).
Qed.

(** The run of [load], part by part. *)
Lemma load_spec (st : LoaderState Parsed) :
  ∃ st1 st2,
    load_columns
      (llog Parsed LInfo ("Loading data from Coda table " +:+ double_quote
                          +:+ loader_tableIdOrName loader +:+ double_quote) st).2
    = (Ok tt, st1) ∧
    st2 = (process_queries (queries_of stringify (loader_query loader)) 0 st1).2 ∧
    store (load st).2 = store st2 ∧
    calls (load st).2 = calls st2 ∧
    same_columns st2 (load st).2 ∧
    context (session (load st).2) = context (session st2) ∧
    requests (session (load st).2) = requests (session st2) ∧
    match (process_queries (queries_of stringify (loader_query loader)) 0 st1).1 with
    | Ok _ => (load st).1 = Ok tt
    | Throw e =>
        (load st).1 = Throw (if is_AstroError e then e
                             else AstroError ("Error loading data from Coda: "
                                              +:+ err_message e))
    | OutOfFuel => (load st).1 = OutOfFuel
    end.
Proof.
  rewrite load_eq.
  destruct (load_columns_spec
              (llog Parsed LInfo ("Loading data from Coda table " +:+ double_quote
                 +:+ loader_tableIdOrName loader +:+ double_quote) st).2)
    as (st1 & E1 & _).
  rewrite E1. cbn [snd].
  exists st1, (process_queries (queries_of stringify (loader_query loader)) 0 st1).2.
  split; [done|]. split; [done|].
  destruct (process_queries _ 0 st1) as [[total|e|] st2]; cbn;
    (split; [done|]; split; [done|]; split; [by repeat split|]; done).
Qed.

Lemma llog_state level message (st : LoaderState Parsed) :
  let st0 := (llog Parsed level message st).2 in
  store st0 = store st ∧ calls st0 = calls st ∧ same_columns st st0 ∧
  context (session st0) = context (session st) ∧
  requests (session st0) = requests (session st).
Proof. cbn. split; [done|]. split; [done|]. split; [by repeat split|]. done. Qed.

(** X12. [load] ends, and when it fails the error it throws is an
    [AstroError]: an error of another kind that ends the loop over the
    queries is wrapped in one, with its message after the words that say
    what failed. *)
Theorem load_fails_with_AstroError (st : LoaderState Parsed) :
  match (load st).1 with
  | Ok _ => True
  | Throw e => err_name e = "AstroError"
  | OutOfFuel => False
  end.
Proof.
  destruct (load_spec st) as (st1 & st2 & _ & _ & _ & _ & _ & _ & _ & Hres).
  destruct (process_queries_spec (queries_of stringify (loader_query loader)) 0 st1)
    as (_ & _ & Hfuel & _).
  destruct (process_queries _ 0 st1) as [[total|e|] st3]; cbn [fst] in *.
  - by rewrite Hres.
  - rewrite Hres. unfold is_AstroError.
    destruct (str_eqb (err_name e) "AstroError") eqn:E; [|done].
    by apply str_eqb_eq.
  - done.
Qed.

(** X13. [load] returns whenever the rows requests are answered with rows
    and [parseData] accepts the rows: neither a failure of the request for
    the columns nor one of the lookup expansion makes it fail. *)
Theorem load_succeeds_when_rows_parse (st : LoaderState Parsed) :
  (∀ history request, ∃ items, rows_api history request = RowsItems items) →
  (∀ id row, ∃ data, parseData id row = inr data) →
  ∃ st', load st = (Ok tt, st').
Proof.
  intros Hrows Hparse.
  destruct (load_spec st) as (st1 & st2 & _ & _ & _ & _ & _ & _ & _ & Hres).
  destruct (process_queries_spec (queries_of stringify (loader_query loader)) 0 st1)
    as (_ & _ & _ & _ & _ & Hgood).
  destruct (Hgood Hrows Hparse) as [total Htotal]. rewrite Htotal in Hres.
  exists (load st).2. destruct (load st) as [[[]|e|] st']; by inversion Hres.
Qed.

(** X14. The requests of [load].  It asks for the columns if no column type
    is cached, and then sends one rows request per query, in the order of
    the queries, each with the sort order and the limit of the loader; it
    stops at the first query that fails and sends them all when it returns.
    No request asks for a further page of rows.  When the lookup depth is
    not positive the session of the lookup expansion is left as it is: its
    context, and no table is requested. *)
Theorem load_requests (st : LoaderState Parsed) :
  ∃ k,
    calls (load st).2
    = calls st
      ++ (if bool_decide (columnTypesCache st = ∅) then [ColumnsCall] else [])
      ++ take k (query_calls stringify loader) ∧
    ((load st).1 = Ok tt → k = length (query_calls stringify loader)) ∧
    ((loader_maxLookupDepth loader ≤ 0)%Z →
     context (session (load st).2) = context (session st) ∧
     requests (session (load st).2) = requests (session st)).
Proof.
  destruct (load_spec st)
    as (st1 & st2 & E1 & -> & _ & Hcalls & _ & Hcontext & Hrequests & Hres).
  destruct (llog_state LInfo ("Loading data from Coda table " +:+ double_quote
                              +:+ loader_tableIdOrName loader +:+ double_quote) st)
    as (_ & Hc0 & (Ht0 & _) & Hx0 & Hr0).
  destruct (load_columns_spec (started st))
    as (st1' & E1' & _ & Hx1 & Hr1 & Hc1 & _).
  rewrite E1 in E1'. injection E1' as <-.
  destruct (process_queries_spec (queries_of stringify (loader_query loader)) 0 st1)
    as (_ & _ & _ & (k & Hk & Hcalls2 & Hall) & Hsess & _).
  exists k. split; [|split].
  - rewrite Hcalls, Hcalls2, Hc1, Hc0, Ht0, <- app_assoc. unfold query_calls.
    by rewrite firstn_map.
  - intros Hok. unfold query_calls. rewrite length_map.
    destruct (process_queries _ 0 st1) as [[total|e|] st3]; cbn [fst] in *.
    + by eapply Hall.
    + rewrite Hres in Hok. done.
    + rewrite Hres in Hok. done.
  - intros Hdepth. rewrite Hcontext, Hrequests, (Hsess Hdepth). by rewrite Hx1, Hr1.
Qed.

Lemma column_types_lookup (items : list CodaColumn) (m : gmap string string) id :
  fold_left (fun m c => <[column_id c := column_format_type c]> m) items m !! id
  = match last (filter (fun c => column_id c = id) items) with
    | Some c => Some (column_format_type c)
    | None => m !! id
    end.
Proof.
  revert m. induction items as [|item items IH]; intros m; [done|].
  simpl. rewrite IH, filter_cons.
  destruct (decide (column_id item = id)) as [<-|Hne].
  - destruct (filter _ items) as [|c cs] eqn:E; simpl.
    + by rewrite lookup_insert_eq.
    + destruct (last (c :: cs)) eqn:El; [done|]. by apply last_None in El.
  - destruct (last (filter _ items)); [done|]. by rewrite lookup_insert_ne.
Qed.

(** X15. The column types that [load] works with.  When some are cached
    they are used as they are, with no request.  When none is cached and the
    request for the columns is answered, the answer is kept and the type of a
    column id is the format type of the last column of the answer with that
    id; the id [__proto__] is the exception, for which no type is recorded,
    the caches being plain objects.  When the request fails, no type is
    recorded, nothing that was kept changes, and [load] goes on. *)
Theorem load_caches_column_types (st : LoaderState Parsed) :
  let st' := (load st).2 in
  (columnTypesCache st ≠ ∅ → same_columns st st') ∧
  (columnTypesCache st = ∅ →
   match columns_api (calls st) with
   | ColumnsItems items =>
       (∀ id, id ≠ "__proto__" →
              columnTypesCache st' !! id
              = column_format_type <$> last (filter (fun c => column_id c = id) items)) ∧
       columnTypesCache st' !! "__proto__" = None ∧
       columnsDataCache st' = Some items
   | _ => same_columns st st'
   end).
Proof.
  cbv zeta.
  destruct (load_spec st) as (st1 & st2 & E1 & -> & _ & _ & Hcol & _).
  destruct (llog_state LInfo ("Loading data from Coda table " +:+ double_quote
                              +:+ loader_tableIdOrName loader +:+ double_quote) st)
    as (_ & Hc0 & Hcol0 & _).
  destruct (load_columns_spec (started st))
    as (st1' & E1' & _ & _ & _ & _ & Hcolumns).
  rewrite E1 in E1'. injection E1' as <-.
  destruct (process_queries_spec (queries_of stringify (loader_query loader)) 0 st1)
    as (Hcol2 & _).
  assert (same_columns st1 (load st).2) as Hcol12 by eauto using same_columns_trans.
  rewrite Hc0 in Hcolumns. destruct Hcol0 as (Ht0 & Hd0 & Hcc0).
  rewrite Ht0 in Hcolumns.
  split.
  - intros Hcached. rewrite (bool_decide_eq_false_2 _ Hcached) in Hcolumns.
    eapply same_columns_trans; [|exact Hcol12].
    eapply same_columns_trans; [by repeat split|].
    by destruct (columns_api (calls st)).
  - intros Hempty. rewrite (bool_decide_eq_true_2 _ Hempty) in Hcolumns.
    destruct (columns_api (calls st)) as [e|status statusText|items];
      try (eapply same_columns_trans; [|exact Hcol12];
           eapply same_columns_trans; [by repeat split|]; done).
    destruct Hcolumns as (Htypes & Hdata & _). destruct Hcol12 as (-> & -> & _).
    split; [|split; [|done]].
    + intros id Hid. rewrite Htypes, column_types_lookup, list_filter_filter.
      rewrite (list_filter_iff _ (fun c => column_id c = id)).
      * destruct (last _); [done|]. apply lookup_empty.
      * intros c. split; [by intros [? _]|]. intros <-. by split.
    + rewrite Htypes, column_types_lookup, list_filter_filter.
      rewrite (list_filter_iff _ (fun _ => False)).
      * assert (filter (fun _ : CodaColumn => False) items = []) as ->; [|apply lookup_empty].
        clear. induction items as [|c items IH]; [done|].
        rewrite filter_cons_False; [exact IH|tauto].
      * intros c. split; [by intros [? ?]|done].
Qed.

(** X16. What [load] stores.  Every entry that [load] adds to the store or
    replaces in it is filed under the id of a row and is what [parseData]
    made of that row with its values normalised against the column types of
    the loader and then, unless the loader was told not to clean strings,
    cleaned; this holds also for the entries stored before a failure. *)
Theorem load_stores_prepared_rows (st : LoaderState Parsed) :
  stored_prepared (columnTypesCache (load st).2) (store st) (store (load st).2).
Proof.
  destruct (load_spec st) as (st1 & st2 & E1 & -> & Hstore & _ & (Htypes & _) & _).
  destruct (load_columns_spec (llog Parsed LInfo ("Loading data from Coda table "
                                 +:+ double_quote +:+ loader_tableIdOrName loader
                                 +:+ double_quote) st).2)
    as (st1' & E1' & Hstore1 & _).
  rewrite E1 in E1'. injection E1' as <-.
  destruct (process_queries_spec (queries_of stringify (loader_query loader)) 0 st1)
    as ((Htypes2 & _) & Hprepared & _).
  rewrite Hstore, Htypes, Htypes2. by rewrite Hstore1 in Hprepared.
Qed.

End LoadProperties.

(** ** Property names made of column names *)

Section ColumnHelpersProperties.
Import ColumnHelpers.

Lemma in_range_spec lo hi c : in_range lo hi c = true ↔ (lo ≤ c ∧ c ≤ hi)%N.
Proof. unfold in_range. by rewrite andb_true_iff, !N.leb_le. Qed.

Lemma is_word_spec c :
  is_word c = true
  ↔ ((65 ≤ c ∧ c ≤ 90) ∨ (97 ≤ c ∧ c ≤ 122) ∨ (48 ≤ c ∧ c ≤ 57) ∨ c = 95)%N.
Proof.
  unfold is_word, is_upper, is_lower, is_digit.
  rewrite !orb_true_iff, !in_range_spec, N.eqb_eq. tauto.
Qed.

Lemma is_space_spec c :
  is_space c = true
  ↔ ((9 ≤ c ∧ c ≤ 13) ∨ c = 32 ∨ c = 160 ∨ c = 5760 ∨ (8192 ≤ c ∧ c ≤ 8202)
     ∨ c = 8232 ∨ c = 8233 ∨ c = 8239 ∨ c = 8287 ∨ c = 12288 ∨ c = 65279)%N.
Proof.
  unfold is_space. rewrite !orb_true_iff, !in_range_spec, !N.eqb_eq. tauto.
Qed.

Lemma is_dot_spec c : is_dot c = true ↔ c = 46%N.
Proof. apply N.eqb_eq. Qed.

Lemma is_upper_spec c : is_upper c = true ↔ (65 ≤ c ∧ c ≤ 90)%N.
Proof. apply in_range_spec. Qed.

Lemma is_lower_spec c : is_lower c = true ↔ (97 ≤ c ∧ c ≤ 122)%N.
Proof. apply in_range_spec. Qed.

Lemma is_digit_spec c : is_digit c = true ↔ (48 ≤ c ∧ c ≤ 57)%N.
Proof. apply in_range_spec. Qed.

(** Decide a goal on the classes of code units by arithmetic. *)
Ltac classes :=
  repeat match goal with
         | H : _ = false |- _ => apply not_true_iff_false in H
         | |- _ = false => apply not_true_iff_false; intros ?
         end;
  rewrite ?is_word_spec, ?is_space_spec, ?is_dot_spec, ?is_upper_spec,
    ?is_lower_spec, ?is_digit_spec, ?in_range_spec in *;
  lia.

Lemma surrogate_not_kept c :
  is_high_surrogate c = true ∨ is_low_surrogate c = true → kept c = false.
Proof.
  unfold is_high_surrogate, is_low_surrogate, kept. intros Hs.
  apply not_true_iff_false. rewrite !orb_true_iff. intros Hk. classes.
Qed.

Lemma remove_special_length_ind (P : list N → Prop) :
  P [] → (∀ c, P [c]) →
  (∀ c d rest, P (d :: rest) → P rest → P (c :: d :: rest)) →
  ∀ s, P s.
Proof.
  intros Hnil Hone Hstep.
  assert (∀ s, P s ∧ ∀ c, P (c :: s)) as Hboth.
  { induction s as [|d rest [IH1 IH2]]; [by split|]. split; [apply IH2|].
    intros c. apply Hstep; [apply IH2|apply IH1]. }
  intros s. apply Hboth.
Qed.

(** The first alternative removes nothing that the second would leave. *)
Lemma remove_special_filter (s : list N) :
  remove_special s = filter (fun c => kept c = true) s.
Proof.
  induction s as [|c|c d rest IH1 IH2] using remove_special_length_ind.
  - done.
  - simpl. rewrite filter_cons, filter_nil. by destruct (kept c).
  - change (remove_special (c :: d :: rest))
      with (if is_high_surrogate c && is_low_surrogate d then remove_special rest
            else if kept c then c :: remove_special (d :: rest)
                 else remove_special (d :: rest)).
    destruct (is_high_surrogate c && is_low_surrogate d) eqn:Hpair.
    + apply andb_true_iff in Hpair as [Hc Hd].
      rewrite IH2, !filter_cons.
      rewrite (surrogate_not_kept c), (surrogate_not_kept d) by auto. done.
    + rewrite IH1, (filter_cons _ c). by destruct (kept c).
Qed.

Lemma filter_rev {A} (P : A → Prop) `{∀ x, Decision (P x)} (l : list A) :
  filter P (rev l) = rev (filter P l).
Proof.
  induction l as [|x l IH]; [done|]. simpl. rewrite filter_app, IH, !filter_cons.
  destruct (decide (P x)); simpl; [done|]. by rewrite filter_nil, app_nil_r.
Qed.

Lemma trimStart_words (s : list N) :
  filter (fun c => is_word c = true) (trimStart s) = filter (fun c => is_word c = true) s.
Proof.
  induction s as [|c s IH]; [done|]. simpl. destruct (is_space c) eqn:Hspace; [|done].
  rewrite IH, filter_cons. destruct (decide (is_word c = true)) as [Hword|]; [|done].
  classes.
Qed.

Lemma trim_words (s : list N) :
  filter (fun c => is_word c = true) (trim s) = filter (fun c => is_word c = true) s.
Proof.
  unfold trim. by rewrite filter_rev, trimStart_words, filter_rev, rev_involutive,
    trimStart_words.
Qed.

Lemma trimStart_kept (s : list N) :
  Forall (fun c => kept c = true) s → Forall (fun c => kept c = true) (trimStart s).
Proof.
  induction 1 as [|c s Hc Hs IH]; [done|]. simpl. destruct (is_space c); [done|].
  by constructor.
Qed.

Lemma trim_kept (s : list N) :
  Forall (fun c => kept c = true) s → Forall (fun c => kept c = true) (trim s).
Proof.
  intros Hs. unfold trim. by apply Forall_rev, trimStart_kept, Forall_rev, trimStart_kept.
Qed.

(** The replacement of a unit changes the case of a letter at most. *)
Lemma camel_unit_class prev c :
  is_word (camel_unit prev c) = is_word c ∧
  is_space (camel_unit prev c) = is_space c ∧
  is_dot (camel_unit prev c) = is_dot c ∧
  lower_unit (camel_unit prev c) = lower_unit c.
Proof.
  assert (∀ x y, (x = true ↔ y = true) → x = y) as Hbool.
  { intros [] [] [H1 H2]; try done; [symmetry; by apply H1|by apply H2]. }
  assert (is_word (lower_unit c) = is_word c ∧ is_space (lower_unit c) = is_space c ∧
          is_dot (lower_unit c) = is_dot c ∧ lower_unit (lower_unit c) = lower_unit c)
    as Hlower.
  { unfold lower_unit. destruct (is_upper c) eqn:Hu; [|by rewrite Hu].
    split; [|split; [|split]].
    - apply Hbool. classes.
    - apply Hbool. classes.
    - apply Hbool. classes.
    - destruct (is_upper (c + 32)) eqn:Hu'; [classes|done]. }
  assert (is_word (upper_unit c) = is_word c ∧ is_space (upper_unit c) = is_space c ∧
          is_dot (upper_unit c) = is_dot c ∧ lower_unit (upper_unit c) = lower_unit c)
    as Hupper.
  { unfold upper_unit, lower_unit. destruct (is_lower c) eqn:Hl; [|done].
    split; [|split; [|split]].
    - apply Hbool. classes.
    - apply Hbool. classes.
    - apply Hbool. classes.
    - destruct (is_upper (c - 32)) eqn:Hu'; [|classes].
      destruct (is_upper c) eqn:Hu; classes. }
  unfold camel_unit. destruct prev as [p|].
  - by destruct (is_upper c || _).
  - revert Hlower. destruct (is_word c) eqn:Hw; [tauto|]. intros _. by repeat split.
Qed.

Lemma camelCase_kept prev (s : list N) :
  Forall (fun c => kept c = true) s →
  Forall (fun c => kept c = true) (camelCase prev s).
Proof.
  intros Hs. revert prev. induction Hs as [|c s Hc Hs IH]; intros prev; [done|].
  simpl. constructor; [|apply IH].
  destruct (camel_unit_class prev c) as (Hw & Hsp & Hd & _).
  unfold kept in *. by rewrite Hw, Hsp, Hd.
Qed.

Lemma camelCase_words prev (s : list N) :
  map lower_unit (filter (fun c => is_word c = true) (camelCase prev s))
  = map lower_unit (filter (fun c => is_word c = true) s).
Proof.
  revert prev. induction s as [|c s IH]; intros prev; [done|].
  simpl. rewrite !filter_cons.
  destruct (camel_unit_class prev c) as (Hw & _ & _ & Hl).
  rewrite Hw. destruct (decide (is_word c = true)); simpl; [|apply IH].
  by rewrite Hl, IH.
Qed.

(** Of the units that are left in place, those that are neither white space
    nor dots are the units of the class [\w]. *)
Lemma kept_words (s : list N) :
  Forall (fun c => kept c = true) s →
  filter (fun c => is_dot c = false) (filter (fun c => is_space c = false) s)
  = filter (fun c => is_word c = true) s.
Proof.
  induction 1 as [|c s Hc Hs IH]; [done|].
  rewrite !(filter_cons _ c).
  destruct (decide (is_space c = false)) as [Hspace|Hspace].
  - rewrite filter_cons, IH.
    destruct (decide (is_dot c = false)) as [Hdot|Hdot].
    + rewrite decide_True; [done|].
      unfold kept in Hc. by rewrite Hspace, Hdot, !orb_false_r in Hc.
    + rewrite decide_False; [done|]. apply not_false_iff_true in Hdot. intros Hword.
      classes.
  - rewrite IH, decide_False; [done|]. apply not_false_iff_true in Hspace.
    intros Hword. classes.
Qed.

(** The name before the prefix is added. *)
Lemma makeSafePropertyName_body (str : list N) :
  makeSafePropertyName str
  = prefix_unsafe
      (filter (fun c => is_word c = true)
         (camelCase None (trim (remove_special str)))).
Proof.
  unfold makeSafePropertyName. cbv zeta. rewrite kept_words; [done|].
  apply camelCase_kept, trim_kept. rewrite remove_special_filter.
  apply Forall_forall. by intros c [? _]%list_elem_of_filter.
Qed.

(** X17. [makeSafePropertyName] always makes a name that can be written as
    an object key without quotes: the name is not empty, it consists of
    letters of A to Z in either case, digits and underscores, and it does
    not begin with a digit. *)
Theorem makeSafePropertyName_is_identifier (str : list N) :
  ∃ c rest,
    makeSafePropertyName str = c :: rest ∧
    is_word c = true ∧ is_digit c = false ∧
    Forall (fun x => is_word x = true) rest.
Proof.
  rewrite makeSafePropertyName_body.
  set (body := filter _ _).
  assert (Forall (fun x => is_word x = true) body) as Hbody.
  { apply Forall_forall. by intros c [? _]%list_elem_of_filter. }
  destruct body as [|c rest]; simpl.
  - by exists 95%N, [].
  - destruct (is_digit c) eqn:Hdigit.
    + by exists 95%N, (c :: rest).
    + apply Forall_cons in Hbody as [Hc Hrest]. by exists c, rest.
Qed.

(** X18. What [makeSafePropertyName] keeps of a column name.  The result
    is a body, with an underscore put before it when it is empty or begins
    with a digit, and the body with its letters in lower case is the name
    with its letters in lower case and every code unit removed that is not a
    letter of A to Z, a digit or an underscore.  So the property names of
    two column names that differ only in other characters differ at most in
    the case of letters, which depends on what was removed: [a b] gives
    [aB], and [ab] gives [ab]. *)
Theorem makeSafePropertyName_keeps_word_characters (str : list N) :
  (∃ body,
     makeSafePropertyName str = prefix_unsafe body ∧
     map lower_unit body = map lower_unit (filter (fun c => is_word c = true) str)) ∧
  (∀ other,
     filter (fun c => is_word c = true) other = filter (fun c => is_word c = true) str →
     ∃ body body',
       makeSafePropertyName str = prefix_unsafe body ∧
       makeSafePropertyName other = prefix_unsafe body' ∧
       map lower_unit body' = map lower_unit body) ∧
  makeSafePropertyName [97; 32; 98]%N = [97; 66]%N ∧
  makeSafePropertyName [97; 98]%N = [97; 98]%N.
Proof.
  assert (∀ name, ∃ body,
            makeSafePropertyName name = prefix_unsafe body ∧
            map lower_unit body
            = map lower_unit (filter (fun c => is_word c = true) name)) as Hbody.
  { intros name. rewrite makeSafePropertyName_body. eexists. split; [reflexivity|].
    rewrite camelCase_words, trim_words, remove_special_filter.
    rewrite list_filter_filter_l; [done|].
    intros c Hword. unfold kept. by rewrite Hword. }
  split; [apply Hbody|]. split; [|split; reflexivity].
  intros other Hsame.
  destruct (Hbody str) as (body & Hstr & Hlower).
  destruct (Hbody other) as (body' & Hother & Hlower').
  exists body, body'. split; [done|]. split; [done|].
  by rewrite Hlower', Hsame, Hlower.
Qed.

End ColumnHelpersProperties.

(** ** References after an expansion *)

Section ExpandedReferences.
Context `{JSNumber}.

(** X19. An expanded reference is still the reference.  What an expansion
    puts in the place of a row reference passes the guards for row
    references of both modules, has the key and the name of the reference
    and every property of it but [values], and unless it is the reference
    itself it passes the guard for expanded references. *)
Theorem expansion_keeps_reference (original result : RawValue) :
  isRawRowReference original = true →
  expansion_of original result →
  isRawRowReference result = true ∧
  isRowReference result = true ∧
  refKey result = refKey original ∧
  getReferenceName result = getReferenceName original ∧
  (∀ k, k ≠ "values" → prop result k = prop original k) ∧
  (result = original ∨ isExpandedRowReference result = true).
Proof.
  intros Href [->|[_ [deeper ->]]].
  - split; [done|]. split; [by destruct original|]. split; [done|]. split; [done|].
    split; [done|]. by left.
  - assert (∀ k, k ≠ "values" →
                 prop (expanded_reference original deeper) k = prop original k) as Hprop.
    { intros k Hk. unfold prop, obj_read, expanded_reference. simpl.
      by rewrite obj_get_set_ne. }
    assert (isRawRowReference (expanded_reference original deeper) = true) as Hguard.
    { destruct original as [| | | | | |fields]; try done.
      unfold isRawRowReference, expanded_reference, obj_has, obj_read in *; simpl.
      by rewrite !obj_get_set_ne. }
    split; [done|]. split; [exact Hguard|]. split; [|split; [|split]].
    + unfold refKey. by rewrite !Hprop.
    + destruct original as [| | | | | |fields]; try done.
      unfold getReferenceName. rewrite Hguard, Href.
      change (prop (expanded_reference (VObj fields) deeper) "name"
              = prop (VObj fields) "name"). by apply Hprop.
    + exact Hprop.
    + right. by apply expanded_reference_is_expanded.
Qed.

End ExpandedReferences.

(** ** The command line of the generator *)

Section CliProperties.
Import Cli.

Lemma startsWith_append (p v : string) : startsWith (p +:+ v) p = true.
Proof. induction p as [|c p IH]; [done|]. simpl. by rewrite Ascii.eqb_refl. Qed.

Lemma substring_append (p v : string) : substring (String.length p) (p +:+ v) = v.
Proof. induction p as [|c p IH]; [done|]. exact IH. Qed.

Lemma length_append (a b : string) :
  String.length (a +:+ b) = (String.length a + String.length b)%nat.
Proof. induction a as [|c a IH]; [done|]. simpl. by rewrite <- IH. Qed.

Lemma flag_length (prefix : string) :
  String.length ("--" +:+ prefix +:+ "=") = (String.length prefix + 3)%nat.
Proof. rewrite !length_append. simpl. lia. Qed.

Lemma append_assoc (a b c : string) : (a +:+ b) +:+ c = a +:+ b +:+ c.
Proof.
  induction a as [|x a IH]; [done|].
  change (String x ((a +:+ b) +:+ c) = String x (a +:+ b +:+ c)). by rewrite IH.
Qed.

(** X20. [getArgValue] reads the value of a flag off the command line: it
    is what follows [--prefix=] in the first argument that begins so,
    whatever comes after that argument, and there is no value when no
    argument begins so. *)
Theorem getArgValue_reads_first_flag (prefix value : string)
    (before after : list string) :
  Forall (fun a => startsWith a ("--" +:+ prefix +:+ "=") = false) before →
  getArgValue (before ++ ("--" +:+ prefix +:+ "=" +:+ value) :: after) prefix = Some value ∧
  getArgValue before prefix = None.
Proof.
  intros Hbefore. unfold getArgValue.
  replace ("--" +:+ prefix +:+ "=" +:+ value)
    with (("--" +:+ prefix +:+ "=") +:+ value) by (by rewrite !append_assoc).
  rewrite <- flag_length.
  generalize dependent ("--" +:+ prefix +:+ "="). intros flag Hbefore.
  split.
  - induction Hbefore as [|a before Ha _ IH]; cbn [app find].
    + by rewrite startsWith_append, substring_append.
    + by rewrite Ha.
  - induction Hbefore as [|a before Ha _ IH]; cbn [find]; [done|]. by rewrite Ha.
Qed.

End CliProperties.
(** ** The claims on examples *)



(** Two top-level rows that refer to the same row: both are expanded. *)
Example same_target_from_two_rows_expanded_twice :
  let rows := Examples.returned_rows
                (expandLookups "doc" "tok" Examples.one_page_server
                   [Examples.to_X_1; Examples.to_X_2] 5 Examples.start) in
  length rows = 2 ∧
  isExpandedRowReference <$> Examples.cell rows 0 "c-ref" = Some true ∧
  isExpandedRowReference <$> Examples.cell rows 1 "c-ref" = Some true.
Proof. vm_compute. repeat split. Qed.

(** Rows that refer to each other: the expansion of [A] ends, with one fetch,
    and the reference to [B] met again under [A] is left as it is. *)
Example cyclic_references_terminate :
  let run := expandLookups "doc" "tok" Examples.one_page_server [Examples.row_A] 5
               Examples.start in
  length (Examples.returned_rows run) = 1 ∧
  requestCount (context run.2) = 1 ∧
  (let again :=
     r1 ← Examples.cell (Examples.returned_rows run) 0 "c-ref";
     r2 ← obj_get (fields_of (prop (prop r1 "values") "values")) "c-ref";
     obj_get (fields_of (prop (prop r2 "values") "values")) "c-ref" in
   refKey <$> again = Some "T:B" ∧ isExpandedRowReference <$> again = Some false).
Proof. vm_compute. repeat split. Qed.


(** A reference to a table named [constructor]: step 1 reads the member of
    [Object.prototype] of that name and the call of its [get] throws.  The
    top-level row is returned with its reference as it was, no request is
    made, and the error is logged. *)
Example prototype_named_table_throws :
  (expandSingleReference "doc" "tok" Examples.one_page_server 6
     (Examples.reference "constructor" "A") 0 5 Examples.start).1
  = Throw get_is_not_a_function ∧
  (let run := expandLookups "doc" "tok" Examples.one_page_server
                [Samples.to_constructor] 5 Examples.start in
   let rows := Examples.returned_rows run in
   map row_id rows = ["r6"] ∧
   isExpandedRowReference <$> Examples.cell rows 0 "c-ref" = Some false ∧
   length (requests run.2) = 0%nat ∧
   last (logs run.2)
   = Some (LWarn, "Error expanding row r6: "
                  +:+ "context.tableCache[reference.tableId].get is not a function")).
Proof. vm_compute. repeat split. Qed.

(** A row that refers to a table whose fetch fails and then to a row of [T],
    followed by a second row: the first reference is left as it was, the
    second one and the one of the next row are expanded. *)
Example expansion_continues_after_failed_fetch :
  let run := expandLookups "doc" "tok" Samples.partly_failing_server
               [Samples.to_F_then_X; Examples.to_X_1] 5 Examples.start in
  let rows := Examples.returned_rows run in
  map row_id rows = ["r7"; "r3"] ∧
  refKey <$> Examples.cell rows 0 "c-bad" = Some "F:Z" ∧
  isExpandedRowReference <$> Examples.cell rows 0 "c-bad" = Some false ∧
  isExpandedRowReference <$> Examples.cell rows 0 "c-good" = Some true ∧
  isExpandedRowReference <$> Examples.cell rows 1 "c-ref" = Some true ∧
  fetched_tables (requests run.2) = ["F"; "T"] ∧
  (fun entry : option CodaRow => match entry with Some _ => false | None => true end)
    <$> cache (context run.2) !! "F:Z" = Some true.
Proof. vm_compute. repeat split. Qed.

(** A reference in the second column of a top-level row, after a cell
    without references, in a session that has processed [X] before. *)
Example later_column_is_expanded :
  ∃ row' s' deeper,
    expand_top_level_row "doc" "tok" Examples.one_page_server 5 Samples.name_then_X
      Examples.X_processed = (Ok row', s') ∧
    obj_get (row_values row') "c-ref"
    = Some (expanded_reference (Examples.reference "T" "X") deeper).
Proof.
  destruct (top_level_reference_is_expanded "doc" "tok" Examples.one_page_server
              (fun _ _ => eq_refl) 5 Samples.name_then_X [("c-name", VStr "n")] "c-ref"
              (Examples.reference "T" "X") [] Examples.row_X Examples.X_processed)
    as (row' & s' & deeper & Hrun & Hcell & _).
  - split.
    + intros tableId table k row. simpl. by rewrite lookup_empty.
    + intros key row. simpl. by rewrite lookup_empty.
  - reflexivity.
  - lia.
  - reflexivity.
  - apply (bool_decide_unpack _). vm_compute. exact I.
  - by constructor.
  - reflexivity.
  - right. split; [reflexivity|]. split; [reflexivity|].
    exists (store_items ∅ [Examples.row_A; Examples.row_B; Examples.row_X]).
    split; reflexivity.
  - by exists row', s', deeper.
Qed.

(** An object with an own property [__proto__]: the property is not copied. *)
Example proto_entry_is_not_copied :
  cleanValue (H := Examples.int_numbers)
    (VObj [("__proto__", VObj [("x", VStr "y")]); ("a", VStr "```b```")])
  = VObj [("a", VStr "b")].
Proof. reflexivity. Qed.



(** Expansion switched off. *)
Lemma expansion_disabled_witness :
  expandLookups "doc" "tok" Examples.one_page_server [Examples.row_A] 0 Examples.start
  = (Ok [Examples.row_A], Examples.start) ∧
  expandRowLookups "doc" "tok" Examples.one_page_server 1 Examples.row_A 5 5 Examples.start
  = (Ok Examples.row_A, Examples.start).
Proof.
  split.
  - apply (expansion_disabled "doc" "tok" Examples.one_page_server
             [Examples.row_A] Examples.row_A 0 0 0 Examples.start). lia.
  - apply (expansion_disabled "doc" "tok" Examples.one_page_server
             [] Examples.row_A 5 5 0 Examples.start). right. lia.
Defined.


(** A boolean cell holding the string TRUE. *)
Lemma normalize_boolean_cell_witness :
  obj_get (normalizeEmptyToObject Examples.raw_cells Examples.cell_types) "c-done"
  = Some (VBool true).
Proof.
  destruct (normalize_boolean_cell Examples.raw_cells Examples.cell_types
              "c-done" (VStr "TRUE")) as (Htrue & _).
  - apply (bool_decide_unpack _). vm_compute. exact I.
  - left. vm_compute. reflexivity.
  - reflexivity.
  - apply (Htrue "TRUE"); reflexivity.
Defined.

(** A string without the wrapper. *)
Lemma cleanString_unwraps_witness :
  cleanString "plain" = "plain" ∧
  cleanValue (VObj [("a", VStr "```x```")]) = VObj [("a", VStr "x")].
Proof.
  destruct (cleanString_unwraps (H := Examples.int_numbers))
    as (_ & Hplain & _ & _ & _ & _ & _ & Hobject & _).
  split.
  - apply Hplain. intros inner E. simpl in E. discriminate E.
  - rewrite Hobject; [reflexivity| |].
    + apply (bool_decide_unpack _). vm_compute. exact I.
    + apply (bool_decide_unpack _). vm_compute. exact I.
Defined.

(** A token and a table, but no document id. *)
Lemma codaLoader_requires_configuration_witness :
  codaLoader Examples.no_docId Examples.empty_env Examples.start
  = (Throw (AstroError missing_docId), Examples.start).
Proof.
  destruct (codaLoader_requires_configuration Examples.no_docId Examples.empty_env
              Examples.start) as (_ & Hdoc & _).
  apply Hdoc; reflexivity.
Defined.

(** A list of two images and a value that is not an image. *)
Lemma getImageUrl_cases_witness :
  getImageUrl (VArr [Examples.image "https://a"; Examples.image "https://b"])
  = VStr "https://a" ∧
  getImageUrl (VStr "https://a") = VNull.
Proof.
  destruct (getImageUrl_cases (H := Examples.int_numbers))
    as (_ & _ & _ & _ & Hfirst & Himage & Hother).
  split.
  - rewrite Hfirst. unfold Examples.image. rewrite Himage; reflexivity.
  - apply Hother; [reflexivity|]. intros first rest E. discriminate E.
Defined.

(** ** The further properties on examples *)

(** The cell of a number column that holds the string abc. *)
Lemma normalized_cell_shape_witness :
  ∃ n, obj_get (normalizeEmptyToObject Examples.raw_cells Examples.cell_types) "c-count"
       = Some (VNum n).
Proof.
  destruct (normalized_cell_shape Examples.raw_cells Examples.cell_types
              "c-count" "number" (VStr "abc")) as (Hnumber & _).
  - apply (bool_decide_unpack _). vm_compute. exact I.
  - reflexivity.
  - reflexivity.
  - apply Hnumber. by left.
Defined.

(** The empty cell of a link column. *)
Lemma accessors_after_normalisation_witness :
  getLinkUrl <$> obj_get (normalizeEmptyToObject Examples.raw_cells Examples.cell_types)
                   "c-site"
  = Some (VStr "").
Proof.
  destruct (accessors_after_normalisation Examples.raw_cells Examples.cell_types
              "c-site" VNull) as (Hlink & _).
  - apply (bool_decide_unpack _). vm_compute. exact I.
  - reflexivity.
  - apply Hlink; [reflexivity|by left].
Defined.

(** An image object. *)
Lemma sanitiser_keeps_tags_witness :
  isRawImage (cleanValue (Examples.image "https://a")) = true ∧
  prop (cleanValue (Examples.image "https://a")) "url" = VStr "https://a".
Proof.
  destruct (sanitiser_keeps_tags (fields_of (Examples.image "https://a")))
    as (Hread & _ & Himage & _).
  - apply (bool_decide_unpack _). vm_compute. exact I.
  - apply (bool_decide_unpack _). vm_compute. exact I.
  - split; [apply Himage; reflexivity|].
    apply (Hread "url" (VStr "https://a")). reflexivity.
Defined.

(** A batch of one row that refers to the lookup table. *)
Lemma session_caches_are_coherent_witness :
  tables_keyed_by_id
    (context (expandLookups "doc" "tok" Examples.one_page_server
                [Examples.top_1] 5 Examples.start).2).
Proof.
  assert (0 < 5)%Z as Hdepth by lia.
  exact (proj1 (proj2 (session_caches_are_coherent "doc" "tok" Examples.one_page_server
                         [Examples.top_1] 5 Examples.start Hdepth))).
Defined.

Lemma expandLookups_expands_in_place_witness :
  ∃ rows' s',
    expandLookups "doc" "tok" Examples.one_page_server [Examples.top_1] 5 Examples.start
    = (Ok rows', s') ∧
    Forall2 row_expansion_of [Examples.top_1] rows'.
Proof.
  apply (expandLookups_expands_in_place "doc" "tok" Examples.one_page_server
           [Examples.top_1] 5 Examples.start).
  constructor; [|constructor].
  apply (bool_decide_unpack _). vm_compute. exact I.
Defined.

Lemma one_page_server_plain : plain_server Examples.one_page_server.
Proof. intros history request. reflexivity. Qed.

Lemma fetched_T_plain : plain_session Samples.fetched_T.
Proof.
  split.
  - intros tableId table k row Htable Hrow.
    change (({["T" := Samples.table_T]} : gmap string (gmap string CodaRow)) !! tableId
            = Some table) in Htable.
    apply lookup_singleton_Some in Htable as [<- <-].
    apply (forallb_elem_of plain_row [Examples.row_A; Examples.row_B; Examples.row_X]);
      [reflexivity|].
    by apply (fetched_rows_read
                (PagesLast [Examples.row_A; Examples.row_B; Examples.row_X])
                Samples.table_T k).
  - intros key row. simpl. by rewrite lookup_empty.
Qed.

Lemma start_plain : plain_session Examples.start.
Proof.
  split.
  - intros tableId table k row. simpl. by rewrite lookup_empty.
  - intros key row. simpl. by rewrite lookup_empty.
Qed.

(** The reference to [X], expanded in a session that has fetched [T]. *)
Lemma reference_to_X_is_expanded :
  ∃ deeper s',
    expandSingleReference "doc" "tok" Examples.one_page_server 6
      (Examples.reference "T" "X") 0 5 Samples.fetched_T
    = (Ok (Some (expanded_reference (Examples.reference "T" "X") deeper)), s').
Proof.
  destruct (resolved_reference_is_expanded "doc" "tok" Examples.one_page_server
              one_page_server_plain (Examples.reference "T" "X") 0 5 1
              Samples.fetched_T Examples.row_X fetched_T_plain)
    as (deeper & s' & Hrun & _).
  - apply not_elem_of_empty.
  - left. exists Samples.table_T. split; [apply lookup_singleton_eq|reflexivity].
  - by exists deeper, s'.
Qed.

Lemma fetched_T_coherent : session_coherent "doc" "tok" Examples.one_page_server 0
                             Samples.fetched_T.
Proof.
  split; [simpl; lia|]. split.
  - intros key row. simpl. by rewrite lookup_empty.
  - intros tableId table Htable.
    change (({["T" := Samples.table_T]} : gmap string (gmap string CodaRow)) !! tableId
            = Some table) in Htable.
    apply lookup_singleton_Some in Htable as [<- <-].
    by exists [], [].
Qed.

Lemma expanded_reference_embeds_cached_row_witness :
  ∃ expanded s' named target deeper,
    expandSingleReference "doc" "tok" Examples.one_page_server 6
      (Examples.reference "T" "X") 0 5 Samples.fetched_T
    = (Ok (Some expanded), s') ∧
    refKey named = "T:X" ∧
    referenced_row (context s') named target ∧
    expanded = expanded_reference (Examples.reference "T" "X") deeper ∧
    keys (row_values deeper) = keys (row_values target).
Proof.
  destruct reference_to_X_is_expanded as (deeper0 & s' & Hrun).
  destruct (expanded_reference_embeds_cached_row "doc" "tok" Examples.one_page_server 6
              (Examples.reference "T" "X") 0 5 Samples.fetched_T _ s'
              (proj1 (proj2 fetched_T_coherent)) Hrun)
    as (named & target & deeper & Hkey & Hrow & Hexpanded & _ & Hkeys & _).
  exists (expanded_reference (Examples.reference "T" "X") deeper0), s',
    named, target, deeper.
  split; [exact Hrun|]. split; [exact Hkey|]. split; [exact Hrow|].
  split; [exact Hexpanded|exact Hkeys].
Defined.

Lemma expanded_reference_embeds_referenced_row_witness :
  ∃ expanded s' table target,
    expandSingleReference "doc" "tok" Examples.one_page_server 6
      (Examples.reference "T" "X") 0 5 Samples.fetched_T
    = (Ok (Some expanded), s') ∧
    tableCache (context s') !! "T" = Some table ∧
    table !! "X" = Some target ∧
    row_id target = "X" ∧
    prop (prop expanded "values") "id" = VStr "X".
Proof.
  destruct reference_to_X_is_expanded as (deeper0 & s' & Hrun).
  destruct (expanded_reference_embeds_referenced_row "doc" "tok"
              Examples.one_page_server 6 (Examples.reference "T" "X") "T" "X" 0 5 0
              Samples.fetched_T _ s' fetched_T_coherent eq_refl eq_refl eq_refl eq_refl
              Hrun)
    as (table & target & deeper & Htable & Hrow & Hid & _ & _ & Hvalues).
  exists (expanded_reference (Examples.reference "T" "X") deeper0), s', table, target.
  split; [exact Hrun|]. split; [exact Htable|]. split; [exact Hrow|].
  split; [exact Hid|exact Hvalues].
Defined.

(** The hypothesis on the ids is needed: of two rows with references that
    have the key [a:b:c], the second gets the row of the first, from the
    row-level cache, and its table is never fetched. *)
Example colliding_keys_embed_another_row :
  let run := expandLookups "doc" "tok" Samples.colon_server
               [Samples.colon_row_1; Samples.colon_row_2] 1 Examples.start in
  let rows := Examples.returned_rows run in
  refKey <$> Examples.cell rows 0 "c-ref" = Some "a:b:c" ∧
  refKey <$> Examples.cell rows 1 "c-ref" = Some "a:b:c" ∧
  (fun cell => toStr (prop cell "rowId")) <$> Examples.cell rows 1 "c-ref" = Some "c" ∧
  (fun cell => toStr (prop (prop cell "values") "id")) <$> Examples.cell rows 1 "c-ref"
  = Some "b:c" ∧
  fetched_tables (requests run.2) = ["a"].
Proof. vm_compute. repeat split. Qed.

(** A load with the default options. *)
Lemma load_succeeds_when_rows_parse_witness :
  ∃ st',
    load CodaRow Examples.one_page_server Samples.columns_api Samples.rows_api
      Samples.parseData Samples.stringify Samples.loader Samples.initial
    = (Ok tt, st').
Proof.
  apply (load_succeeds_when_rows_parse CodaRow Examples.one_page_server
           Samples.columns_api Samples.rows_api Samples.parseData Samples.stringify
           Samples.loader Samples.initial).
  - intros history request. by eexists.
  - intros id row. by eexists.
Defined.

Lemma expansion_keeps_reference_witness :
  isRawRowReference Samples.expanded_X = true ∧
  isRowReference Samples.expanded_X = true ∧
  refKey Samples.expanded_X = refKey (Examples.reference "T" "X") ∧
  getReferenceName Samples.expanded_X = getReferenceName (Examples.reference "T" "X") ∧
  (∀ k, k ≠ "values" →
        prop Samples.expanded_X k = prop (Examples.reference "T" "X") k) ∧
  (Samples.expanded_X = Examples.reference "T" "X" ∨
   isExpandedRowReference Samples.expanded_X = true).
Proof.
  apply (expansion_keeps_reference (Examples.reference "T" "X") Samples.expanded_X).
  - reflexivity.
  - right. split; [reflexivity|]. by exists Examples.row_X.
Defined.

(** The command line of the README. *)
Lemma getArgValue_reads_first_flag_witness :
  Cli.getArgValue ["generate"; "--token=secret"; "--docId=d1"; "--token=other"] "token"
  = Some "secret" ∧
  Cli.getArgValue ["generate"] "token" = None.
Proof.
  apply (getArgValue_reads_first_flag "token" "secret" ["generate"]
           ["--docId=d1"; "--token=other"]).
  constructor; [reflexivity|constructor].
Defined.
